(** * Xcode Assistant: a shallow embedding of [xcode_assistant.py]

    The development models the detection / fix-synthesis / apply engine of
    [XcodeAssistant] and proves properties of it.

    Conventions of the embedding.
    - A Python [str] is a [text], a list of characters; a character is a code
      point below 256 (type [ascii]).  The character classes of [str.strip],
      [str.splitlines] and of the [re] module are the Unicode ones restricted
      to that range.
    - A file is the text it holds, character for character; the file system
      is a map from paths to such texts.  Files are opened in text mode on a
      platform whose line separator is the line feed: reading translates
      every line ending (CR LF, CR) to a line feed, writing stores the text
      as it is.
    - Python exceptions are values of [exn], carried by the [result] monad.
    - Regular expressions are parsed from the pattern strings of the source
      and run by a backtracking matcher with the priorities of [re]. *)

From Stdlib Require Import List Ascii ZArith NArith Bool Arith Lia Sorted.
From Stdlib Require String DecimalString.
Import ListNotations String.StringSyntax.

Set Implicit Arguments.

(* ================================================================== *)
(** * Python values: strings, lists, exceptions *)
(* ================================================================== *)

Module Py.

Definition text := list ascii.

(** String literals of the source are written [L "..."]. *)
Definition L (s : String.string) : text := String.list_ascii_of_string s.
Arguments L s%_string_scope : simpl never.

Definition nl : ascii := "010"%char.
Definition cr : ascii := "013"%char.
Definition dquote : ascii := "034"%char.

Definition code (c : ascii) : N := N_of_ascii c.

Definition between (lo hi n : N) : bool := (N.leb lo n && N.leb n hi)%bool.

(** [str.isspace] on one character (also the class [\s] of [re]). *)
Definition is_space (c : ascii) : bool :=
  let n := code c in
  (between 9 13 n || between 28 32 n || N.eqb n 133 || N.eqb n 160)%bool.

(** Decimal digits: the class [\d]. *)
Definition is_digit (c : ascii) : bool := between 48 57 (code c).

(** Alphanumeric characters and the underscore: the class [\w]. *)
Definition is_word (c : ascii) : bool :=
  let n := code c in
  (between 48 57 n || between 65 90 n || between 97 122 n || N.eqb n 95
   || N.eqb n 170 || N.eqb n 178 || N.eqb n 179 || N.eqb n 181
   || N.eqb n 185 || N.eqb n 186 || between 188 190 n
   || between 192 214 n || between 216 246 n || between 248 255 n)%bool.

(** Line boundaries of [str.splitlines]. *)
Definition is_linebreak (c : ascii) : bool :=
  let n := code c in
  (between 10 13 n || between 28 30 n || N.eqb n 133)%bool.

(** ** Exceptions *)

Inductive exn : Type :=
| IndexError
| FileNotFoundError
| AttributeError.

Inductive result (A : Type) : Type :=
| Ok (a : A)
| Raise (e : exn).

Arguments Ok {A} a.
Arguments Raise {A} e.

Definition bind {A B : Type} (m : result A) (f : A -> result B) : result B :=
  match m with
  | Ok a => f a
  | Raise e => Raise e
  end.

Notation "x <- m ;; k" := (bind m (fun x => k))
  (at level 61, m at next level, right associativity).

(** ** Strings *)

Fixpoint text_eqb (a b : text) : bool :=
  match a, b with
  | [], [] => true
  | x :: a', y :: b' => (Ascii.eqb x y && text_eqb a' b')%bool
  | _, _ => false
  end.

(** [s.startswith(p)] *)
Fixpoint startswith (p s : text) : bool :=
  match p, s with
  | [], _ => true
  | x :: p', y :: s' => (Ascii.eqb x y && startswith p' s')%bool
  | _ :: _, [] => false
  end.

(** [p in s] *)
Fixpoint contains (p s : text) : bool :=
  (startswith p s ||
   match s with
   | [] => false
   | _ :: s' => contains p s'
   end)%bool.

(** [s.count(c)] for a one-character argument. *)
Fixpoint count (c : ascii) (s : text) : nat :=
  match s with
  | [] => 0
  | x :: s' => (if Ascii.eqb x c then 1 else 0) + count c s'
  end.

Fixpoint lstrip (s : text) : text :=
  match s with
  | [] => []
  | c :: s' => if is_space c then lstrip s' else s
  end.

Definition rstrip (s : text) : text := rev (lstrip (rev s)).

(** [s.strip()] *)
Definition strip (s : text) : text := rstrip (lstrip s).

(** [s.replace(old, new)] for a non-empty [old]: occurrences are taken left
    to right and do not overlap; [skip] counts the characters of the
    occurrence just replaced that are still to be passed over. *)
Fixpoint replace_from (old new s : text) (skip : nat) : text :=
  match s with
  | [] => []
  | c :: s' =>
      match skip with
      | S k => replace_from old new s' k
      | O =>
          if startswith old s
          then new ++ replace_from old new s' (length old - 1)
          else c :: replace_from old new s' 0
      end
  end.

(** With an empty [old], [new] is inserted before every character and at
    the end. *)
Fixpoint intersperse (new s : text) : text :=
  match s with
  | [] => new
  | c :: s' => new ++ c :: intersperse new s'
  end.

Definition replace (old new s : text) : text :=
  match old with
  | [] => intersperse new s
  | _ :: _ => replace_from old new s 0
  end.

(** [f.readlines()]: the lines of a text, each with its line feed. *)
Fixpoint readlines (s : text) : list text :=
  match s with
  | [] => []
  | c :: s' =>
      if Ascii.eqb c nl then [c] :: readlines s'
      else match readlines s' with
           | [] => [[c]]
           | l :: ls => (c :: l) :: ls
           end
  end.

(** [s.splitlines()]: the lines without their terminators; a carriage
    return followed by a line feed is one terminator. *)
Fixpoint splitlines (s : text) : list text :=
  match s with
  | [] => []
  | c :: s' =>
      if is_linebreak c then
        match s' with
        | d :: s'' =>
            if (Ascii.eqb c cr && Ascii.eqb d nl)%bool
            then [] :: splitlines s''
            else [] :: splitlines s'
        | [] => [[]]
        end
      else match splitlines s' with
           | [] => [[c]]
           | l :: ls => (c :: l) :: ls
           end
  end.

(** [f.writelines(lines)] writes the concatenation. *)
Definition writelines (lines : list text) : text := concat lines.

(** What a file opened with [open(path, 'r')] decodes its characters to
    (universal newlines): a carriage return becomes a line feed, and a line
    feed that follows a carriage return is dropped.  [pending] tells that
    the character before was a carriage return. *)
Fixpoint translate_newlines (pending : bool) (s : text) : text :=
  match s with
  | [] => []
  | c :: s' =>
      if Ascii.eqb c cr then nl :: translate_newlines true s'
      else if (Ascii.eqb c nl && pending)%bool then translate_newlines false s'
      else c :: translate_newlines false s'
  end.

Definition universal_newlines (s : text) : text := translate_newlines false s.

(** [str(n)] for an integer. *)
Definition str_of_int (z : Z) : text :=
  L (DecimalString.NilZero.string_of_int (Z.to_int z)).

(** ** Lists with Python indexing *)

Definition norm_index (len : nat) (i : Z) : option nat :=
  if (0 <=? i)%Z then
    if (i <? Z.of_nat len)%Z then Some (Z.to_nat i) else None
  else
    if (- Z.of_nat len <=? i)%Z then Some (Z.to_nat (Z.of_nat len + i)) else None.

(** [l[i]] *)
Definition getitem {A : Type} (l : list A) (i : Z) : result A :=
  match norm_index (length l) i with
  | Some n =>
      match nth_error l n with
      | Some a => Ok a
      | None => Raise IndexError
      end
  | None => Raise IndexError
  end.

(** [l[i] = v] *)
Definition setitem {A : Type} (l : list A) (i : Z) (v : A) : result (list A) :=
  match norm_index (length l) i with
  | Some n => Ok (firstn n l ++ v :: skipn (S n) l)
  | None => Raise IndexError
  end.

(** ** Paths *)

(** [s.endswith(suffix)] *)
Definition endswith (suffix s : text) : bool := startswith (rev suffix) (rev s).

(** [os.path.join(a, p)] on a POSIX system. *)
Definition path_join (a p : text) : text :=
  if startswith (L "/") p then p
  else if (text_eqb a [] || endswith (L "/") a)%bool then a ++ p
  else a ++ L "/" ++ p.

End Py.

Import Py.

(* ================================================================== *)
(** * The fragment of [re] the program uses *)
(* ================================================================== *)

Module Re.

(** One-character matchers. *)
Inductive cclass : Type :=
| CLit (c : ascii)   (* the character itself *)
| CAny               (* [.]: any character but the line feed *)
| CSpace             (* [\s] *)
| CWord              (* [\w] *)
| CDigit.            (* [\d] *)

(** Patterns.  Every repetition of the program's patterns is over a
    one-character matcher: [.*], [\s*], [\s+], [\w+], [\d+] and the lazy
    [.+?]. *)
Inductive regex : Type :=
| Eps
| Chr (cl : cclass)
| Bol                                        (* [^] *)
| Seq (a b : regex)
| Rep (cl : cclass) (min : nat) (greedy : bool)
| Group (n : nat) (r : regex).

Definition cmatch (cl : cclass) (c : ascii) : bool :=
  match cl with
  | CLit x => Ascii.eqb c x
  | CAny => negb (Ascii.eqb c nl)
  | CSpace => is_space c
  | CWord => is_word c
  | CDigit => is_digit c
  end.

(** ** Parsing a pattern string *)

Fixpoint seq_of (rs : list regex) : regex :=
  match rs with
  | [] => Eps
  | [r] => r
  | r :: rs' => Seq r (seq_of rs')
  end.

Record pstate : Type := mkP {
  cur : list regex;                 (* items of the open group, last first *)
  stack : list (nat * list regex);  (* enclosing groups *)
  next : nat;                       (* number of the next group *)
  esc : bool                        (* the previous character was a backslash *)
}.

Definition push (r : regex) (st : pstate) : option pstate :=
  Some (mkP (r :: cur st) (stack st) (next st) false).

Definition quantify (min : nat) (st : pstate) : option pstate :=
  match cur st with
  | Chr cl :: rest => Some (mkP (Rep cl min true :: rest) (stack st) (next st) false)
  | _ => None
  end.

Definition make_lazy (st : pstate) : option pstate :=
  match cur st with
  | Rep cl min true :: rest =>
      Some (mkP (Rep cl min false :: rest) (stack st) (next st) false)
  | _ => None
  end.

Definition pstep (c : ascii) (st : pstate) : option pstate :=
  if esc st then
    if Ascii.eqb c "s" then push (Chr CSpace) st
    else if Ascii.eqb c "w" then push (Chr CWord) st
    else if Ascii.eqb c "d" then push (Chr CDigit) st
    else if is_word c then None
    else push (Chr (CLit c)) st
  else if Ascii.eqb c "\" then Some (mkP (cur st) (stack st) (next st) true)
  else if Ascii.eqb c "." then push (Chr CAny) st
  else if Ascii.eqb c "^" then push Bol st
  else if Ascii.eqb c "(" then
    Some (mkP [] ((next st, cur st) :: stack st) (S (next st)) false)
  else if Ascii.eqb c ")" then
    match stack st with
    | (n, parent) :: stk =>
        Some (mkP (Group n (seq_of (rev (cur st))) :: parent) stk (next st) false)
    | [] => None
    end
  else if Ascii.eqb c "*" then quantify 0 st
  else if Ascii.eqb c "+" then quantify 1 st
  else if Ascii.eqb c "?" then make_lazy st
  else if (Ascii.eqb c "[" || Ascii.eqb c "]" || Ascii.eqb c "{"
           || Ascii.eqb c "}" || Ascii.eqb c "|" || Ascii.eqb c "$")%bool
  then None
  else push (Chr (CLit c)) st.

Fixpoint prun (p : text) (st : pstate) : option pstate :=
  match p with
  | [] => Some st
  | c :: p' =>
      match pstep c st with
      | Some st' => prun p' st'
      | None => None
      end
  end.

(** [parse p] is the pattern of the string [p], when [p] lies in the
    fragment. *)
Definition parse (p : text) : option regex :=
  match prun p (mkP [] [] 1 false) with
  | Some st =>
      match stack st, esc st with
      | [], false => Some (seq_of (rev (cur st)))
      | _, _ => None
      end
  | None => None
  end.

Definition force (o : option regex) : regex :=
  match o with
  | Some r => r
  | None => Eps
  end.

(** ** Matching *)

Definition caps := list (nat * text).

Fixpoint lookup (n : nat) (cs : caps) : option text :=
  match cs with
  | [] => None
  | (m, t) :: cs' => if Nat.eqb m n then Some t else lookup n cs'
  end.

(** The continuation receives the rest of the input, the position reached
    and the groups captured so far. *)
Definition cont := text -> nat -> caps -> option (nat * caps).

(** Greedy repetition: take one more character while the class allows it,
    and give back on failure of what follows. *)
Fixpoint rep_greedy (cl : cclass) (min : nat) (s : text) (pos : nat)
         (cs : caps) (k : cont) : option (nat * caps) :=
  match s with
  | c :: s' =>
      if cmatch cl c then
        match rep_greedy cl (pred min) s' (S pos) cs k with
        | Some r => Some r
        | None => if Nat.eqb min 0 then k s pos cs else None
        end
      else if Nat.eqb min 0 then k s pos cs else None
  | [] => if Nat.eqb min 0 then k s pos cs else None
  end.

(** Lazy repetition: stop as soon as what follows matches. *)
Fixpoint rep_lazy (cl : cclass) (min : nat) (s : text) (pos : nat)
         (cs : caps) (k : cont) : option (nat * caps) :=
  match (if Nat.eqb min 0 then k s pos cs else None) with
  | Some r => Some r
  | None =>
      match s with
      | c :: s' =>
          if cmatch cl c then rep_lazy cl (pred min) s' (S pos) cs k else None
      | [] => None
      end
  end.

Fixpoint rmatch (r : regex) (s : text) (pos : nat) (cs : caps) (k : cont)
  : option (nat * caps) :=
  match r with
  | Eps => k s pos cs
  | Chr cl =>
      match s with
      | c :: s' => if cmatch cl c then k s' (S pos) cs else None
      | [] => None
      end
  | Bol => if Nat.eqb pos 0 then k s pos cs else None
  | Seq a b => rmatch a s pos cs (fun s' p' cs' => rmatch b s' p' cs' k)
  | Rep cl min true => rep_greedy cl min s pos cs k
  | Rep cl min false => rep_lazy cl min s pos cs k
  | Group n a =>
      rmatch a s pos cs
        (fun s' p' cs' => k s' p' ((n, firstn (p' - pos) s) :: cs'))
  end.

(** A match object: [m.start()], [m.end()], [m.group(0)] and the groups. *)
Record mobj : Type := mkM {
  m_start : nat;
  m_end : nat;
  group0 : text;
  groups : caps
}.

(** [m.group(n)] for [n >= 1]; a group that took no part gives [None]. *)
Definition group (m : mobj) (n : nat) : option text := lookup n (groups m).

(** The match of [r] that starts exactly at [pos], [s] being the input from
    [pos] on. *)
Definition match_at (r : regex) (s : text) (pos : nat) : option mobj :=
  match rmatch r s pos [] (fun _ p' cs' => Some (p', cs')) with
  | Some (e, cs) => Some (mkM pos e (firstn (e - pos) s) cs)
  | None => None
  end.

(** [re.match(r, s)] *)
Definition match_ (r : regex) (s : text) : option mobj := match_at r s 0.

Fixpoint search_from (r : regex) (s : text) (pos : nat) : option mobj :=
  match match_at r s pos with
  | Some m => Some m
  | None =>
      match s with
      | [] => None
      | _ :: s' => search_from r s' (S pos)
      end
  end.

(** [re.search(r, s)]: the match at the leftmost position that has one. *)
Definition search (r : regex) (s : text) : option mobj := search_from r s 0.

(** [re.finditer(r, s)]: matches from left to right that do not overlap.
    [skip] counts the positions inside the last match that remain to be
    passed over; after an empty match the scan resumes one character on.
    (No pattern of the program matches the empty string.) *)
Fixpoint finditer_from (r : regex) (s : text) (pos skip : nat) : list mobj :=
  match skip with
  | S k =>
      match s with
      | [] => []
      | _ :: s' => finditer_from r s' (S pos) k
      end
  | O =>
      match match_at r s pos with
      | Some m =>
          m :: match s with
               | [] => []
               | _ :: s' => finditer_from r s' (S pos) (m_end m - pos - 1)
               end
      | None =>
          match s with
          | [] => []
          | _ :: s' => finditer_from r s' (S pos) 0
          end
      end
  end.

Definition finditer (r : regex) (s : text) : list mobj := finditer_from r s 0 0.

(** ** Replacement templates *)

Inductive titem : Type :=
| TLit (c : ascii)
| TGroup (n : nat).      (* [\n] *)

Definition digit_val (c : ascii) : nat := N.to_nat (code c) - 48.

Fixpoint parse_template (t : text) : option (list titem) :=
  match t with
  | [] => Some []
  | c :: t' =>
      if Ascii.eqb c "\" then
        match t' with
        | d :: t'' =>
            if is_digit d then
              match parse_template t'' with
              | Some r => Some (TGroup (digit_val d) :: r)
              | None => None
              end
            else None
        | [] => None
        end
      else
        match parse_template t' with
        | Some r => Some (TLit c :: r)
        | None => None
        end
  end.

Definition force_template (o : option (list titem)) : list titem :=
  match o with
  | Some t => t
  | None => []
  end.

Definition expand_item (cs : caps) (i : titem) : text :=
  match i with
  | TLit c => [c]
  | TGroup n =>
      match lookup n cs with
      | Some t => t
      | None => []
      end
  end.

(** [m.expand(template)] *)
Definition expand (tmpl : list titem) (cs : caps) : text :=
  concat (map (expand_item cs) tmpl).

(** [re.sub(r, template, s)] *)
Fixpoint sub_from (r : regex) (tmpl : list titem) (s : text) (pos skip : nat)
  : text :=
  match skip with
  | S k =>
      match s with
      | [] => []
      | _ :: s' => sub_from r tmpl s' (S pos) k
      end
  | O =>
      match match_at r s pos with
      | Some m =>
          expand tmpl (groups m) ++
          match s with
          | [] => []
          | c :: s' =>
              (if Nat.eqb (m_end m) pos then [c] else []) ++
              sub_from r tmpl s' (S pos) (m_end m - pos - 1)
          end
      | None =>
          match s with
          | [] => []
          | c :: s' => c :: sub_from r tmpl s' (S pos) 0
          end
      end
  end.

Definition sub (r : regex) (tmpl : list titem) (s : text) : text :=
  sub_from r tmpl s 0 0.

End Re.

(* ================================================================== *)
(** * The file system *)
(* ================================================================== *)

Module FS.

(** Paths to the characters of the file, [None] where there is no file.
    A path is the name of one file: links and other names of the same file
    are outside the model, and so are files that exist but cannot be opened
    or decoded. *)
Definition t := text -> option text.

Definition empty : t := fun _ => None.

(** [open(path, 'r')] followed by [read()]: the characters of the file with
    their line endings translated. *)
Definition read (fs : t) (path : text) : result text :=
  match fs path with
  | Some c => Ok (universal_newlines c)
  | None => Raise FileNotFoundError
  end.

(** [open(path, 'w')] followed by a write of [c] that succeeds: the line
    separator being the line feed, the characters are stored as they are. *)
Definition write (fs : t) (path c : text) : t :=
  fun p => if text_eqb p path then Some c else fs p.

End FS.

(* ================================================================== *)
(** * The assistant *)
(* ================================================================== *)

(** The issue dictionaries built by the [check_*] methods. *)
Module Issue.
Record t : Type := mk {
  file : text;
  line : Z;
  type : text;
  message : text;
  suggestion : text
}.
End Issue.

(** The fix dictionaries built by the [fix_*] methods; the key
    ['replacement'] may be absent. *)
Module Fix.
Record t : Type := mk {
  file : text;
  line : Z;
  original : text;
  replacement : option text;
  message : text
}.
End Fix.

Module XcodeAssistant.

Import Re.

Definition pattern (p : text) : regex := force (parse p).
Definition template (t : text) : list titem := force_template (parse_template t).

(** Line of a match: [content[:match.start()].count('\n') + 1]. *)
Definition line_of (content : text) (m : mobj) : Z :=
  Z.of_nat (count nl (firstn (m_start m) content)) + 1.

(** [m.group(1)] where group 1 takes part in every match of the pattern. *)
Definition group1 (m : mobj) : text :=
  match group m 1 with
  | Some t => t
  | None => []
  end.

(** ** Detection *)

(** [r'VStack\(spacing:.*\)'] *)
Definition vstack_pattern : regex :=
  Eval vm_compute in pattern (L "VStack\(spacing:.*\)").

(** [r'Text\(".*\\\(.*\?.*:.*\).*"\)'] *)
Definition text_interp_source : text :=
  L "Text\(" ++ [dquote] ++ L ".*\\\(.*\?.*:.*\).*" ++ [dquote] ++ L "\)".

Definition text_interp_pattern : regex :=
  Eval vm_compute in pattern text_interp_source.

Definition vstack_issue (content file_path : text) (m : mobj) : Issue.t :=
  Issue.mk file_path (line_of content m) (L "buildExpression")
    (L "Potential buildExpression issue with VStack spacing parameter")
    (L "Replace with VStack {} and explicit Spacer().frame(height: X) elements").

Definition text_interp_issue (content file_path : text) (m : mobj) : Issue.t :=
  Issue.mk file_path (line_of content m) (L "buildExpression")
    (L "Potential buildExpression issue with conditional expression in Text interpolation")
    (L "Extract the conditional expression to a separate variable before using in Text").

Definition check_build_expression (content file_path : text) : list Issue.t :=
  map (vstack_issue content file_path) (finditer vstack_pattern content)
  ++ map (text_interp_issue content file_path)
         (finditer text_interp_pattern content).

(** The detection catalog of deprecated APIs, as written in the source. *)
Definition deprecated_apis_source : list (text * text) :=
  [ (L "AVAsset\(url:", L "AVURLAsset(url:");
    (L "\.duration\s", L "asset.load(.duration)");
    (L "\.tracks\(withMediaType:", L "asset.loadTracks(withMediaType:");
    (L "\.nominalFrameRate", L "videoTrack.load(.nominalFrameRate)");
    (L "\.naturalSize", L "videoTrack.load(.naturalSize)");
    (L "copyCGImage\(at:", L "generateCGImageAsynchronously(for:");
    (L "init\(url:\)", L "AVURLAsset(url:)") ].

Definition deprecated_apis : list (regex * text) :=
  Eval vm_compute in map (fun pr => (pattern (fst pr), snd pr)) deprecated_apis_source.

Definition deprecated_issue (content file_path replacement : text) (m : mobj)
  : Issue.t :=
  Issue.mk file_path (line_of content m) (L "deprecated_api")
    (L "Potential deprecated API usage: " ++ group0 m)
    (L "Consider using " ++ replacement ++ L " instead").

Definition check_deprecated_apis (content file_path : text) : list Issue.t :=
  flat_map (fun pr =>
              map (deprecated_issue content file_path (snd pr))
                  (finditer (fst pr) content))
           deprecated_apis.

(** [r'class\s+(\w+)'] *)
Definition class_pattern : regex :=
  Eval vm_compute in pattern (L "class\s+(\w+)").

Definition sendable_issue (content file_path : text) (class_match : mobj)
  : Issue.t :=
  let class_name := group1 class_match in
  Issue.mk file_path (line_of content class_match) (L "sendable_conformance")
    (L "Class " ++ class_name
       ++ L " might need Sendable conformance for use in async contexts")
    (L "Add " ++ [dquote] ++ L ": @unchecked Sendable" ++ [dquote]
       ++ L " to class definition or make class thread-safe").

Definition check_sendable_conformance (content file_path : text)
  : list Issue.t :=
  flat_map (fun class_match =>
              if (contains (L "Task") content || contains (L "async") content)%bool
              then
                if (negb (contains (L ": Sendable") content)
                    && negb (contains (L "@unchecked Sendable") content))%bool
                then [sendable_issue content file_path class_match]
                else []
              else [])
           (finditer class_pattern content).

(** The three detectors on one content, in the order of [analyze_file]. *)
Definition detect (content file_path : text) : list Issue.t :=
  check_build_expression content file_path
  ++ check_deprecated_apis content file_path
  ++ check_sendable_conformance content file_path.

Definition analyze_file (fs : FS.t) (file_path : text) : result (list Issue.t) :=
  content <- FS.read fs file_path ;;
  Ok (detect content file_path).

(** ** Fix synthesis *)

(** [r'spacing:\s*(\d+)'] *)
Definition spacing_pattern : regex :=
  Eval vm_compute in pattern (L "spacing:\s*(\d+)").

(** [r'^\s*'] *)
Definition indent_pattern : regex :=
  Eval vm_compute in pattern (L "^\s*").

(** [r'\\((.+?\?.+?:.+?)\\)'] *)
Definition conditional_pattern : regex :=
  Eval vm_compute in pattern (L "\\((.+?\?.+?:.+?)\\)").

(** [re.match(r'^\s*', line).group(0)] *)
Definition indent_of (line : text) : result text :=
  match match_ indent_pattern line with
  | Some m => Ok (group0 m)
  | None => Raise AttributeError
  end.

Definition fix_build_expression (fs : FS.t) (issue : Issue.t) : result Fix.t :=
  let file_path := Issue.file issue in
  content <- FS.read fs file_path ;;
  let lines := readlines content in
  let line_num := (Issue.line issue - 1)%Z in
  line <- getitem lines line_num ;;
  let manual :=
    Ok (Fix.mk file_path (line_num + 1) (strip line) None
          (L "Manual fix required for this buildExpression issue")) in
  if contains (L "VStack(spacing:") line then
    let spacing :=
      match search spacing_pattern line with
      | Some spacing_match => group1 spacing_match
      | None => L "20"
      end in
    indent <- indent_of line ;;
    let new_line :=
      (indent ++ L "VStack {" ++ [nl])
      ++ (indent ++ L "    Spacer().frame(height: " ++ spacing ++ L ")" ++ [nl]) in
    Ok (Fix.mk file_path (line_num + 1) (strip line) (Some (strip new_line))
          (L "Replace VStack(spacing: " ++ spacing
             ++ L ") with VStack and explicit Spacer"))
  else if (contains (L "Text(") line && contains (L "\(") line
           && contains (L "?") line)%bool then
    match search conditional_pattern line with
    | Some conditional_match =>
        let conditional_expr := group1 conditional_match in
        indent <- indent_of line ;;
        let var_name := L "computed_value" in
        let new_lines :=
          indent ++ L "let " ++ var_name ++ L " = " ++ conditional_expr ++ [nl] in
        let modified_text :=
          replace (L "\(" ++ conditional_expr ++ L ")")
                  (L "\(" ++ var_name ++ L ")") line in
        let new_lines := new_lines ++ modified_text in
        Ok (Fix.mk file_path (line_num + 1) (strip line) (Some (strip new_lines))
              (L "Extract conditional expression to a variable before using in Text"))
    | None => manual
    end
  else manual.

(** The fix table of deprecated APIs, in the order of the dictionary. *)
Definition api_replacements_source : list (text * text) :=
  [ (L "AVAsset\(url: (.+?)\)", L "AVURLAsset(url: \1)");
    (L "(\w+)\.duration", L "try await \1.load(.duration)");
    (L "(\w+)\.tracks\(withMediaType: (.+?)\)",
     L "try await \1.loadTracks(withMediaType: \2)");
    (L "(\w+)\.nominalFrameRate", L "try await \1.load(.nominalFrameRate)");
    (L "(\w+)\.naturalSize", L "try await \1.load(.naturalSize)");
    (L "(\w+)\.copyCGImage\(at: (.+?), actualTime: (.+?)\)",
     L "\1.generateCGImageAsynchronously(for: \2) { cgImage, actualTime, error in") ].

Definition api_replacements : list (regex * list titem) :=
  Eval vm_compute in
    map (fun pr => (pattern (fst pr), template (snd pr))) api_replacements_source.

(** The loop over the fix table: the first pattern found in the line is
    substituted. *)
Fixpoint first_replacement (table : list (regex * list titem)) (line : text)
  : option text :=
  match table with
  | [] => None
  | (pat, repl) :: table' =>
      match search pat line with
      | Some _ => Some (sub pat repl line)
      | None => first_replacement table' line
      end
  end.

Definition fix_deprecated_api (fs : FS.t) (issue : Issue.t) : result Fix.t :=
  let file_path := Issue.file issue in
  content <- FS.read fs file_path ;;
  let lines := splitlines content in
  let line_num := (Issue.line issue - 1)%Z in
  line <- getitem lines line_num ;;
  match first_replacement api_replacements line with
  | Some new_line =>
      Ok (Fix.mk file_path (line_num + 1) (strip line) (Some (strip new_line))
            (L "Replace deprecated API with modern equivalent"))
  | None =>
      Ok (Fix.mk file_path (line_num + 1) (strip line) None
            (L "Manual fix required for this deprecated API"))
  end.

Definition fix_sendable_conformance (fs : FS.t) (issue : Issue.t)
  : result Fix.t :=
  let file_path := Issue.file issue in
  content <- FS.read fs file_path ;;
  let lines := readlines content in
  let line_num := (Issue.line issue - 1)%Z in
  line <- getitem lines line_num ;;
  match search class_pattern line with
  | Some class_match =>
      let class_name := group1 class_match in
      let new_line :=
        if contains (L ":") line
        then replace (L ":") (L ": @unchecked Sendable,") line
        else replace class_name (class_name ++ L ": @unchecked Sendable") line in
      Ok (Fix.mk file_path (line_num + 1) (strip line) (Some (strip new_line))
            (L "Add @unchecked Sendable conformance to " ++ class_name))
  | None =>
      Ok (Fix.mk file_path (line_num + 1) (strip line) None
            (L "Manual fix required for Sendable conformance"))
  end.

(** What [generate_fix] returns: a fix dictionary or a string. *)
Inductive value : Type :=
| FixDict (f : Fix.t)
| Str (s : text).

Definition generate_fix (fs : FS.t) (issue : Issue.t) : result value :=
  if text_eqb (Issue.type issue) (L "buildExpression") then
    f <- fix_build_expression fs issue ;; Ok (FixDict f)
  else if text_eqb (Issue.type issue) (L "deprecated_api") then
    f <- fix_deprecated_api fs issue ;; Ok (FixDict f)
  else if text_eqb (Issue.type issue) (L "sendable_conformance") then
    f <- fix_sendable_conformance fs issue ;; Ok (FixDict f)
  else
    Ok (Str (L "No automatic fix available for issue type: " ++ Issue.type issue)).

(** The state of an assistant. *)
Record t : Type := mk {
  project_path : text;
  issues : list Issue.t
}.

(** What [suggest_fixes] returns: one result or the list of all. *)
Inductive suggestions : Type :=
| One (v : value)
| All (vs : list value).

Fixpoint generate_fixes (fs : FS.t) (l : list Issue.t) : result (list value) :=
  match l with
  | [] => Ok []
  | issue :: l' =>
      v <- generate_fix fs issue ;;
      vs <- generate_fixes fs l' ;;
      Ok (v :: vs)
  end.

Definition suggest_fixes (self : t) (fs : FS.t) (issue_index : option Z)
  : result suggestions :=
  match issue_index with
  | Some i =>
      if ((0 <=? i)%Z && (i <? Z.of_nat (length (issues self)))%Z)%bool then
        issue <- getitem (issues self) i ;;
        v <- generate_fix fs issue ;;
        Ok (One v)
      else Ok (One (Str (L "Invalid issue index")))
  | None =>
      vs <- generate_fixes fs (issues self) ;;
      Ok (All vs)
  end.

(** ** Application *)

(** [apply_fix] returns its status string, or raises, and leaves a file
    system. *)
Definition apply_fix (fs : FS.t) (fix_ : Fix.t) : result text * FS.t :=
  let file_path := Fix.file fix_ in
  let line_num := (Fix.line fix_ - 1)%Z in
  match FS.read fs file_path with
  | Raise e => (Raise e, fs)
  | Ok content =>
      let lines := readlines content in
      match Fix.replacement fix_ with
      | Some replacement =>
          match setitem lines line_num (replacement ++ [nl]) with
          | Raise e => (Raise e, fs)
          | Ok lines' =>
              (Ok (L "Applied fix to " ++ file_path ++ L " line "
                     ++ str_of_int (Fix.line fix_)),
               FS.write fs file_path (writelines lines'))
          end
      | None =>
          (Ok (L "No automatic fix available for " ++ file_path ++ L " line "
                 ++ str_of_int (Fix.line fix_)),
           fs)
      end
  end.

(** ** Discovery and the project scan *)

(** What [os.walk] yields, in its order: for each directory its path, the
    names of its sub-directories and the names of its files. *)
Definition walk := list (text * list text * list text).

Definition find_swift_files (tree : walk) : list text :=
  flat_map (fun entry =>
              let '(root, _, files) := entry in
              map (path_join root) (filter (endswith (L ".swift")) files))
           tree.

(** The loop of [analyze_project]: [self.issues] is extended file after
    file; an exception leaves the issues of the files before it. *)
Fixpoint analyze_files (fs : FS.t) (swift_files : list text) (self : t)
  : result (list Issue.t) * t :=
  match swift_files with
  | [] => (Ok (issues self), self)
  | file :: rest =>
      match analyze_file fs file with
      | Ok file_issues =>
          analyze_files fs rest (mk (project_path self) (issues self ++ file_issues))
      | Raise e => (Raise e, self)
      end
  end.

Definition analyze_project (self : t) (fs : FS.t) (tree : walk)
  : result (list Issue.t) * t :=
  analyze_files fs (find_swift_files tree) self.

End XcodeAssistant.

Import Re XcodeAssistant.

(* ================================================================== *)
(** * Vocabulary of the statements *)
(* ================================================================== *)

(** A text with no white space at either end. *)
Definition stripped (t : text) : Prop :=
  (forall c, hd_error t = Some c -> is_space c = false) /\
  (forall c, hd_error (rev t) = Some c -> is_space c = false).

(** A line with its line feed, and a last line without one. *)
Definition line_full (l : text) : Prop :=
  exists b, l = b ++ [nl] /\ count nl b = 0.

Definition line_last (l : text) : Prop := l <> [] /\ count nl l = 0.

Fixpoint lines_ok (ls : list text) : Prop :=
  match ls with
  | [] => True
  | l :: ls' =>
      match ls' with
      | [] => line_full l \/ line_last l
      | _ :: _ => line_full l /\ lines_ok ls'
      end
  end.

(** The lines [apply_fix] writes: line [n] (from 0) replaced by the
    replacement and a line feed. *)
Definition overwrite (lines : list text) (n : nat) (r : text) : list text :=
  firstn n lines ++ (r ++ [nl]) :: skipn (S n) lines.

(** The final continuation of [match_at]. *)
Definition k_done : cont := fun _ p cs => Some (p, cs).

Fixpoint group_ids (r : regex) : list nat :=
  match r with
  | Seq a b => group_ids a ++ group_ids b
  | Group n a => n :: group_ids a
  | _ => []
  end.

Definition is_some {A : Type} (o : option A) : bool :=
  match o with
  | Some _ => true
  | None => false
  end.

(** The lines a synthesizer reads for an issue type: [fix_deprecated_api]
    uses [splitlines], the other two [readlines]. *)
Definition lines_read (ty content : text) : list text :=
  if text_eqb ty (L "deprecated_api") then splitlines content
  else readlines content.

(** The tests a synthesizer makes on the line it reads before it builds a
    replacement. *)
Definition fix_rule_matches (ty line : text) : bool :=
  if text_eqb ty (L "buildExpression") then
    (contains (L "VStack(spacing:") line
     || (contains (L "Text(") line && contains (L "\(") line
         && contains (L "?") line && is_some (search conditional_pattern line)))%bool
  else if text_eqb ty (L "deprecated_api") then
    existsb (fun pr => is_some (search (fst pr) line)) api_replacements
  else
    is_some (search class_pattern line).

Definition manual_message (ty : text) : text :=
  if text_eqb ty (L "buildExpression")
  then L "Manual fix required for this buildExpression issue"
  else if text_eqb ty (L "deprecated_api")
  then L "Manual fix required for this deprecated API"
  else L "Manual fix required for Sendable conformance".

(** The literal pieces of a template, between its group references. *)
Fixpoint runs (t : list titem) (cur : text) : list text :=
  match t with
  | [] => [rev cur]
  | TLit c :: t' => runs t' (c :: cur)
  | TGroup _ :: t' => rev cur :: runs t' []
  end.

Definition literal_runs (t : list titem) : list text := runs t [].

(** The replacement of the fix a synthesizer returned, if any. *)
Definition replacement_of (r : result Fix.t) : option text :=
  match r with
  | Ok f => Fix.replacement f
  | Raise _ => None
  end.

Definition annotation : text := L "@unchecked Sendable".

(** The first line the fix writes. *)
Definition vstack_line : text := L "VStack {" ++ [nl].

(** A pattern that matches at no position of [vstack_line], whatever comes
    after the line. *)
Definition absent_from_vstack_line (pat : regex) : Prop :=
  forall j rest pos,
    j < length vstack_line ->
    match_at pat (skipn j (vstack_line ++ rest)) pos = None.

(* ================================================================== *)
(** * Sample files, issues and fixes *)
(* ================================================================== *)

Definition stale_file : text := L "stale.swift".
Definition stale_fs : FS.t :=
  FS.write FS.empty stale_file (L "let x = 1" ++ [nl]).
Definition stale_issue (ty : text) : Issue.t :=
  Issue.mk stale_file 5 ty (L "message") (L "suggestion").


Definition two_fixes_file : text := L "Clip.swift".
Definition two_fixes_fs : FS.t :=
  FS.write FS.empty two_fixes_file
    (L "let x = a.duration + b.naturalSize" ++ [nl]).
Definition two_fixes_issue : Issue.t :=
  Issue.mk two_fixes_file 1 (L "deprecated_api")
    (L "Potential deprecated API usage: .naturalSize")
    (L "Consider using videoTrack.load(.naturalSize) instead").

Definition natural_size_fix : regex * list titem :=
  nth 4 api_replacements (Eps, []).

Definition duration_file : text := L "Asset.swift".
Definition duration_content : text := L "let d = asset.duration" ++ [nl].
Definition duration_fs : FS.t := FS.write FS.empty duration_file duration_content.
Definition duration_issue : Issue.t :=
  Issue.mk duration_file 1 (L "deprecated_api")
    (L "Potential deprecated API usage: .duration" ++ [nl])
    (L "Consider using asset.load(.duration) instead").

Definition sendable_file : text := L "Cache.swift".
Definition sendable_content : text :=
  L "import Foundation" ++ [nl]
  ++ L "final class Cache: NSObject {" ++ [nl]
  ++ L "  func load() async {}" ++ [nl]
  ++ L "}" ++ [nl].
Definition sendable_fs : FS.t := FS.write FS.empty sendable_file sendable_content.
Definition sendable_example_issue : Issue.t :=
  Issue.mk sendable_file 2 (L "sendable_conformance")
    (L "Class Cache might need Sendable conformance for use in async contexts")
    (L "Add " ++ [dquote] ++ L ": @unchecked Sendable" ++ [dquote]
       ++ L " to class definition or make class thread-safe").

Definition frame_rate_file : text := L "Track.swift".
Definition frame_rate_content : text := L "let r = track.nominalFrameRate" ++ [nl].
Definition frame_rate_fs : FS.t :=
  FS.write FS.empty frame_rate_file frame_rate_content.
Definition frame_rate_issue : Issue.t :=
  Issue.mk frame_rate_file 1 (L "deprecated_api")
    (L "Potential deprecated API usage: .nominalFrameRate")
    (L "Consider using videoTrack.load(.nominalFrameRate) instead").
Definition frame_rate_fix : Fix.t :=
  Fix.mk frame_rate_file 1 (L "let r = track.nominalFrameRate")
    (Some (L "let r = try await track.load(.nominalFrameRate)"))
    (L "Replace deprecated API with modern equivalent").
Definition frame_rate_fixed : text :=
  L "let r = try await track.load(.nominalFrameRate)" ++ [nl].

Definition scenario_file : text := L "ContentView.swift".

Definition scenario_content : text :=
  L "import SwiftUI" ++ [nl]
  ++ [nl]
  ++ L "struct ContentView: View {" ++ [nl]
  ++ L "  var body: some View {" ++ [nl]
  ++ L "    VStack(spacing: 12) {" ++ [nl]
  ++ L "      Image(systemName: name)" ++ [nl]
  ++ L "      Divider()" ++ [nl]
  ++ L "    }" ++ [nl]
  ++ L "  }" ++ [nl]
  ++ L "}" ++ [nl].

Definition scenario_fs : FS.t := FS.write FS.empty scenario_file scenario_content.

Definition scenario_issue : Issue.t :=
  Issue.mk scenario_file 5 (L "buildExpression")
    (L "Potential buildExpression issue with VStack spacing parameter")
    (L "Replace with VStack {} and explicit Spacer().frame(height: X) elements").

Definition scenario_fix : Fix.t :=
  Fix.mk scenario_file 5 (L "VStack(spacing: 12) {")
    (Some (L "VStack {" ++ [nl] ++ L "        Spacer().frame(height: 12)"))
    (L "Replace VStack(spacing: 12) with VStack and explicit Spacer").

Definition scenario_fixed : text :=
  L "import SwiftUI" ++ [nl]
  ++ [nl]
  ++ L "struct ContentView: View {" ++ [nl]
  ++ L "  var body: some View {" ++ [nl]
  ++ L "VStack {" ++ [nl]
  ++ L "        Spacer().frame(height: 12)" ++ [nl]
  ++ L "      Image(systemName: name)" ++ [nl]
  ++ L "      Divider()" ++ [nl]
  ++ L "    }" ++ [nl]
  ++ L "  }" ++ [nl]
  ++ L "}" ++ [nl].

Definition plain_issue : Issue.t :=
  Issue.mk stale_file 1 (L "buildExpression") (L "message") (L "suggestion").

Definition late_fix : Fix.t :=
  Fix.mk stale_file 5 (L "let y = 2") (Some (L "let z = 3")) (L "message").

Definition unknown_issue : Issue.t :=
  Issue.mk (L "nowhere.swift") 1 (L "style") (L "message") (L "suggestion").

Definition missing_issue : Issue.t :=
  Issue.mk (L "nowhere.swift") 1 (L "deprecated_api") (L "message") (L "suggestion").

Definition missing_fix : Fix.t :=
  Fix.mk (L "nowhere.swift") 1 (L "let y = 2") None (L "message").

Definition two_issue_assistant : XcodeAssistant.t :=
  XcodeAssistant.mk (L "project") [frame_rate_issue; unknown_issue].

Definition annotated_content : text :=
  L "final class Cache: @unchecked Sendable {" ++ [nl]
  ++ L "  func load() async {}" ++ [nl]
  ++ L "}" ++ [nl]
  ++ L "class Other {}" ++ [nl].

Definition plain_content : text :=
  L "import Foundation" ++ [nl] ++ L "let x = 1" ++ [nl].

Definition sample_tree : walk :=
  [ (L "App", [L "Views"], [L "main.swift"; L "README.md"]);
    (L "App/Views", [], [L "ContentView.swift"; L "notes.txt"; L "swift"]) ].

Definition tree_fs : FS.t :=
  FS.write (FS.write FS.empty (L "App/main.swift") frame_rate_content)
           (L "App/Views/ContentView.swift") scenario_content.

Definition half_tree_fs : FS.t :=
  FS.write FS.empty (L "App/main.swift") frame_rate_content.

Definition fresh_assistant : XcodeAssistant.t := XcodeAssistant.mk (L "App") [].

(** The literal characters a pattern begins with. *)
Fixpoint lit_prefix (r : regex) : text :=
  match r with
  | Chr (CLit c) => [c]
  | Seq (Chr (CLit c)) rest => c :: lit_prefix rest
  | _ => []
  end.

(** All the detection patterns. *)
Definition detection_patterns : list regex :=
  vstack_pattern :: text_interp_pattern :: map fst deprecated_apis ++ [class_pattern].

(** The issues [analyze_file] finds in a file, none for a missing file. *)
Definition found_in (fs : FS.t) (p : text) : list Issue.t :=
  match FS.read fs p with
  | Ok content => detect content p
  | Raise _ => []
  end.

Definition backslash : ascii := "\"%char.

Definition text_interp_content : text :=
  L "    Text(" ++ [dquote] ++ L "\(done ? 1 : 0) items" ++ [dquote] ++ L ")" ++ [nl].
Definition text_interp_fs : FS.t :=
  FS.write FS.empty (L "Label.swift") text_interp_content.
Definition text_interp_example_issue : Issue.t :=
  text_interp_issue text_interp_content (L "Label.swift")
    (mkM 4 33 (skipn 4 (firstn 33 text_interp_content)) []).

Definition two_class_content : text :=
  L "class Cache {" ++ [nl]
  ++ L "  func load() async {}" ++ [nl]
  ++ L "}" ++ [nl]
  ++ L "class Store {}" ++ [nl].
Definition two_class_fs : FS.t :=
  FS.write FS.empty (L "Model.swift") two_class_content.
Definition two_class_issue : Issue.t :=
  sendable_issue two_class_content (L "Model.swift")
    (mkM 0 11 (L "class Cache") [(1, L "Cache")]).

Definition single_line_fix : Fix.t :=
  Fix.mk scenario_file 5 (L "VStack(spacing: 12) {") (Some (L "    VStack {"))
    (L "message").

(** A line without its final line feed. *)
Fixpoint chomp (l : text) : text :=
  match l with
  | [] => []
  | c :: l' =>
      match l' with
      | [] => if Ascii.eqb c nl then [] else [c]
      | _ :: _ => c :: chomp l'
      end
  end.

(** The content has no other line boundary than the line feed. *)
Definition only_line_feeds (content : text) : bool :=
  forallb (fun c => (negb (is_linebreak c) || Ascii.eqb c nl)%bool) content.

Definition stale_assistant : XcodeAssistant.t :=
  XcodeAssistant.mk (L "project") [plain_issue; stale_issue (L "deprecated_api")].

(** A file with CR LF line endings. *)
Definition crlf_file : text := L "Legacy.swift".
Definition crlf_fs : FS.t :=
  FS.write FS.empty crlf_file (L "a" ++ [cr; nl] ++ L "b" ++ [cr; nl]).
Definition crlf_fix : Fix.t :=
  Fix.mk crlf_file 1 (L "a") (Some (L "X")) (L "message").

(** The white space a line begins with. *)
Definition leading_space (line : text) : text :=
  firstn (length line - length (lstrip line)) line.

(** The height the fix of the container-with-spacing idiom writes: group 1
    of [re.search(r'spacing:\s*(\d+)', line)], or [20]. *)
Definition spacing_of (line : text) : text :=
  match search spacing_pattern line with
  | Some spacing_match => group1 spacing_match
  | None => L "20"
  end.

(** The groups a template refers to. *)
Fixpoint template_groups (t : list titem) : list nat :=
  match t with
  | [] => []
  | TLit _ :: t' => template_groups t'
  | TGroup n :: t' => n :: template_groups t'
  end.

Definition copy_image_fix : regex * list titem :=
  nth 5 api_replacements (Eps, []).
Definition copy_image_fs : FS.t :=
  FS.write FS.empty (L "Thumb.swift")
    (L "let i = try g.copyCGImage(at: t, actualTime: nil)" ++ [nl]).
Definition copy_image_issue : Issue.t :=
  Issue.mk (L "Thumb.swift") 1 (L "deprecated_api")
    (L "Potential deprecated API usage: copyCGImage(at:")
    (L "Consider using generateCGImageAsynchronously(for: instead").


(** A declaration split over two lines. *)
Definition split_class_file : text := L "Split.swift".
Definition split_class_content : text :=
  L "class" ++ [nl]
  ++ L "  Foo {" ++ [nl]
  ++ L "  func f() async {}" ++ [nl]
  ++ L "}" ++ [nl].
Definition split_class_fs : FS.t :=
  FS.write FS.empty split_class_file split_class_content.
Definition split_class_issue : Issue.t :=
  Issue.mk split_class_file 1 (L "sendable_conformance")
    (L "Class Foo might need Sendable conformance for use in async contexts")
    (L "Add " ++ [dquote] ++ L ": @unchecked Sendable" ++ [dquote]
       ++ L " to class definition or make class thread-safe").

(** Two declarations on one line. *)
Definition same_line_file : text := L "Pair.swift".
Definition same_line_content : text :=
  L "class A {}; class B {}" ++ [nl]
  ++ L "func f() async {}" ++ [nl].
Definition same_line_fs : FS.t :=
  FS.write FS.empty same_line_file same_line_content.

(** A fix whose replacement holds a carriage return. *)
Definition cr_fix : Fix.t :=
  Fix.mk stale_file 1 (L "let x = 1") (Some (L "x" ++ [cr] ++ L "y")) (L "message").

(* ================================================================== *)
(** * The patterns of the source lie in the parsed fragment *)
(* ================================================================== *)

Example splitlines_example :
  splitlines (L "a" ++ [cr; nl] ++ L "b" ++ [cr] ++ L "c" ++ [nl; nl] ++ L "d")
  = [L "a"; L "b"; L "c"; L ""; L "d"].
Proof. reflexivity. Qed.

Example universal_newlines_example :
  universal_newlines
    (L "a" ++ [cr; nl] ++ L "b" ++ [cr] ++ L "c" ++ [nl; cr; cr; nl] ++ L "d" ++ [cr])
  = L "a" ++ [nl] ++ L "b" ++ [nl] ++ L "c" ++ [nl; nl; nl] ++ L "d" ++ [nl] /\
  readlines (universal_newlines (L "x" ++ [cr] ++ L "y" ++ [nl]))
  = [L "x" ++ [nl]; L "y" ++ [nl]].
Proof. split; reflexivity. Qed.

Example readlines_example :
  readlines (L "a" ++ [nl; nl] ++ L "b") = [L "a" ++ [nl]; [nl]; L "b"].
Proof. reflexivity. Qed.

Example replace_example :
  replace (L "s") (L "s: X") (L "class s") = L "clas: Xs: X s: X" /\
  replace (L "") (L "-") (L "abc") = L "-a-b-c-".
Proof. split; reflexivity. Qed.

Example sub_example :
  sub (pattern (L "(\w+)\.duration")) (template (L "try await \1.load(.duration)"))
      (L "let d = asset.duration + b.duration")
  = L "let d = try await asset.load(.duration) + try await b.load(.duration)".
Proof. vm_compute. reflexivity. Qed.

Example parse_vstack_pattern :
  parse (L "VStack\(spacing:.*\)") = Some vstack_pattern.
Proof. reflexivity. Qed.

Example parse_text_interp_pattern :
  parse text_interp_source = Some text_interp_pattern.
Proof. reflexivity. Qed.

Example parse_class_pattern :
  parse (L "class\s+(\w+)") = Some class_pattern.
Proof. reflexivity. Qed.

Example parse_spacing_pattern :
  parse (L "spacing:\s*(\d+)") = Some spacing_pattern.
Proof. reflexivity. Qed.

Example parse_indent_pattern : parse (L "^\s*") = Some indent_pattern.
Proof. reflexivity. Qed.

Example parse_conditional_pattern :
  parse (L "\\((.+?\?.+?:.+?)\\)") = Some conditional_pattern.
Proof. reflexivity. Qed.

Example parse_deprecated_apis :
  map (fun pr => parse (fst pr)) deprecated_apis_source
  = map (fun pr => Some (fst pr)) deprecated_apis.
Proof. reflexivity. Qed.

Example parse_api_replacements :
  map (fun pr => (parse (fst pr), parse_template (snd pr))) api_replacements_source
  = map (fun pr => (Some (fst pr), Some (snd pr))) api_replacements.
Proof. reflexivity. Qed.

(* ================================================================== *)
(** * Python lists *)
(* ================================================================== *)

Lemma norm_index_inside (len : nat) (i : Z) :
  (0 <= i < Z.of_nat len)%Z -> norm_index len i = Some (Z.to_nat i).
Proof.
  intros [H0 H1]. unfold norm_index.
  destruct (Z.leb_spec 0 i); [|lia].
  destruct (Z.ltb_spec i (Z.of_nat len)); [reflexivity|lia].
Qed.

Lemma norm_index_above (len : nat) (i : Z) :
  (Z.of_nat len <= i)%Z -> norm_index len i = None.
Proof.
  intros H. unfold norm_index.
  destruct (Z.leb_spec 0 i); [|lia].
  destruct (Z.ltb_spec i (Z.of_nat len)); [lia|reflexivity].
Qed.

Lemma norm_index_bound (len : nat) (i : Z) (n : nat) :
  norm_index len i = Some n -> n < len.
Proof.
  unfold norm_index.
  destruct (Z.leb_spec 0 i).
  - destruct (Z.ltb_spec i (Z.of_nat len)); [|discriminate].
    intros E; injection E as <-. lia.
  - destruct (Z.leb_spec (- Z.of_nat len) i); [|discriminate].
    intros E; injection E as <-. lia.
Qed.

Lemma getitem_above {A : Type} (l : list A) (i : Z) :
  (Z.of_nat (length l) <= i)%Z -> getitem l i = Raise IndexError.
Proof. intros H. unfold getitem. now rewrite norm_index_above. Qed.

Lemma getitem_inside {A : Type} (l : list A) (i : Z) (a : A) :
  (0 <= i)%Z -> nth_error l (Z.to_nat i) = Some a -> getitem l i = Ok a.
Proof.
  intros H0 Hn. unfold getitem.
  assert (Z.to_nat i < length l) by (apply nth_error_Some; congruence).
  rewrite norm_index_inside by lia. now rewrite Hn.
Qed.

Lemma getitem_Ok {A : Type} (l : list A) (i : Z) (a : A) :
  getitem l i = Ok a -> In a l.
Proof.
  unfold getitem. destruct (norm_index (length l) i); [|discriminate].
  destruct (nth_error l n) eqn:E; [|discriminate].
  intros H; injection H as <-. eapply nth_error_In; eauto.
Qed.

Lemma setitem_above {A : Type} (l : list A) (i : Z) (v : A) :
  (Z.of_nat (length l) <= i)%Z -> setitem l i v = Raise IndexError.
Proof. intros H. unfold setitem. now rewrite norm_index_above. Qed.

(* ================================================================== *)
(** * Strings *)
(* ================================================================== *)

Lemma ascii_eqb_refl (c : ascii) : Ascii.eqb c c = true.
Proof. apply Ascii.eqb_eq. reflexivity. Qed.

Lemma text_eqb_eq (a b : text) : text_eqb a b = true <-> a = b.
Proof.
  revert b. induction a as [|x a IH]; intros [|y b]; simpl; split;
    try congruence; try reflexivity.
  - intros H. apply andb_true_iff in H as [H1 H2].
    apply Ascii.eqb_eq in H1. apply IH in H2. congruence.
  - intros H. injection H as -> ->. rewrite ascii_eqb_refl. simpl. now apply IH.
Qed.

Lemma text_eqb_refl (a : text) : text_eqb a a = true.
Proof. now apply text_eqb_eq. Qed.

Lemma startswith_app (p s : text) : startswith p (p ++ s) = true.
Proof.
  induction p as [|x p IH]; simpl; [reflexivity|].
  now rewrite ascii_eqb_refl.
Qed.

Lemma startswith_inv (p s : text) :
  startswith p s = true -> exists b, s = p ++ b.
Proof.
  revert s. induction p as [|x p IH]; intros s H.
  - exists s. reflexivity.
  - destruct s as [|y s]; simpl in H; [discriminate|].
    apply andb_true_iff in H as [H1 H2]. apply Ascii.eqb_eq in H1. subst y.
    destruct (IH _ H2) as [b ->]. exists b. reflexivity.
Qed.

Lemma contains_startswith (p s : text) :
  startswith p s = true -> contains p s = true.
Proof. intros H. destruct s; simpl; rewrite H; reflexivity. Qed.

(** [p in s] holds exactly when [s] is [a ++ p ++ b]. *)
Lemma contains_iff (p s : text) :
  contains p s = true <-> exists a b, s = a ++ p ++ b.
Proof.
  split.
  - induction s as [|c s IH]; simpl; intros H.
    + rewrite orb_false_r in H. apply startswith_inv in H as [b Hb].
      exists [], b. exact Hb.
    + apply orb_true_iff in H as [H|H].
      * apply startswith_inv in H as [b Hb]. exists [], b. exact Hb.
      * destruct (IH H) as (a & b & ->). exists (c :: a), b. reflexivity.
  - intros (a & b & ->). induction a as [|c a IH].
    + change ([] ++ p ++ b) with (p ++ b).
      apply contains_startswith, startswith_app.
    + simpl. rewrite IH. apply orb_true_r.
Qed.

Lemma contains_trans (p q s : text) :
  contains p q = true -> contains q s = true -> contains p s = true.
Proof.
  rewrite !contains_iff. intros (a & b & ->) (a' & b' & ->).
  exists (a' ++ a), (b ++ b'). now rewrite !app_assoc.
Qed.


Lemma count_app (c : ascii) (a b : text) :
  count c (a ++ b) = count c a + count c b.
Proof. induction a as [|x a IH]; simpl; [reflexivity|]. rewrite IH. lia. Qed.

(** ** [strip] *)

Lemma lstrip_head (s : text) (c : ascii) :
  hd_error (lstrip s) = Some c -> is_space c = false.
Proof.
  induction s as [|x s IH]; simpl; [discriminate|].
  destruct (is_space x) eqn:E; [exact IH|].
  simpl. intros H; injection H as <-. exact E.
Qed.

Lemma lstrip_suffix (s : text) : exists a, s = a ++ lstrip s /\ Forall (fun c => is_space c = true) a.
Proof.
  induction s as [|x s (a & Ha & Hf)]; simpl.
  - exists []. split; [reflexivity|constructor].
  - destruct (is_space x) eqn:E.
    + exists (x :: a). split; [simpl; congruence|now constructor].
    + exists []. split; [reflexivity|constructor].
Qed.

Lemma lstrip_spaces (a s : text) :
  Forall (fun c => is_space c = true) a -> lstrip (a ++ s) = lstrip s.
Proof.
  induction 1 as [|x a Hx _ IH]; simpl; [reflexivity|]. now rewrite Hx.
Qed.

Lemma lstrip_nonspace (c : ascii) (s : text) :
  is_space c = false -> lstrip (c :: s) = c :: s.
Proof. intros H. simpl. now rewrite H. Qed.

Lemma rstrip_spaces (s a : text) :
  Forall (fun c => is_space c = true) a -> rstrip (s ++ a) = rstrip s.
Proof.
  intros H. unfold rstrip. rewrite rev_app_distr.
  rewrite lstrip_spaces; [reflexivity|]. now apply Forall_rev.
Qed.

Lemma rstrip_nonspace (s : text) (c : ascii) :
  is_space c = false -> rstrip (s ++ [c]) = s ++ [c].
Proof.
  intros H. unfold rstrip. rewrite rev_app_distr. simpl. rewrite H.
  simpl. now rewrite rev_involutive.
Qed.

Lemma rstrip_prefix (s : text) : exists b, s = rstrip s ++ b /\ Forall (fun c => is_space c = true) b.
Proof.
  unfold rstrip. destruct (lstrip_suffix (rev s)) as (a & Ha & Hf).
  exists (rev a). split; [|now apply Forall_rev].
  rewrite <- rev_app_distr, <- Ha. now rewrite rev_involutive.
Qed.

(** Left stripping does not bring white space to the right end. *)
Lemma lstrip_last (s : text) (c : ascii) :
  hd_error (rev (lstrip s)) = Some c -> hd_error (rev s) = Some c.
Proof.
  induction s as [|x s IH]; simpl; [discriminate|].
  destruct (is_space x); [|simpl; tauto].
  intros H. specialize (IH H).
  destruct (rev s); [discriminate|]. exact IH.
Qed.

Lemma rstrip_head (s : text) (c : ascii) :
  hd_error (rstrip s) = Some c -> hd_error s = Some c.
Proof.
  unfold rstrip. intros H.
  rewrite <- (rev_involutive s). now apply lstrip_last.
Qed.

Lemma strip_stripped (s : text) : stripped (strip s).
Proof.
  split; intros c H; unfold strip in H.
  - apply rstrip_head in H. eapply lstrip_head; eauto.
  - unfold rstrip in H. rewrite rev_involutive in H. eapply lstrip_head; eauto.
Qed.

(** A text that begins and ends with other characters than white space
    survives [strip] where it stands. *)
Lemma strip_keeps_core (a m b : text) (x y : ascii) (m' : text) :
  m = x :: m' -> hd_error (rev m) = Some y ->
  is_space x = false -> is_space y = false ->
  exists a' b', strip (a ++ m ++ b) = a' ++ m ++ b'.
Proof.
  intros Hm Hlast Hx Hy.
  assert (Hm2 : exists m0, m = m0 ++ [y]).
  { destruct (rev m) as [|z r] eqn:E; [discriminate|].
    injection Hlast as ->. exists (rev r).
    rewrite <- (rev_involutive m), E. reflexivity. }
  destruct Hm2 as [m0 Hm0].
  unfold strip.
  destruct (lstrip_suffix a) as (sa & Ea & Fa).
  assert (E1 : lstrip (a ++ m ++ b) = lstrip a ++ m ++ b).
  { destruct (lstrip a) as [|z la] eqn:El.
    - rewrite app_nil_r in Ea. subst sa.
      rewrite lstrip_spaces by assumption. clear Hm0 Hlast. subst m.
      simpl. now rewrite Hx.
    - assert (Hz : is_space z = false) by (apply (lstrip_head a); now rewrite El).
      rewrite Ea at 1. rewrite <- app_assoc. rewrite lstrip_spaces by assumption.
      simpl. now rewrite Hz. }
  rewrite E1.
  destruct (rstrip_prefix b) as (sb & Eb & Fb).
  destruct (rev (rstrip b)) as [|z rb] eqn:Er.
  - assert (rstrip b = []).
    { rewrite <- (rev_involutive (rstrip b)), Er. reflexivity. }
    rewrite H in Eb. simpl in Eb. subst sb.
    rewrite app_assoc. rewrite rstrip_spaces by assumption.
    rewrite Hm0. rewrite app_assoc. rewrite rstrip_nonspace by assumption.
    exists (lstrip a), []. now rewrite <- app_assoc, app_nil_r.
  - assert (Hb : rstrip b = rev rb ++ [z]).
    { rewrite <- (rev_involutive (rstrip b)), Er. reflexivity. }
    assert (Hz : is_space z = false).
    { unfold rstrip in Er. rewrite rev_involutive in Er.
      apply (lstrip_head (rev b)). now rewrite Er. }
    assert (Eb' : b = (rev rb ++ [z]) ++ sb) by (rewrite <- Hb; exact Eb).
    rewrite Eb'.
    replace (lstrip a ++ m ++ (rev rb ++ [z]) ++ sb)
      with (((lstrip a ++ m ++ rev rb) ++ [z]) ++ sb)
      by (now rewrite <- !app_assoc).
    rewrite rstrip_spaces by assumption.
    rewrite rstrip_nonspace by assumption.
    exists (lstrip a), (rev rb ++ [z]). now rewrite <- !app_assoc.
Qed.

Lemma skipn_middle {A : Type} (a : list A) (x : A) (b : list A) :
  skipn (S (length a)) (a ++ [x] ++ b) = b.
Proof. induction a as [|y a IH]; [reflexivity|exact IH]. Qed.

Lemma firstn_front {A : Type} (a b : list A) : firstn (length a) (a ++ b) = a.
Proof. induction a as [|y a IH]; simpl; [now destruct b|now rewrite IH]. Qed.

(** ** [readlines] *)

Lemma count_zero_cons (c x : ascii) (s : text) :
  count c (x :: s) = 0 -> Ascii.eqb x c = false /\ count c s = 0.
Proof. simpl. destruct (Ascii.eqb x c); [discriminate|]. auto. Qed.

Lemma readlines_full (l s : text) :
  line_full l -> readlines (l ++ s) = l :: readlines s.
Proof.
  intros (b & -> & Hb). induction b as [|c b IH]; [reflexivity|].
  apply count_zero_cons in Hb as [Hc Hb]. simpl. rewrite Hc.
  simpl in IH. now rewrite (IH Hb).
Qed.

Lemma readlines_last (l : text) : line_last l -> readlines l = [l].
Proof.
  intros [Hne Hc]. induction l as [|c l IH]; [congruence|].
  apply count_zero_cons in Hc as [Hc Hl]. simpl. rewrite Hc.
  destruct l as [|d l]; [reflexivity|].
  rewrite IH; [reflexivity|discriminate|assumption].
Qed.

Lemma readlines_ok (s : text) : lines_ok (readlines s).
Proof.
  induction s as [|c s IH]; simpl; [exact I|].
  destruct (Ascii.eqb c nl) eqn:E.
  - apply Ascii.eqb_eq in E. subst c.
    assert (F : line_full [nl]) by (exists []; split; reflexivity).
    destruct (readlines s); simpl; auto.
  - destruct (readlines s) as [|l ls]; simpl.
    + right. split; [discriminate|]. simpl. now rewrite E.
    + simpl in IH. destruct ls.
      * destruct IH as [(b & -> & Hb)|[Hne Hc]].
        -- left. exists (c :: b). split; [reflexivity|]. simpl. now rewrite E.
        -- right. split; [discriminate|]. simpl. now rewrite E.
      * destruct IH as [(b & -> & Hb) Hok]. split; [|exact Hok].
        exists (c :: b). split; [reflexivity|]. simpl. now rewrite E.
Qed.

Lemma readlines_concat (ls : list text) :
  lines_ok ls -> readlines (concat ls) = ls.
Proof.
  induction ls as [|l ls IH]; [reflexivity|]. simpl.
  destruct ls as [|l' ls].
  - intros [F|La]; simpl; rewrite app_nil_r.
    + rewrite <- (app_nil_r l) at 1. now rewrite readlines_full.
    + now apply readlines_last.
  - intros [F Hok]. rewrite readlines_full by assumption. now rewrite IH.
Qed.

Lemma concat_readlines (s : text) : concat (readlines s) = s.
Proof.
  induction s as [|c s IH]; [reflexivity|]. simpl.
  destruct (Ascii.eqb c nl).
  - simpl. now rewrite IH.
  - destruct (readlines s); simpl in *; now rewrite <- IH.
Qed.

Lemma lines_ok_tail (l : text) (ls : list text) :
  lines_ok (l :: ls) -> lines_ok ls.
Proof. destruct ls; simpl; tauto. Qed.

Lemma lines_ok_skipn (n : nat) (ls : list text) :
  lines_ok ls -> lines_ok (skipn n ls).
Proof.
  revert ls. induction n as [|n IH]; intros ls H; [exact H|].
  destruct ls as [|l ls]; [exact I|]. simpl. apply IH.
  eapply lines_ok_tail; eauto.
Qed.

(** All lines but the last one are full. *)
Lemma lines_ok_firstn (n : nat) (ls : list text) :
  lines_ok ls -> n < length ls -> Forall line_full (firstn n ls).
Proof.
  revert ls. induction n as [|n IH]; intros ls H Hn; [constructor|].
  destruct ls as [|l ls]; [simpl in Hn; lia|].
  simpl in Hn. destruct ls as [|l' ls]; [simpl in Hn; lia|].
  destruct H as [F Hok]. simpl firstn. constructor; [exact F|].
  apply IH; [exact Hok|simpl in *; lia].
Qed.

Lemma readlines_fulls (front : list text) (s : text) :
  Forall line_full front -> readlines (concat front ++ s) = front ++ readlines s.
Proof.
  induction 1 as [|l front F _ IH]; [reflexivity|].
  simpl. rewrite <- app_assoc, readlines_full by assumption. now rewrite IH.
Qed.

Lemma readlines_nl_nonempty (r : text) : readlines (r ++ [nl]) <> [].
Proof.
  destruct r as [|c r]; simpl; [discriminate|].
  destruct (Ascii.eqb c nl); [discriminate|].
  destruct (readlines (r ++ [nl])); discriminate.
Qed.

(** Text that ends a line can be split off. *)
Lemma readlines_app_nl (r s : text) :
  readlines ((r ++ [nl]) ++ s) = readlines (r ++ [nl]) ++ readlines s.
Proof.
  induction r as [|c r IH]; [reflexivity|].
  simpl. destruct (Ascii.eqb c nl).
  - simpl. now rewrite IH.
  - rewrite IH. pose proof (readlines_nl_nonempty r) as Hne.
    destruct (readlines (r ++ [nl])); [congruence|reflexivity].
Qed.

(** A text with [k] line feeds, closed by a line feed, has [k + 1] lines. *)
Lemma length_readlines_nl (r : text) :
  length (readlines (r ++ [nl])) = S (count nl r).
Proof.
  induction r as [|c r IH]; [reflexivity|].
  simpl. destruct (Ascii.eqb c nl); simpl; [now rewrite IH|].
  pose proof (readlines_nl_nonempty r) as Hne.
  destruct (readlines (r ++ [nl])); [congruence|]. simpl in *. exact IH.
Qed.

Lemma readlines_single (r : text) :
  count nl r = 0 -> readlines (r ++ [nl]) = [r ++ [nl]].
Proof.
  intros H. rewrite <- (app_nil_r (r ++ [nl])) at 1.
  rewrite readlines_full; [reflexivity|]. exists r. auto.
Qed.

Lemma count_fulls (front : list text) :
  Forall line_full front -> count nl (concat front) = length front.
Proof.
  induction 1 as [|l front (b & -> & Hb) _ IH]; [reflexivity|].
  simpl. rewrite !count_app, Hb, IH. simpl. reflexivity.
Qed.

(** The lines of a text are pieces of it. *)
Lemma readlines_nth (s : text) (n : nat) (l : text) :
  nth_error (readlines s) n = Some l ->
  s = concat (firstn n (readlines s)) ++ l ++ concat (skipn (S n) (readlines s)).
Proof.
  intros H. rewrite <- (concat_readlines s) at 1.
  apply nth_error_split in H as (l1 & l2 & E & Hlen).
  rewrite E. subst n.
  rewrite firstn_app, firstn_all, Nat.sub_diag. simpl firstn. rewrite app_nil_r.
  replace (skipn (S (length l1)) (l1 ++ l :: l2)) with l2.
  - rewrite concat_app. simpl. reflexivity.
  - change (l1 ++ l :: l2) with (l1 ++ [l] ++ l2). rewrite app_assoc.
    rewrite skipn_app.
    replace (length (l1 ++ [l])) with (S (length l1)) by (rewrite length_app; simpl; lia).
    rewrite skipn_all2 by (rewrite length_app; simpl; lia).
    rewrite Nat.sub_diag. reflexivity.
Qed.

(** ** Text mode *)

Lemma translate_no_cr (s : text) :
  forall pending, count cr (translate_newlines pending s) = 0.
Proof.
  induction s as [|c s IH]; intros pending; [reflexivity|]. simpl.
  destruct (Ascii.eqb c cr) eqn:E; [simpl; apply IH|].
  destruct (Ascii.eqb c nl && pending)%bool; [apply IH|].
  simpl. rewrite E. apply IH.
Qed.

(** A text without carriage return is read as it is. *)
Lemma translate_id (s : text) : count cr s = 0 -> universal_newlines s = s.
Proof.
  unfold universal_newlines. induction s as [|c s IH]; [reflexivity|].
  intros H. apply count_zero_cons in H as [Hc Hs]. simpl. rewrite Hc.
  rewrite andb_false_r. now rewrite IH.
Qed.

(** Translation goes line by line. *)
Lemma translate_app_nl (a b : text) :
  forall pending,
    translate_newlines pending ((a ++ [nl]) ++ b)
    = translate_newlines pending (a ++ [nl]) ++ translate_newlines false b.
Proof.
  induction a as [|c a IH]; intros pending.
  - simpl. destruct pending; reflexivity.
  - simpl. destruct (Ascii.eqb c cr); [now rewrite IH|].
    destruct (Ascii.eqb c nl && pending)%bool; now rewrite IH.
Qed.

Lemma universal_newlines_app_nl (a b : text) :
  universal_newlines ((a ++ [nl]) ++ b)
  = universal_newlines (a ++ [nl]) ++ universal_newlines b.
Proof. apply translate_app_nl. Qed.

(** A text closed by a line feed is read as a text closed by a line feed. *)
Lemma translate_ends_nl (r : text) :
  forall pending,
    (exists y, translate_newlines pending (r ++ [nl]) = y ++ [nl]) \/
    (pending = true /\ r = [] /\ translate_newlines pending (r ++ [nl]) = []).
Proof.
  induction r as [|c r IH]; intros pending.
  - destruct pending; [right; auto|left; exists []; reflexivity].
  - left. simpl. destruct (Ascii.eqb c cr).
    + destruct (IH true) as [(y & ->)|(_ & -> & ->)];
        [exists (nl :: y)|exists []]; reflexivity.
    + destruct (Ascii.eqb c nl && pending)%bool.
      * destruct (IH false) as [(y & ->)|(Hp & _)]; [|discriminate].
        exists y; reflexivity.
      * destruct (IH false) as [(y & ->)|(Hp & _)]; [|discriminate].
        exists (c :: y); reflexivity.
Qed.

Lemma universal_newlines_ends_nl (r : text) :
  exists y, universal_newlines (r ++ [nl]) = y ++ [nl].
Proof.
  destruct (translate_ends_nl r false) as [H|(Hp & _)]; [exact H|discriminate].
Qed.

Lemma universal_newlines_fulls (front : list text) (s : text) :
  Forall line_full front ->
  count cr (concat front) = 0 ->
  universal_newlines (concat front ++ s) = concat front ++ universal_newlines s.
Proof.
  induction 1 as [|l front (b & -> & Hb) _ IH]; [reflexivity|].
  simpl. rewrite count_app. intros Hcr.
  rewrite <- app_assoc. rewrite universal_newlines_app_nl.
  rewrite translate_id by lia. rewrite IH by lia.
  now rewrite <- !app_assoc.
Qed.

(** What is read from a file holds no carriage return. *)
Lemma read_no_cr (fs : FS.t) (path content : text) :
  FS.read fs path = Ok content -> count cr content = 0.
Proof.
  unfold FS.read. destruct (fs path); [|discriminate].
  intros H. injection H as <-. apply translate_no_cr.
Qed.

Lemma count_concat_firstn (c : ascii) (n : nat) (ls : list text) :
  count c (concat ls) = 0 -> count c (concat (firstn n ls)) = 0.
Proof.
  intros H. rewrite <- (firstn_skipn n ls), concat_app, count_app in H. lia.
Qed.

Lemma count_concat_skipn (c : ascii) (n : nat) (ls : list text) :
  count c (concat ls) = 0 -> count c (concat (skipn n ls)) = 0.
Proof.
  intros H. rewrite <- (firstn_skipn n ls), concat_app, count_app in H. lia.
Qed.

(** [strip] and [replace] bring in no character of their own. *)
Lemma count_lstrip_zero (c : ascii) (s : text) :
  count c s = 0 -> count c (lstrip s) = 0.
Proof.
  intros H. destruct (lstrip_suffix s) as (a & Ha & _).
  rewrite Ha, count_app in H. lia.
Qed.

Lemma count_rev (c : ascii) (s : text) : count c (rev s) = count c s.
Proof.
  induction s as [|x s IH]; [reflexivity|].
  simpl. rewrite count_app, IH. simpl. lia.
Qed.

Lemma count_strip_zero (c : ascii) (s : text) :
  count c s = 0 -> count c (strip s) = 0.
Proof.
  intros H. unfold strip, rstrip. rewrite count_rev.
  apply count_lstrip_zero. rewrite count_rev. now apply count_lstrip_zero.
Qed.

Lemma count_replace_zero (c : ascii) (old new s : text) :
  count c s = 0 -> count c new = 0 -> count c (replace old new s) = 0.
Proof.
  intros Hs Hnew. unfold replace. destruct old as [|o old].
  - induction s as [|x s IH]; [exact Hnew|].
    apply count_zero_cons in Hs as [Hx Hs]. simpl.
    rewrite count_app. simpl. rewrite Hx, Hnew, IH by exact Hs. reflexivity.
  - assert (H : forall skip, count c (replace_from (o :: old) new s skip) = 0);
      [|apply H].
    induction s as [|x s IH]; intros skip; [reflexivity|].
    apply count_zero_cons in Hs as [Hx Hs]. cbn [replace_from].
    destruct skip; [|now apply IH].
    destruct (startswith (o :: old) (x :: s)).
    + rewrite count_app, Hnew. now apply IH.
    + simpl. rewrite Hx. now apply IH.
Qed.

(* ================================================================== *)
(** * The applier *)
(* ================================================================== *)

Lemma apply_fix_writes (fs : FS.t) (f : Fix.t) (content r : text) (n : nat) :
  FS.read fs (Fix.file f) = Ok content ->
  Fix.replacement f = Some r ->
  norm_index (length (readlines content)) (Fix.line f - 1) = Some n ->
  apply_fix fs f =
    (Ok (L "Applied fix to " ++ Fix.file f ++ L " line " ++ str_of_int (Fix.line f)),
     FS.write fs (Fix.file f) (concat (overwrite (readlines content) n r))).
Proof.
  intros Hc Hr Hn. unfold apply_fix, setitem.
  rewrite Hc, Hr, Hn. reflexivity.
Qed.

Lemma apply_fix_Ok_inv (fs fs' : FS.t) (f : Fix.t) (content r status : text) :
  FS.read fs (Fix.file f) = Ok content ->
  Fix.replacement f = Some r ->
  apply_fix fs f = (Ok status, fs') ->
  exists n, norm_index (length (readlines content)) (Fix.line f - 1) = Some n /\
            fs' = FS.write fs (Fix.file f) (concat (overwrite (readlines content) n r)).
Proof.
  intros Hc Hr. unfold apply_fix, setitem. rewrite Hc, Hr.
  destruct (norm_index _ _) as [n|]; [|discriminate].
  intros H. injection H as _ <-. exists n. auto.
Qed.

Lemma write_read (fs : FS.t) (path c : text) : FS.write fs path c path = Some c.
Proof. unfold FS.write. now rewrite text_eqb_refl. Qed.

Lemma write_other (fs : FS.t) (path c p : text) :
  p <> path -> FS.write fs path c p = fs p.
Proof.
  intros H. unfold FS.write. destruct (text_eqb p path) eqn:E; [|reflexivity].
  apply text_eqb_eq in E. contradiction.
Qed.

(** A file is read as the translation of what was written to it. *)
Lemma read_write (fs : FS.t) (path c : text) :
  FS.read (FS.write fs path c) path = Ok (universal_newlines c).
Proof. unfold FS.read. now rewrite write_read. Qed.

Lemma read_write_no_cr (fs : FS.t) (path c : text) :
  count cr c = 0 -> FS.read (FS.write fs path c) path = Ok c.
Proof. intros H. rewrite read_write. now rewrite translate_id. Qed.

(** The lines [apply_fix] wrote, as lines of text. *)
Lemma readlines_overwrite (content r : text) (n : nat) :
  n < length (readlines content) ->
  readlines (concat (overwrite (readlines content) n r))
  = firstn n (readlines content) ++ readlines (r ++ [nl])
    ++ skipn (S n) (readlines content).
Proof.
  intros Hn. unfold overwrite.
  pose proof (readlines_ok content) as Hok.
  assert (Hback : lines_ok (skipn (S n) (readlines content)))
    by (now apply lines_ok_skipn).
  remember (skipn (S n) (readlines content)) as back.
  rewrite concat_app. simpl concat.
  rewrite readlines_fulls by (now apply lines_ok_firstn).
  rewrite readlines_app_nl.
  rewrite readlines_concat by assumption. reflexivity.
Qed.

(** Reading back what [apply_fix] wrote over a text that was read: the
    lines around the target are read as they were, the replacement as its
    translation. *)
Lemma universal_newlines_overwrite (content r : text) (n : nat) :
  count cr content = 0 ->
  n < length (readlines content) ->
  universal_newlines (concat (overwrite (readlines content) n r))
  = concat (firstn n (readlines content)) ++ universal_newlines (r ++ [nl])
    ++ concat (skipn (S n) (readlines content)).
Proof.
  intros Hcr Hn. unfold overwrite.
  rewrite <- (concat_readlines content) in Hcr.
  pose proof (count_concat_skipn cr (S n) _ Hcr) as Hback.
  remember (skipn (S n) (readlines content)) as back.
  rewrite concat_app. simpl concat.
  rewrite universal_newlines_fulls;
    [|apply lines_ok_firstn; [apply readlines_ok|exact Hn]
     |now apply count_concat_firstn].
  rewrite universal_newlines_app_nl.
  rewrite (translate_id (concat back)) by exact Hback.
  reflexivity.
Qed.

Lemma readlines_read_back (content r : text) (n : nat) :
  count cr content = 0 ->
  n < length (readlines content) ->
  readlines (universal_newlines (concat (overwrite (readlines content) n r)))
  = firstn n (readlines content) ++ readlines (universal_newlines (r ++ [nl]))
    ++ skipn (S n) (readlines content).
Proof.
  intros Hcr Hn. rewrite universal_newlines_overwrite by assumption.
  rewrite readlines_fulls by (apply lines_ok_firstn; [apply readlines_ok|exact Hn]).
  destruct (universal_newlines_ends_nl r) as (y & ->).
  rewrite readlines_app_nl.
  rewrite readlines_concat by (apply lines_ok_skipn, readlines_ok).
  reflexivity.
Qed.

(** What [apply_fix] wrote is read back as written when the replacement
    holds no carriage return. *)
Lemma overwrite_no_cr (content r : text) (n : nat) :
  count cr content = 0 ->
  count cr r = 0 ->
  count cr (concat (overwrite (readlines content) n r)) = 0.
Proof.
  intros Hcr Hr. unfold overwrite.
  rewrite <- (concat_readlines content) in Hcr.
  pose proof (count_concat_skipn cr (S n) _ Hcr) as Hback.
  remember (skipn (S n) (readlines content)) as back.
  rewrite concat_app. simpl concat. rewrite !count_app.
  rewrite (count_concat_firstn cr n _ Hcr), Hback, Hr.
  reflexivity.
Qed.

(** C6: an index at or beyond the number of issues gives the string
    ["Invalid issue index"], neither an exception nor a fix. *)
Theorem suggest_fixes_invalid_index (self : XcodeAssistant.t) (fs : FS.t) (i : Z) :
  (Z.of_nat (length (issues self)) <= i)%Z ->
  suggest_fixes self fs (Some i) = Ok (One (Str (L "Invalid issue index"))).
Proof.
  intros H. unfold suggest_fixes.
  destruct (Z.ltb_spec i (Z.of_nat (length (issues self)))); [lia|].
  now rewrite andb_false_r.
Qed.

(** C5: a fix with a replacement whose line lies beyond the end of the
    file makes [apply_fix] raise [IndexError] and leaves the file system as
    it was: nothing is written at any offset. *)
Theorem apply_fix_out_of_range (fs : FS.t) (f : Fix.t) (content r : text) :
  FS.read fs (Fix.file f) = Ok content ->
  Fix.replacement f = Some r ->
  (Z.of_nat (length (readlines content)) < Fix.line f)%Z ->
  apply_fix fs f = (Raise IndexError, fs).
Proof.
  intros Hc Hr Hlen. unfold apply_fix. rewrite Hc, Hr.
  rewrite setitem_above by lia. reflexivity.
Qed.

(** C4, as stated, fails: the file is read and written in text mode, so
    the lines the fix does not target are written back with a line feed as
    their terminator.  In a file with CR LF line endings, a fix for line 1
    changes the characters of line 2. *)
Lemma apply_fix_rewrites_line_endings :
  crlf_fs crlf_file = Some (L "a" ++ [cr; nl] ++ L "b" ++ [cr; nl]) /\
  Fix.line crlf_fix = 1%Z /\
  Fix.replacement crlf_fix = Some (L "X") /\
  apply_fix crlf_fs crlf_fix
  = (Ok (L "Applied fix to Legacy.swift line 1"),
     FS.write crlf_fs crlf_file (L "X" ++ [nl] ++ L "b" ++ [nl])) /\
  skipn 3 (L "a" ++ [cr; nl] ++ L "b" ++ [cr; nl]) = L "b" ++ [cr; nl] /\
  skipn 2 (L "X" ++ [nl] ++ L "b" ++ [nl]) = L "b" ++ [nl] /\
  L "b" ++ [cr; nl] <> L "b" ++ [nl].
Proof. repeat split; try reflexivity. discriminate. Qed.

(** C4, amended: applying a fix with a replacement to line [N] of a file
    that is read as [M] lines, [1 <= N <= M]: the file is then read as
    [M + K - 1] lines, where [K] is the number of lines the replacement
    followed by a line feed is read back as; the lines before [N] and the
    lines after [N] are read as the same texts as before, and the [K] lines
    of the replacement stand at [N].  With [K = 1] the file is still read as
    [M] lines and differs at line [N] only.  For a replacement without
    carriage return, [K] is one more than the number of its line feeds, and
    the file is read back as it was written. *)
Theorem apply_fix_frame (fs : FS.t) (f : Fix.t) (content r : text) (N : nat) :
  FS.read fs (Fix.file f) = Ok content ->
  Fix.replacement f = Some r ->
  Fix.line f = Z.of_nat N ->
  1 <= N <= length (readlines content) ->
  let lines := readlines content in
  let M := length lines in
  let new := readlines (universal_newlines (r ++ [nl])) in
  let K := length new in
  exists status written content',
    apply_fix fs f = (Ok status, FS.write fs (Fix.file f) written) /\
    FS.read (FS.write fs (Fix.file f) written) (Fix.file f) = Ok content' /\
    let lines' := readlines content' in
    lines' = firstn (N - 1) lines ++ new ++ skipn N lines /\
    1 <= K /\
    concat new = universal_newlines (r ++ [nl]) /\
    length lines' = M + K - 1 /\
    (forall i, i < N - 1 -> nth_error lines' i = nth_error lines i) /\
    (forall i, N <= i -> nth_error lines' (i + K - 1) = nth_error lines i) /\
    (forall j, j < K -> nth_error lines' (N - 1 + j) = nth_error new j) /\
    (K = 1 -> new = [universal_newlines (r ++ [nl])] /\ length lines' = M) /\
    (count cr r = 0 ->
     K = S (count nl r) /\ concat new = r ++ [nl] /\ content' = written).
Proof.
  intros Hc Hr HN Hrange lines M new K.
  pose proof (read_no_cr _ _ Hc) as Hcr.
  assert (Hidx : norm_index (length lines) (Fix.line f - 1) = Some (N - 1)).
  { rewrite norm_index_inside by (subst lines; lia). f_equal. lia. }
  eexists. exists (concat (overwrite lines (N - 1) r)).
  exists (universal_newlines (concat (overwrite lines (N - 1) r))).
  split; [now apply apply_fix_writes|].
  split; [apply read_write|].
  assert (Hlines : readlines (universal_newlines (concat (overwrite lines (N - 1) r)))
                   = firstn (N - 1) lines ++ new ++ skipn N lines).
  { subst lines. rewrite readlines_read_back by (assumption || lia).
    replace (S (N - 1)) with N by lia. reflexivity. }
  assert (HK : 1 <= K).
  { subst K new. destruct (universal_newlines_ends_nl r) as (y & ->).
    rewrite length_readlines_nl. lia. }
  assert (Hfront : length (firstn (N - 1) lines) = N - 1).
  { rewrite length_firstn. subst lines. lia. }
  assert (Hlen : length (firstn (N - 1) lines ++ new ++ skipn N lines) = M + K - 1).
  { rewrite !length_app, Hfront, length_skipn. subst M K lines. lia. }
  cbv zeta. rewrite Hlines.
  split; [reflexivity|]. split; [exact HK|].
  split; [apply concat_readlines|].
  split; [exact Hlen|].
  split.
  { intros i Hi. rewrite nth_error_app1 by lia.
    rewrite nth_error_firstn.
    destruct (Nat.ltb_spec i (N - 1)); [reflexivity|lia]. }
  split.
  { intros i Hi. rewrite nth_error_app2 by lia.
    rewrite nth_error_app2 by (subst K; lia). rewrite Hfront.
    rewrite nth_error_skipn. f_equal. subst K. lia. }
  split.
  { intros j Hj. rewrite nth_error_app2 by lia.
    rewrite Hfront. rewrite nth_error_app1 by (subst K; lia). f_equal. lia. }
  split.
  { intros HK1. split; [|rewrite Hlen; lia].
    pose proof (concat_readlines (universal_newlines (r ++ [nl]))) as Hcat.
    fold new in Hcat. subst K.
    destruct new as [|l [|l' new']]; simpl in HK1; try lia.
    simpl in Hcat. rewrite app_nil_r in Hcat. now rewrite Hcat. }
  intros Hrcr.
  assert (Hid : universal_newlines (r ++ [nl]) = r ++ [nl]).
  { apply translate_id. rewrite count_app, Hrcr. reflexivity. }
  split; [|split].
  - subst K new. rewrite Hid. apply length_readlines_nl.
  - subst new. rewrite Hid. apply concat_readlines.
  - apply translate_id. subst lines. now apply overwrite_no_cr.
Qed.

(** A carriage return in the replacement is a line boundary when the file
    is read again: the one-line file is read back as two lines. *)
Example apply_fix_carriage_return :
  length (readlines (L "let x = 1" ++ [nl])) = 1 /\
  apply_fix stale_fs cr_fix
  = (Ok (L "Applied fix to stale.swift line 1"),
     FS.write stale_fs stale_file (L "x" ++ [cr] ++ L "y" ++ [nl])) /\
  FS.read (FS.write stale_fs stale_file (L "x" ++ [cr] ++ L "y" ++ [nl])) stale_file
  = Ok (L "x" ++ [nl] ++ L "y" ++ [nl]) /\
  length (readlines (L "x" ++ [nl] ++ L "y" ++ [nl])) = 2.
Proof. repeat split; reflexivity. Qed.

(* ================================================================== *)
(** * The matcher *)
(* ================================================================== *)

Lemma rep_greedy_inv (cl : cclass) (k : cont) (cs : caps) (s : text) :
  forall min pos res,
    rep_greedy cl min s pos cs k = Some res ->
    exists n, min <= n /\ n <= length s /\
              Forall (fun c => cmatch cl c = true) (firstn n s) /\
              k (skipn n s) (pos + n) cs = Some res.
Proof.
  assert (Hstop : forall (s0 : text) min pos res,
             (if Nat.eqb min 0 then k s0 pos cs else None) = Some res ->
             exists n, min <= n /\ n <= length s0 /\
                       Forall (fun c => cmatch cl c = true) (firstn n s0) /\
                       k (skipn n s0) (pos + n) cs = Some res).
  { intros s0 min pos res H. destruct (Nat.eqb_spec min 0); [|discriminate].
    exists 0. rewrite Nat.add_0_r. repeat split; try lia; [constructor|exact H]. }
  induction s as [|c s IH]; intros min pos res H; simpl in H.
  - now apply Hstop.
  - destruct (cmatch cl c) eqn:Ec; [|now apply Hstop].
    destruct (rep_greedy cl (pred min) s (S pos) cs k) as [r0|] eqn:Er;
      [|now apply Hstop].
    injection H as ->. apply IH in Er as (n & Hmin & Hlen & Hall & Hk).
    exists (S n). simpl. repeat split; try lia.
    + now constructor.
    + now replace (pos + S n) with (S pos + n) by lia.
Qed.

Lemma rep_lazy_inv (cl : cclass) (k : cont) (cs : caps) (s : text) :
  forall min pos res,
    rep_lazy cl min s pos cs k = Some res ->
    exists n, min <= n /\ n <= length s /\
              Forall (fun c => cmatch cl c = true) (firstn n s) /\
              k (skipn n s) (pos + n) cs = Some res.
Proof.
  induction s as [|c s IH]; intros min pos res H; simpl in H.
  - destruct (Nat.eqb_spec min 0); [|discriminate].
    destruct (k [] pos cs) eqn:Ek; [|discriminate]. injection H as ->.
    exists 0. rewrite Nat.add_0_r. repeat split; try lia; [constructor|exact Ek].
  - destruct (if Nat.eqb min 0 then k (c :: s) pos cs else None) as [r0|] eqn:E0.
    + injection H as ->. destruct (Nat.eqb_spec min 0); [|discriminate].
      exists 0. rewrite Nat.add_0_r.
      repeat split; try lia; [constructor|exact E0].
    + destruct (cmatch cl c) eqn:Ec; [|discriminate].
      apply IH in H as (n & Hmin & Hlen & Hall & Hk).
      exists (S n). simpl. repeat split; try lia.
      * now constructor.
      * now replace (pos + S n) with (S pos + n) by lia.
Qed.

(** A successful match has called its continuation, further in the input,
    with more groups, all of them groups of the pattern. *)
Lemma rmatch_inv (r : regex) :
  forall s pos cs (k : cont) res,
    rmatch r s pos cs k = Some res ->
    exists n new,
      n <= length s /\
      k (skipn n s) (pos + n) (new ++ cs) = Some res /\
      Forall (fun g => In (fst g) (group_ids r)) new.
Proof.
  induction r as [|cl| |a IHa b IHb|cl min greedy|g a IHa];
    intros s pos cs k res H; simpl in H.
  - exists 0, []. rewrite Nat.add_0_r. repeat split; [lia|exact H|constructor].
  - destruct s as [|c s]; [discriminate|].
    destruct (cmatch cl c); [|discriminate].
    exists 1, []. replace (pos + 1) with (S pos) by lia.
    repeat split; [simpl; lia|exact H|constructor].
  - destruct (Nat.eqb pos 0); [|discriminate].
    exists 0, []. rewrite Nat.add_0_r. repeat split; [lia|exact H|constructor].
  - apply IHa in H as (n1 & new1 & Hn1 & Hk1 & Hg1).
    apply IHb in Hk1 as (n2 & new2 & Hn2 & Hk2 & Hg2).
    exists (n1 + n2), (new2 ++ new1).
    rewrite skipn_skipn in Hk2. rewrite length_skipn in Hn2.
    repeat split.
    + lia.
    + rewrite <- app_assoc. rewrite Nat.add_assoc.
      now replace (n1 + n2) with (n2 + n1) by lia.
    + simpl. apply Forall_app. split; eapply Forall_impl; eauto;
        intros x Hx; simpl in *; apply in_or_app; auto.
  - destruct greedy.
    + apply rep_greedy_inv in H as (n & _ & Hn & _ & Hk).
      exists n, []. repeat split; [exact Hn|exact Hk|constructor].
    + apply rep_lazy_inv in H as (n & _ & Hn & _ & Hk).
      exists n, []. repeat split; [exact Hn|exact Hk|constructor].
  - apply IHa in H as (n & new & Hn & Hk & Hg).
    exists n, ((g, firstn (pos + n - pos) s) :: new).
    repeat split; [exact Hn|exact Hk|].
    simpl. constructor; [now left|].
    eapply Forall_impl; eauto. intros x Hx; simpl in *; auto.
Qed.

Lemma lookup_app_other (n : nat) (new cs : caps) :
  Forall (fun g => fst g <> n) new -> lookup n (new ++ cs) = lookup n cs.
Proof.
  induction 1 as [|[m t] new Hm _ IH]; [reflexivity|].
  simpl in *. destruct (Nat.eqb_spec m n); [contradiction|exact IH].
Qed.

(** A literal character at the head of a pattern is the head of the input. *)
Lemma rmatch_lit (c : ascii) (r : regex) (s : text) (pos : nat) (cs : caps)
      (k : cont) (res : nat * caps) :
  rmatch (Seq (Chr (CLit c)) r) s pos cs k = Some res ->
  exists s', s = c :: s' /\ rmatch r s' (S pos) cs k = Some res.
Proof.
  simpl. destruct s as [|x s]; [discriminate|].
  destruct (Ascii.eqb x c) eqn:E; [|discriminate].
  apply Ascii.eqb_eq in E. subst x. intros H. exists s. auto.
Qed.

(** A pattern that opens with the group [(\w+)]: group 1 is a non-empty
    run of word characters at the start of the match. *)
Lemma rmatch_word_group (rest : regex) (s : text) (pos e : nat) (cs : caps) :
  ~ In 1 (group_ids rest) ->
  rmatch (Seq (Group 1 (Rep CWord 1 true)) rest) s pos [] k_done = Some (e, cs) ->
  exists n, 1 <= n /\ n <= length s /\
            Forall (fun c => is_word c = true) (firstn n s) /\
            lookup 1 cs = Some (firstn n s).
Proof.
  intros Hids H. simpl in H.
  apply rep_greedy_inv in H as (n & Hmin & Hlen & Hall & Hk).
  apply rmatch_inv in Hk as (n2 & new & _ & Hk & Hg).
  unfold k_done in Hk. injection Hk as _ <-.
  exists n. repeat split; try assumption.
  rewrite lookup_app_other.
  - simpl. f_equal. f_equal. lia.
  - eapply Forall_impl; eauto. intros x Hx Heq. simpl in Hx.
    rewrite Heq in Hx. contradiction.
Qed.

Lemma match_at_start (r : regex) (s : text) (pos : nat) (m : mobj) :
  match_at r s pos = Some m ->
  m_start m = pos /\
  exists n, n <= length s /\ m_end m = pos + n /\ group0 m = firstn n s.
Proof.
  unfold match_at.
  destruct (rmatch r s pos [] (fun _ p' cs' => Some (p', cs'))) as [[e cs]|] eqn:E;
    [|discriminate].
  intros H. injection H as <-. simpl. split; [reflexivity|].
  apply rmatch_inv in E as (n & new & Hn & Hk & _).
  injection Hk as <- _. exists n. repeat split; [exact Hn|].
  f_equal. lia.
Qed.

(** [search] reports a match that starts somewhere in the input. *)
Lemma search_from_inv (r : regex) (s : text) :
  forall pos m,
    search_from r s pos = Some m ->
    exists i, i <= length s /\ match_at r (skipn i s) (pos + i) = Some m.
Proof.
  induction s as [|c s IH]; intros pos m H; simpl in H.
  - destruct (match_at r [] pos) eqn:E; [|discriminate].
    exists 0. rewrite Nat.add_0_r. split; [lia|]. simpl. congruence.
  - destruct (match_at r (c :: s) pos) eqn:E.
    + exists 0. rewrite Nat.add_0_r. split; [lia|]. simpl. congruence.
    + apply IH in H as (i & Hi & Hm). exists (S i). split; [simpl; lia|].
      simpl. now replace (pos + S i) with (S pos + i) by lia.
Qed.

(** So does [finditer], for each of its matches. *)
Lemma finditer_from_inv (r : regex) (s : text) :
  forall pos skip m,
    In m (finditer_from r s pos skip) ->
    exists i, i <= length s /\ match_at r (skipn i s) (pos + i) = Some m.
Proof.
  induction s as [|c s IH]; intros pos skip m H.
  - destruct skip; simpl in H; [|contradiction].
    destruct (match_at r [] pos) eqn:E; [|contradiction].
    destruct H as [<-|[]]. exists 0. rewrite Nat.add_0_r. split; [lia|exact E].
  - assert (Hrec : forall skip', In m (finditer_from r s (S pos) skip') ->
                exists i, i <= length (c :: s) /\
                          match_at r (skipn i (c :: s)) (pos + i) = Some m).
    { intros skip' H'. apply IH in H' as (i & Hi & Hm).
      exists (S i). split; [simpl; lia|].
      simpl. now replace (pos + S i) with (S pos + i) by lia. }
    destruct skip; simpl in H; [|eauto].
    destruct (match_at r (c :: s) pos) eqn:E; [|eauto].
    destruct H as [<-|H]; [|eauto].
    exists 0. rewrite Nat.add_0_r. split; [lia|exact E].
Qed.

(** [sub] rewrites the match [search] finds, and leaves what precedes it. *)
Lemma sub_from_first (r : regex) (tmpl : list titem) (s : text) :
  forall pos m,
    search_from r s pos = Some m ->
    exists i rest,
      i <= length s /\
      sub_from r tmpl s pos 0 = firstn i s ++ expand tmpl (groups m) ++ rest.
Proof.
  induction s as [|c s IH]; intros pos m H; simpl in H |- *.
  - destruct (match_at r [] pos) eqn:E; [|discriminate].
    injection H as ->. exists 0, []. split; [lia|reflexivity].
  - destruct (match_at r (c :: s) pos) eqn:E.
    + injection H as ->. exists 0. eexists. split; [lia|reflexivity].
    + apply IH with (pos := S pos) in H as (i & rest & Hi & Hs).
      exists (S i), rest. split; [lia|]. simpl. now rewrite Hs.
Qed.

(* ================================================================== *)
(** * Fix records are stripped *)
(* ================================================================== *)

(** The fix a synthesizer returns on a line: all of them share the shape
    of the record. *)
Ltac synth_cases H :=
  repeat match type of H with
         | bind ?m _ = Ok _ => destruct m eqn:?; simpl in H; [|discriminate]
         | (if ?b then _ else _) = Ok _ => destruct b eqn:?
         | match ?o with Some _ => _ | None => _ end = Ok _ =>
             destruct o eqn:?
         | (let (_, _) := ?p in _) = Ok _ => destruct p eqn:?
         end.

Lemma fix_build_expression_shape (fs : FS.t) (issue : Issue.t) (f : Fix.t) :
  fix_build_expression fs issue = Ok f ->
  exists line new,
    Fix.original f = strip line /\
    (Fix.replacement f = None \/ Fix.replacement f = Some (strip new)).
Proof.
  unfold fix_build_expression. intros H. synth_cases H;
    injection H as <-; simpl; eauto.
  Unshelve. all: exact [].
Qed.

Lemma fix_deprecated_api_shape (fs : FS.t) (issue : Issue.t) (f : Fix.t) :
  fix_deprecated_api fs issue = Ok f ->
  exists line new,
    Fix.original f = strip line /\
    (Fix.replacement f = None \/ Fix.replacement f = Some (strip new)).
Proof.
  unfold fix_deprecated_api. intros H. synth_cases H;
    injection H as <-; simpl; eauto.
  Unshelve. all: exact [].
Qed.

Lemma fix_sendable_conformance_shape (fs : FS.t) (issue : Issue.t) (f : Fix.t) :
  fix_sendable_conformance fs issue = Ok f ->
  exists line new,
    Fix.original f = strip line /\
    (Fix.replacement f = None \/ Fix.replacement f = Some (strip new)).
Proof.
  unfold fix_sendable_conformance. intros H. synth_cases H;
    injection H as <-; simpl; eauto.
  Unshelve. all: exact [].
Qed.

Lemma is_space_nl : is_space nl = true.
Proof. reflexivity. Qed.

(** The first physical line of a stripped text written as a line. *)
Lemma first_line_of_stripped (r : text) :
  stripped r ->
  exists first rest,
    readlines (r ++ [nl]) = first :: rest /\
    (first = [nl] \/ exists c t, first = c :: t /\ is_space c = false).
Proof.
  intros [Hhead _]. destruct r as [|c r].
  - exists [nl], []. split; [reflexivity|now left].
  - assert (Hc : is_space c = false) by (apply Hhead; reflexivity).
    assert (Hnl : Ascii.eqb c nl = false).
    { destruct (Ascii.eqb c nl) eqn:E; [|reflexivity].
      apply Ascii.eqb_eq in E. subst c. rewrite is_space_nl in Hc. discriminate. }
    simpl. rewrite Hnl. pose proof (readlines_nl_nonempty r) as Hne.
    destruct (readlines (r ++ [nl])) as [|l ls]; [congruence|].
    exists (c :: l), ls. split; [reflexivity|]. right. eauto.
Qed.

(** C10: the fix record of each of the three synthesizers has its
    original, and its replacement when there is one, without white space at
    either end.  Hence, when [apply_fix] writes the replacement, the first
    physical line it writes carries no leading indentation: it is empty or
    starts with a character that is not white space, whatever the
    indentation of the line it replaces. *)
Theorem fix_records_stripped (fs : FS.t) (issue : Issue.t) (f : Fix.t) :
  fix_build_expression fs issue = Ok f \/
  fix_deprecated_api fs issue = Ok f \/
  fix_sendable_conformance fs issue = Ok f ->
  stripped (Fix.original f) /\
  forall r, Fix.replacement f = Some r ->
    stripped r /\
    forall content status fs',
      FS.read fs (Fix.file f) = Ok content ->
      apply_fix fs f = (Ok status, fs') ->
      exists n content' first rest,
        norm_index (length (readlines content)) (Fix.line f - 1) = Some n /\
        fs' (Fix.file f) = Some content' /\
        readlines (r ++ [nl]) = first :: rest /\
        nth_error (readlines content') n = Some first /\
        (first = [nl] \/ exists c t, first = c :: t /\ is_space c = false).
Proof.
  intros H.
  assert (Hshape : exists line new,
             Fix.original f = strip line /\
             (Fix.replacement f = None \/ Fix.replacement f = Some (strip new))).
  { destruct H as [H|[H|H]];
      eauto using fix_build_expression_shape, fix_deprecated_api_shape,
                  fix_sendable_conformance_shape. }
  destruct Hshape as (line & new & Ho & Hr).
  split; [rewrite Ho; apply strip_stripped|].
  intros r Hrepl.
  assert (Hs : stripped r).
  { destruct Hr as [Hr|Hr]; rewrite Hr in Hrepl; [discriminate|].
    injection Hrepl as <-. apply strip_stripped. }
  split; [exact Hs|].
  intros content status fs' Hc Happly.
  destruct (apply_fix_Ok_inv _ _ Hc Hrepl Happly) as (n & Hn & ->).
  destruct (first_line_of_stripped Hs) as (first & rest & Hfirst & Hind).
  pose proof (norm_index_bound _ _ Hn) as Hlt.
  exists n, (concat (overwrite (readlines content) n r)), first, rest.
  split; [exact Hn|]. split; [apply write_read|]. split; [exact Hfirst|].
  split; [|exact Hind].
  rewrite readlines_overwrite by exact Hlt.
  rewrite nth_error_app2 by (rewrite length_firstn; lia).
  rewrite length_firstn. replace (n - Nat.min n _) with 0 by lia.
  rewrite Hfirst. reflexivity.
Qed.

(* ================================================================== *)
(** * Synthesis on a stale line *)
(* ================================================================== *)

Lemma first_replacement_none (table : list (regex * list titem)) (line : text) :
  existsb (fun pr => is_some (search (fst pr) line)) table = false ->
  first_replacement table line = None.
Proof.
  induction table as [|[pat repl] table IH]; [reflexivity|].
  simpl. destruct (search pat line); simpl; [discriminate|exact IH].
Qed.

(** C3, as stated, fails: an issue whose line number exceeds the number of
    lines of the file makes each synthesizer raise [IndexError]. *)
Lemma synthesize_beyond_end_raises :
  FS.read stale_fs stale_file = Ok (L "let x = 1" ++ [nl]) /\
  generate_fix stale_fs (stale_issue (L "buildExpression")) = Raise IndexError /\
  generate_fix stale_fs (stale_issue (L "deprecated_api")) = Raise IndexError /\
  generate_fix stale_fs (stale_issue (L "sendable_conformance")) = Raise IndexError.
Proof. repeat split; vm_compute; reflexivity. Qed.

Lemma bind_Ok {A B : Type} (a : A) (f : A -> result B) : bind (Ok a) f = f a.
Proof. reflexivity. Qed.

Lemma generate_fix_build (fs : FS.t) (issue : Issue.t) :
  Issue.type issue = L "buildExpression" ->
  generate_fix fs issue = (f <- fix_build_expression fs issue ;; Ok (FixDict f)).
Proof. intros H. unfold generate_fix. rewrite H. reflexivity. Qed.

Lemma generate_fix_deprecated (fs : FS.t) (issue : Issue.t) :
  Issue.type issue = L "deprecated_api" ->
  generate_fix fs issue = (f <- fix_deprecated_api fs issue ;; Ok (FixDict f)).
Proof. intros H. unfold generate_fix. rewrite H. reflexivity. Qed.

Lemma generate_fix_sendable (fs : FS.t) (issue : Issue.t) :
  Issue.type issue = L "sendable_conformance" ->
  generate_fix fs issue = (f <- fix_sendable_conformance fs issue ;; Ok (FixDict f)).
Proof. intros H. unfold generate_fix. rewrite H. reflexivity. Qed.

(** Each synthesizer reads the file and takes the line of the issue. *)
Ltac read_line Hc Hget :=
  unfold fix_build_expression, fix_deprecated_api, fix_sendable_conformance;
  rewrite Hc; rewrite bind_Ok; cbv zeta; rewrite Hget.

(** Beyond the last line every synthesizer raises [IndexError]. *)
Lemma generate_fix_beyond_end (fs : FS.t) (issue : Issue.t) (content : text) :
  FS.read fs (Issue.file issue) = Ok content ->
  Issue.type issue = L "buildExpression" \/
  Issue.type issue = L "deprecated_api" \/
  Issue.type issue = L "sendable_conformance" ->
  (Z.of_nat (length (lines_read (Issue.type issue) content)) < Issue.line issue)%Z ->
  generate_fix fs issue = Raise IndexError.
Proof.
  intros Hc Hty Hlen.
  assert (Hget : getitem (lines_read (Issue.type issue) content)
                         (Issue.line issue - 1) = Raise IndexError)
    by (apply getitem_above; lia).
  unfold lines_read in Hget.
  destruct Hty as [Hty|[Hty|Hty]]; rewrite Hty in Hget;
    [rewrite generate_fix_build by assumption
    |rewrite generate_fix_deprecated by assumption
    |rewrite generate_fix_sendable by assumption];
    change (text_eqb _ _) with false in Hget ||
    change (text_eqb _ _) with true in Hget;
    cbv iota in Hget; read_line Hc Hget; reflexivity.
Qed.

(** C3, amended: for an issue of one of the three types on an existing
    file, when the line number lies within the lines the synthesizer reads
    and that line passes none of the synthesizer's own tests, the result is
    a fix record for the same file and line, with the stripped line as
    original and no replacement: no exception is raised and no line is
    transformed. *)
Theorem synthesize_stale_line
        (fs : FS.t) (issue : Issue.t) (content line : text) :
  FS.read fs (Issue.file issue) = Ok content ->
  Issue.type issue = L "buildExpression" \/
  Issue.type issue = L "deprecated_api" \/
  Issue.type issue = L "sendable_conformance" ->
  (1 <= Issue.line issue)%Z ->
  nth_error (lines_read (Issue.type issue) content)
            (Z.to_nat (Issue.line issue - 1)) = Some line ->
  fix_rule_matches (Issue.type issue) line = false ->
  generate_fix fs issue =
    Ok (FixDict (Fix.mk (Issue.file issue) (Issue.line issue) (strip line)
                   None (manual_message (Issue.type issue)))).
Proof.
  intros Hc Hty Hpos Hnth Hno.
  assert (Hline : (Issue.line issue - 1 + 1 = Issue.line issue)%Z) by lia.
  assert (Hget : getitem (lines_read (Issue.type issue) content)
                         (Issue.line issue - 1) = Ok line)
    by (apply getitem_inside; [lia|exact Hnth]).
  unfold lines_read in Hget. unfold fix_rule_matches in Hno.
  destruct Hty as [Hty|[Hty|Hty]]; rewrite Hty in Hget, Hno; rewrite Hty;
    [rewrite generate_fix_build by assumption
    |rewrite generate_fix_deprecated by assumption
    |rewrite generate_fix_sendable by assumption].
  - change (text_eqb _ _) with false in Hget. cbv iota in Hget.
    change (text_eqb (L "buildExpression") (L "buildExpression")) with true in Hno.
    cbv iota in Hno.
    read_line Hc Hget. rewrite bind_Ok, Hline.
    apply orb_false_iff in Hno as [Hv Ht]. rewrite Hv.
    destruct (contains (L "Text(") line && contains (L "\(") line
              && contains (L "?") line)%bool eqn:E; [|reflexivity].
    simpl in Ht. destruct (search conditional_pattern line); [discriminate|].
    reflexivity.
  - change (text_eqb _ _) with true in Hget. cbv iota in Hget.
    change (text_eqb (L "deprecated_api") (L "buildExpression")) with false in Hno.
    change (text_eqb (L "deprecated_api") (L "deprecated_api")) with true in Hno.
    cbv iota in Hno.
    read_line Hc Hget. rewrite bind_Ok, Hline.
    rewrite first_replacement_none by exact Hno. reflexivity.
  - change (text_eqb _ _) with false in Hget. cbv iota in Hget.
    change (text_eqb (L "sendable_conformance") (L "buildExpression"))
      with false in Hno.
    change (text_eqb (L "sendable_conformance") (L "deprecated_api"))
      with false in Hno.
    cbv iota in Hno.
    read_line Hc Hget. rewrite bind_Ok, Hline.
    destruct (search class_pattern line); [discriminate|]. reflexivity.
Qed.

(* ================================================================== *)
(** * Detection of deprecated APIs *)
(* ================================================================== *)





(* ================================================================== *)
(** * The fix of a deprecated API *)
(* ================================================================== *)

Example literal_runs_api_replacements :
  map (fun pr => literal_runs (snd pr)) api_replacements
  = [ [L "AVURLAsset(url: "; L ")"];
      [L "try await "; L ".load(.duration)"];
      [L "try await "; L ".loadTracks(withMediaType: "; L ")"];
      [L "try await "; L ".load(.nominalFrameRate)"];
      [L "try await "; L ".load(.naturalSize)"];
      [L ""; L ".generateCGImageAsynchronously(for: ";
       L ") { cgImage, actualTime, error in"] ].
Proof. reflexivity. Qed.

(** When two patterns of the fix table match a line, the first one in
    the table is the only one substituted. *)
Example first_fix_pattern_wins :
  option_map (fun m => (group0 m, group m 1))
             (search (fst natural_size_fix) (L "let x = a.duration + b.naturalSize"))
  = Some (L "b.naturalSize", Some (L "b")) /\
  replacement_of
    (fix_deprecated_api two_fixes_fs two_fixes_issue)
  = Some (L "let x = try await a.load(.duration) + b.naturalSize").
Proof. repeat split; vm_compute; reflexivity. Qed.

Example template_groups_api_replacements :
  map (fun pr => (length (group_ids (fst pr)), template_groups (snd pr)))
      api_replacements
  = [(1, [1]); (1, [1]); (2, [1; 2]); (1, [1]); (1, [1]); (3, [1; 2])].
Proof. reflexivity. Qed.

(** C8, as stated, fails: on [g.copyCGImage(at: t, actualTime: nil)] the
    only pattern of the fix table that matches is the [copyCGImage] one; its
    third capture group is [nil], and the replacement does not contain
    it: the template refers to the first two groups only. *)
Lemma copy_image_drops_third_group :
  let line := L "let i = try g.copyCGImage(at: t, actualTime: nil)" in
  let fixed :=
    L "let i = try g.generateCGImageAsynchronously(for: t) { cgImage, actualTime, error in" in
  FS.read copy_image_fs (Issue.file copy_image_issue) = Ok (line ++ [nl]) /\
  existsb (fun pr => is_some (search (fst pr) line)) (firstn 5 api_replacements)
  = false /\
  option_map (fun m => (group m 1, group m 2, group m 3))
             (search (fst copy_image_fix) line)
  = Some (Some (L "g"), Some (L "t"), Some (L "nil")) /\
  replacement_of (fix_deprecated_api copy_image_fs copy_image_issue) = Some fixed /\
  contains (L "nil") fixed = false.
Proof. repeat split; vm_compute; reflexivity. Qed.

Lemma expand_app (t1 t2 : list titem) (cs : caps) :
  expand (t1 ++ t2) cs = expand t1 cs ++ expand t2 cs.
Proof. unfold expand. now rewrite map_app, concat_app. Qed.

Lemma expand_contains_group (t : list titem) (cs : caps) (n : nat) (G : text) :
  In (TGroup n) t -> lookup n cs = Some G -> contains G (expand t cs) = true.
Proof.
  intros Hin HG. apply in_split in Hin as (t1 & t2 & ->).
  apply contains_iff. exists (expand t1 cs), (expand t2 cs).
  change (TGroup n :: t2) with ([TGroup n] ++ t2). rewrite !expand_app.
  unfold expand at 2. simpl. rewrite HG, app_nil_r. reflexivity.
Qed.

Lemma runs_in_expand (cs : caps) (t : list titem) :
  forall cur tok,
    In tok (runs t cur) -> exists a b, rev cur ++ expand t cs = a ++ tok ++ b.
Proof.
  induction t as [|[c|n] t IH]; intros cur tok H; simpl in H.
  - destruct H as [<-|[]]. exists [], []. reflexivity.
  - apply IH in H as (a & b & E). exists a, b. rewrite <- E.
    simpl. rewrite <- app_assoc. reflexivity.
  - destruct H as [<-|H].
    + exists [], (expand (TGroup n :: t) cs). reflexivity.
    + apply IH in H as (a & b & E). simpl in E.
      change (TGroup n :: t) with ([TGroup n] ++ t). rewrite expand_app, E.
      exists (rev cur ++ expand [TGroup n] cs ++ a), b.
      now rewrite <- !app_assoc.
Qed.

Lemma literal_runs_in_expand (cs : caps) (t : list titem) (tok : text) :
  In tok (literal_runs t) -> contains tok (expand t cs) = true.
Proof.
  intros H. apply contains_iff.
  apply (runs_in_expand cs) in H. exact H.
Qed.

Lemma first_replacement_first (table before after : list (regex * list titem))
      (pat : regex) (tmpl : list titem) (line : text) (m : mobj) :
  table = before ++ (pat, tmpl) :: after ->
  Forall (fun pr => search (fst pr) line = None) before ->
  search pat line = Some m ->
  first_replacement table line = Some (sub pat tmpl line).
Proof.
  intros -> Hbefore Hm. induction Hbefore as [|[p t] before Hp _ IH]; simpl.
  - now rewrite Hm.
  - simpl in Hp. now rewrite Hp.
Qed.

Lemma expand_first_lit (c : ascii) (t : list titem) (cs : caps) :
  expand (TLit c :: t) cs = c :: expand t cs.
Proof. reflexivity. Qed.

Lemma expand_last_lit (c : ascii) (t : list titem) (cs : caps) :
  hd_error (rev (expand (t ++ [TLit c]) cs)) = Some c.
Proof. rewrite expand_app, rev_app_distr. reflexivity. Qed.

Lemma word_not_space (c : ascii) : is_word c = true -> is_space c = false.
Proof.
  destruct c as [b0 b1 b2 b3 b4 b5 b6 b7].
  destruct b0, b1, b2, b3, b4, b5, b6, b7; vm_compute; congruence.
Qed.

(** The instantiated template of a fix rule begins and ends with a
    character that is not white space. *)
Lemma api_expansion_core (pat : regex) (tmpl : list titem) (line : text)
      (m : mobj) :
  In (pat, tmpl) api_replacements ->
  search pat line = Some m ->
  exists x E' y,
    expand tmpl (groups m) = x :: E' /\
    hd_error (rev (expand tmpl (groups m))) = Some y /\
    is_space x = false /\ is_space y = false.
Proof.
  intros Hin Hm.
  simpl in Hin.
  destruct Hin as [H|[H|[H|[H|[H|[H|[]]]]]]]; injection H as <- <-.
  1-5: (eexists; eexists; eexists; split; [apply expand_first_lit|];
        split;
        [match goal with
         | |- hd_error (rev (expand ?t _)) = _ =>
             change t with (removelast t ++ [last t (TLit " ")])
         end; simpl last; apply expand_last_lit
        |split; reflexivity]).
  apply search_from_inv in Hm as (i & _ & Hm). unfold match_at in Hm.
  match type of Hm with
  | match ?e with _ => _ end = _ => destruct e as [[e0 cs]|] eqn:E; [|discriminate]
  end.
  injection Hm as <-. simpl groups.
  apply rmatch_word_group in E as (n & Hn1 & Hn2 & Hword & Hg);
    [|simpl; intuition discriminate].
  destruct (firstn n (skipn i line)) as [|x G] eqn:EG.
  { apply (f_equal (@length ascii)) in EG. rewrite length_firstn in EG.
    simpl in EG. lia. }
  exists x. eexists. exists "n"%char.
  split.
  { unfold expand. simpl map. simpl concat. rewrite Hg. reflexivity. }
  split.
  { match goal with
    | |- hd_error (rev (expand ?t _)) = _ =>
        change t with (removelast t ++ [last t (TLit " ")])
    end. simpl last. apply expand_last_lit. }
  split; [|reflexivity].
  apply word_not_space. now inversion Hword.
Qed.

Lemma template_groups_In (t : list titem) (n : nat) :
  In n (template_groups t) -> In (TGroup n) t.
Proof.
  induction t as [|[c|k] t IH]; simpl; [tauto|auto|].
  intros [->|H]; auto.
Qed.

(** C8, amended: when [pat] is the first pattern of the fix table that
    the line matches, the replacement holds the template of [pat] filled
    with the groups of the leftmost match.  It therefore contains,
    unchanged, every capture group the template refers to, the first one
    (the receiver, or the url argument) among them, and every literal
    piece of the template, the modern API call among them. *)
Theorem fix_deprecated_api_keeps_receiver
        (fs : FS.t) (issue : Issue.t) (content line : text)
        (before after : list (regex * list titem))
        (pat : regex) (tmpl : list titem) (m : mobj) :
  FS.read fs (Issue.file issue) = Ok content ->
  (1 <= Issue.line issue)%Z ->
  nth_error (splitlines content) (Z.to_nat (Issue.line issue - 1)) = Some line ->
  api_replacements = before ++ (pat, tmpl) :: after ->
  Forall (fun pr => search (fst pr) line = None) before ->
  search pat line = Some m ->
  exists r,
    fix_deprecated_api fs issue =
      Ok (Fix.mk (Issue.file issue) (Issue.line issue) (strip line) (Some r)
            (L "Replace deprecated API with modern equivalent")) /\
    contains (expand tmpl (groups m)) r = true /\
    In 1 (template_groups tmpl) /\
    (forall n G, In n (template_groups tmpl) -> group m n = Some G ->
                 contains G r = true) /\
    (forall G, group m 1 = Some G -> contains G r = true) /\
    Forall (fun tok => contains tok r = true) (literal_runs tmpl).
Proof.
  intros Hc Hpos Hnth Htable Hbefore Hm.
  assert (Hget : getitem (splitlines content) (Issue.line issue - 1) = Ok line)
    by (apply getitem_inside; [lia|exact Hnth]).
  assert (Hline : (Issue.line issue - 1 + 1 = Issue.line issue)%Z) by lia.
  exists (strip (sub pat tmpl line)). split.
  { read_line Hc Hget. rewrite bind_Ok, Hline.
    erewrite first_replacement_first; eauto. }
  assert (Hin : In (pat, tmpl) api_replacements)
    by (rewrite Htable; apply in_elt).
  assert (Hgroup1 : In 1 (template_groups tmpl)).
  { clear - Hin. simpl in Hin.
    destruct Hin as [H|[H|[H|[H|[H|[H|[]]]]]]]; injection H as <- <-;
      simpl; auto. }
  destruct (@api_expansion_core pat tmpl line m Hin Hm)
    as (x & E' & y & HE & Hlast & Hx & Hy).
  destruct (@sub_from_first pat tmpl line 0 m Hm) as (i & rest & _ & Hsub).
  assert (Hcore : contains (expand tmpl (groups m)) (strip (sub pat tmpl line)) = true).
  { unfold sub. rewrite Hsub.
    destruct (@strip_keeps_core (firstn i line) _ rest x y E' HE Hlast Hx Hy)
      as (a' & b' & ->).
    apply contains_iff. eauto. }
  assert (Hgroups : forall n G, In n (template_groups tmpl) -> group m n = Some G ->
                                contains G (strip (sub pat tmpl line)) = true).
  { intros n G Hn HG. eapply contains_trans; [|exact Hcore].
    eapply expand_contains_group; [apply template_groups_In; exact Hn|exact HG]. }
  split; [exact Hcore|]. split; [exact Hgroup1|]. split; [exact Hgroups|]. split.
  - intros G HG. exact (Hgroups 1 G Hgroup1 HG).
  - apply Forall_forall. intros tok Htok.
    eapply contains_trans; [|exact Hcore].
    now apply literal_runs_in_expand.
Qed.

(** The scenario of the specification: [let d = asset.duration]. *)
Example duration_scenario :
  check_deprecated_apis duration_content duration_file = [duration_issue] /\
  replacement_of (fix_deprecated_api duration_fs duration_issue)
  = Some (L "let d = try await asset.load(.duration)").
Proof. split; vm_compute; reflexivity. Qed.

Lemma fix_deprecated_api_keeps_receiver_witness :
  let tmpl := snd (nth 1 api_replacements (Eps, [])) in
  let m := mkM 8 22 (L "asset.duration") [(1, L "asset")] in
  exists r,
    fix_deprecated_api duration_fs duration_issue =
      Ok (Fix.mk duration_file 1 (strip (L "let d = asset.duration")) (Some r)
            (L "Replace deprecated API with modern equivalent")) /\
    contains (expand tmpl (groups m)) r = true /\
    In 1 (template_groups tmpl) /\
    (forall n G, In n (template_groups tmpl) -> group m n = Some G ->
                 contains G r = true) /\
    (forall G, group m 1 = Some G -> contains G r = true) /\
    Forall (fun tok => contains tok r = true) (literal_runs tmpl).
Proof.
  intros tmpl m.
  apply (@fix_deprecated_api_keeps_receiver
           duration_fs duration_issue duration_content
           (L "let d = asset.duration")
           (firstn 1 api_replacements) (skipn 2 api_replacements)
           (fst (nth 1 api_replacements (Eps, [])))
           tmpl m).
  - reflexivity.
  - simpl. lia.
  - reflexivity.
  - reflexivity.
  - repeat constructor.
  - vm_compute. reflexivity.
Defined.

(* ================================================================== *)
(** * The fix of a missing Sendable conformance *)
(* ================================================================== *)

Lemma replace_char_app (c : ascii) (new a b : text) :
  replace [c] new (a ++ b) = replace [c] new a ++ replace [c] new b.
Proof.
  unfold replace. induction a as [|x a IH]; [reflexivity|].
  simpl. destruct (Ascii.eqb c x); simpl.
  - rewrite IH, <- app_assoc. reflexivity.
  - now rewrite IH.
Qed.

Lemma replace_char_hit (c : ascii) (new : text) : replace [c] new [c] = new.
Proof. unfold replace. simpl. now rewrite ascii_eqb_refl, app_nil_r. Qed.


(** The first occurrence of a non-empty text is replaced. *)
Lemma replace_first (old new s : text) :
  old <> [] -> contains old s = true ->
  exists a b, replace old new s = a ++ new ++ b.
Proof.
  intros Hold. unfold replace. destruct old as [|o old]; [congruence|].
  induction s as [|c s IH]; intros H.
  - simpl in H. discriminate.
  - cbn [contains] in H. cbn [replace_from].
    destruct (startswith (o :: old) (c :: s)) eqn:E.
    + exists []. eexists. reflexivity.
    + simpl in H. destruct (IH H) as (a & b & Hr).
      exists (c :: a), b. now rewrite Hr.
Qed.

Lemma contains_strip (m s : text) (x y : ascii) (m' : text) :
  m = x :: m' -> hd_error (rev m) = Some y ->
  is_space x = false -> is_space y = false ->
  contains m s = true -> contains m (strip s) = true.
Proof.
  intros Hm Hlast Hx Hy Hc. apply contains_iff in Hc as (a & b & ->).
  destruct (@strip_keeps_core a m b x y m' Hm Hlast Hx Hy) as (a' & b' & ->).
  apply contains_iff. eauto.
Qed.


(** A match of [class\s+(\w+)]: group 1 is a non-empty run of word
    characters of the line. *)
Lemma class_pattern_inv (line : text) (m : mobj) :
  search class_pattern line = Some m ->
  exists a b x w',
    line = a ++ group1 m ++ b /\
    group1 m = x :: w' /\
    Forall (fun c => is_word c = true) (group1 m).
Proof.
  intros H. apply search_from_inv in H as (i & _ & H).
  unfold match_at in H.
  match type of H with
  | match ?e with _ => _ end = _ => destruct e as [[e0 cs]|] eqn:E; [|discriminate]
  end.
  injection H as <-. unfold group1, group. simpl groups.
  unfold class_pattern in E.
  apply rmatch_lit in E as (s1 & E1 & E).
  apply rmatch_lit in E as (s2 & -> & E).
  apply rmatch_lit in E as (s3 & -> & E).
  apply rmatch_lit in E as (s4 & -> & E).
  apply rmatch_lit in E as (s5 & -> & E).
  cbn [rmatch] in E.
  apply rep_greedy_inv in E as (n1 & _ & _ & _ & E).
  apply rep_greedy_inv in E as (n2 & Hn2 & Hlen & Hword & E).
  injection E as _ <-. cbn [lookup Nat.eqb].
  match goal with
  | |- context [firstn (?p + n2 - ?p) _] => replace (p + n2 - p) with n2 by lia
  end.
  remember (skipn n1 s5) as s6.
  destruct (firstn n2 s6) as [|x w'] eqn:Ew.
  { apply (f_equal (@length ascii)) in Ew. rewrite length_firstn in Ew.
    simpl in Ew. lia. }
  exists (firstn i line ++ L "class" ++ firstn n1 s5), (skipn n2 s6), x, w'.
  split; [|split; [reflexivity|exact Hword]].
  rewrite <- Ew. rewrite <- !app_assoc. rewrite firstn_skipn.
  subst s6. rewrite firstn_skipn.
  change (L "class" ++ s5) with ("c" :: "l" :: "a" :: "s" :: "s" :: s5)%char.
  rewrite <- E1. now rewrite firstn_skipn.
Qed.




(** A declaration whose name stands on the line after [class] is
    reported at the line of [class], where the fix finds no declaration. *)
Example sendable_split_declaration :
  check_sendable_conformance split_class_content split_class_file
  = [split_class_issue] /\
  Issue.line split_class_issue = 1%Z /\
  fix_sendable_conformance split_class_fs split_class_issue
  = Ok (Fix.mk split_class_file 1 (L "class") None
          (L "Manual fix required for Sendable conformance")).
Proof. repeat split; vm_compute; reflexivity. Qed.

(** Of two declarations on one line, the fix of either issue annotates
    the first. *)
Example sendable_two_on_a_line :
  map (fun i => (Issue.line i, Issue.message i))
      (check_sendable_conformance same_line_content same_line_file)
  = [(1%Z, L "Class A might need Sendable conformance for use in async contexts");
     (1%Z, L "Class B might need Sendable conformance for use in async contexts")] /\
  map (fun i => replacement_of (fix_sendable_conformance same_line_fs i))
      (check_sendable_conformance same_line_content same_line_file)
  = [Some (L "class A: @unchecked Sendable {}; class B {}");
     Some (L "class A: @unchecked Sendable {}; class B {}")].
Proof. repeat split; vm_compute; reflexivity. Qed.


Example sendable_scenario :
  check_sendable_conformance sendable_content sendable_file
  = [sendable_example_issue] /\
  replacement_of (fix_sendable_conformance sendable_fs sendable_example_issue)
  = Some (L "final class Cache: @unchecked Sendable, NSObject {").
Proof. split; vm_compute; reflexivity. Qed.


(* ================================================================== *)
(** * The container-with-spacing fix is not detected again *)
(* ================================================================== *)

Lemma rep_greedy_done (cl : cclass) (cs : caps) (s : text) :
  forall pos,
    exists n, rep_greedy cl 0 s pos cs k_done = Some (pos + n, cs) /\
              Forall (fun c => cmatch cl c = true) (firstn n s).
Proof.
  induction s as [|c s IH]; intros pos.
  - exists 0. rewrite Nat.add_0_r. split; [reflexivity|constructor].
  - simpl. destruct (cmatch cl c) eqn:Ec.
    + destruct (IH (S pos)) as (n & -> & Hall). exists (S n). split.
      * f_equal. f_equal. lia.
      * simpl. now constructor.
    + exists 0. rewrite Nat.add_0_r. split; [reflexivity|constructor].
Qed.

(** [re.match(r'^\s*', line)] always matches, and matches white space. *)
Lemma indent_of_spaces (line : text) :
  exists indent,
    indent_of line = Ok indent /\ Forall (fun c => is_space c = true) indent.
Proof.
  unfold indent_of, match_, match_at, indent_pattern. cbn [rmatch Nat.eqb].
  destruct (rep_greedy_done CSpace [] line 0) as (n & Hn & Hall).
  unfold k_done in Hn. rewrite Hn. simpl.
  exists (firstn (n - 0) line). split; [reflexivity|].
  now rewrite Nat.sub_0_r.
Qed.

Lemma strip_vstack (indent spacing : text) :
  Forall (fun c => is_space c = true) indent ->
  strip ((indent ++ L "VStack {" ++ [nl])
         ++ (indent ++ L "    Spacer().frame(height: " ++ spacing ++ L ")" ++ [nl]))
  = L "VStack {" ++ [nl]
    ++ indent ++ L "    Spacer().frame(height: " ++ spacing ++ L ")".
Proof.
  intros Hind. unfold strip.
  rewrite <- app_assoc. rewrite lstrip_spaces by assumption.
  unfold L at 1. simpl String.list_ascii_of_string.
  cbn [app]. rewrite lstrip_nonspace by reflexivity.
  set (body := indent ++ L "    Spacer().frame(height: " ++ spacing).
  replace ("V" :: "S" :: "t" :: "a" :: "c" :: "k" :: " " :: "{" :: nl
           :: indent ++ L "    Spacer().frame(height: " ++ spacing ++ L ")" ++ [nl])%char
    with ((("V" :: "S" :: "t" :: "a" :: "c" :: "k" :: " " :: "{" :: nl :: body)
           ++ [")"%char]) ++ [nl])%char.
  - rewrite rstrip_spaces by (repeat constructor).
    rewrite rstrip_nonspace by reflexivity.
    subst body. unfold L at 3. simpl. rewrite <- !app_assoc. reflexivity.
  - subst body. simpl. rewrite <- !app_assoc. reflexivity.
Qed.

Lemma lines_ok_In (ls : list text) (l : text) :
  lines_ok ls -> In l ls -> line_full l \/ line_last l.
Proof.
  induction ls as [|x ls IH]; intros Hok Hin; [contradiction|].
  destruct Hin as [<-|Hin].
  - destruct ls; simpl in Hok; tauto.
  - apply IH; [eapply lines_ok_tail; eauto|exact Hin].
Qed.

Lemma space_V : is_space "V" = false.
Proof. reflexivity. Qed.

(** The leading white space of a line that holds the idiom has no line
    feed. *)
Lemma indent_no_nl (content line indent rest : text) (n : nat) :
  nth_error (readlines content) n = Some line ->
  line = indent ++ rest ->
  Forall (fun c => is_space c = true) indent ->
  contains (L "VStack(spacing:") line = true ->
  count nl indent = 0.
Proof.
  intros Hnth Hline Hspace Hin.
  assert (Hrest : rest <> []).
  { intros ->. rewrite app_nil_r in Hline. subst line.
    apply contains_iff in Hin as (a & b & E). rewrite E in Hspace.
    apply Forall_app in Hspace as [_ Hs]. inversion Hs as [|? ? HV _].
    rewrite space_V in HV. discriminate. }
  destruct (@exists_last _ rest Hrest) as (rest0 & z & ->).
  assert (Hshape : line_full line \/ line_last line).
  { apply (@lines_ok_In (readlines content));
      [apply readlines_ok|eapply nth_error_In; eauto]. }
  destruct Hshape as [(body & E & Hb)|[_ Hc]].
  - rewrite Hline in E. rewrite app_assoc in E.
    apply app_inj_tail in E as [E _]. rewrite <- E in Hb.
    rewrite count_app in Hb. lia.
  - rewrite Hline, count_app in Hc. lia.
Qed.

Lemma digit_not_nl (c : ascii) : is_digit c = true -> Ascii.eqb c nl = false.
Proof.
  intros H. destruct (Ascii.eqb c nl) eqn:E; [|reflexivity].
  apply Ascii.eqb_eq in E. subst c. discriminate.
Qed.

Lemma count_digits (s : text) :
  Forall (fun c => is_digit c = true) s -> count nl s = 0.
Proof.
  induction 1 as [|c s Hc _ IH]; [reflexivity|].
  simpl. now rewrite (digit_not_nl _ Hc), IH.
Qed.

(** A match of [spacing:\s*(\d+)]: group 1 is a non-empty run of digits. *)
Lemma spacing_pattern_inv (line : text) (m : mobj) :
  search spacing_pattern line = Some m ->
  group1 m <> [] /\ Forall (fun c => is_digit c = true) (group1 m).
Proof.
  intros H. apply search_from_inv in H as (i & _ & H).
  unfold match_at in H.
  match type of H with
  | match ?e with _ => _ end = _ => destruct e as [[e0 cs]|] eqn:E; [|discriminate]
  end.
  injection H as <-. unfold group1, group. simpl groups.
  unfold spacing_pattern in E.
  repeat match type of E with
         | rmatch (Seq (Chr (CLit _)) _) _ _ _ _ = Some _ =>
             apply rmatch_lit in E as (? & ? & E)
         end.
  cbn [rmatch] in E.
  apply rep_greedy_inv in E as (n1 & _ & _ & _ & E).
  apply rep_greedy_inv in E as (n2 & Hn2 & Hlen & Hdigit & E).
  injection E as _ <-. cbn [lookup Nat.eqb].
  match goal with
  | |- context [firstn (?p + n2 - ?p) _] => replace (p + n2 - p) with n2 by lia
  end.
  split; [|exact Hdigit].
  intros E. apply (f_equal (@length ascii)) in E.
  rewrite length_firstn in E. simpl in E. lia.
Qed.

Lemma count_digits_cr (s : text) :
  Forall (fun c => is_digit c = true) s -> count cr s = 0.
Proof.
  induction 1 as [|c s Hc _ IH]; [reflexivity|].
  simpl. rewrite IH. destruct (Ascii.eqb c cr) eqn:E; [|reflexivity].
  apply Ascii.eqb_eq in E. subst c. discriminate.
Qed.

Lemma length_lstrip_le (s : text) : length (lstrip s) <= length s.
Proof.
  induction s as [|c s IH]; simpl; [lia|].
  destruct (is_space c); simpl; lia.
Qed.

(** A line is its leading white space followed by the rest. *)
Lemma leading_space_split (line : text) :
  line = leading_space line ++ lstrip line /\
  Forall (fun c => is_space c = true) (leading_space line).
Proof.
  destruct (lstrip_suffix line) as (a & Ha & Hf).
  assert (Hlen : length line = length a + length (lstrip line))
    by (rewrite Ha at 1; apply length_app).
  assert (E : leading_space line = a).
  { unfold leading_space.
    replace (length line - length (lstrip line)) with (length a) by lia.
    rewrite Ha. apply firstn_front. }
  rewrite E. auto.
Qed.

Lemma leading_space_cons (c : ascii) (s : text) :
  leading_space (c :: s) = if is_space c then c :: leading_space s else [].
Proof.
  unfold leading_space. cbn [lstrip]. destruct (is_space c).
  - pose proof (length_lstrip_le s). cbn [length].
    replace (S (length s) - length (lstrip s))
      with (S (length s - length (lstrip s))) by lia.
    reflexivity.
  - now rewrite Nat.sub_diag.
Qed.

(** [\s*] at the end of a pattern takes the leading white space. *)
Lemma rep_greedy_space (cs : caps) (s : text) :
  forall pos,
    exists n, rep_greedy CSpace 0 s pos cs k_done = Some (pos + n, cs) /\
              firstn n s = leading_space s.
Proof.
  induction s as [|c s IH]; intros pos.
  - exists 0. rewrite Nat.add_0_r. split; reflexivity.
  - rewrite leading_space_cons. cbn [rep_greedy cmatch pred].
    destruct (is_space c) eqn:Ec.
    + destruct (IH (S pos)) as (n & -> & Hn). exists (S n). split.
      * f_equal. f_equal. lia.
      * simpl firstn. now rewrite Hn.
    + exists 0. rewrite Nat.add_0_r. split; reflexivity.
Qed.

(** [re.match(r'^\s*', line)] always matches, and group 0 is the leading
    white space of the line. *)
Lemma indent_of_leading_space (line : text) :
  indent_of line = Ok (leading_space line).
Proof.
  unfold indent_of, match_, match_at, indent_pattern. cbn [rmatch Nat.eqb].
  destruct (rep_greedy_space [] line 0) as (n & Hn & Hl).
  unfold k_done in Hn. rewrite Hn. simpl.
  rewrite Nat.sub_0_r, Hl. reflexivity.
Qed.

(** A line of a text that was read holds no carriage return. *)
Lemma line_no_cr (content line : text) (n : nat) :
  count cr content = 0 ->
  nth_error (readlines content) n = Some line ->
  count cr line = 0.
Proof.
  intros Hcr Hnth. apply readlines_nth in Hnth.
  rewrite Hnth, !count_app in Hcr. lia.
Qed.

Lemma spacing_of_digits (line : text) :
  count nl (spacing_of line) = 0 /\ count cr (spacing_of line) = 0.
Proof.
  unfold spacing_of. destruct (search spacing_pattern line) as [m|] eqn:E.
  - destruct (spacing_pattern_inv _ E) as [_ Hd].
    split; [now apply count_digits|now apply count_digits_cr].
  - split; reflexivity.
Qed.

(** The fix of the container-with-spacing idiom on a line that holds it,
    and what [apply_fix] does with it. *)
Lemma vstack_fix_applied (fs : FS.t) (issue : Issue.t) (content line : text) :
  FS.read fs (Issue.file issue) = Ok content ->
  (1 <= Issue.line issue)%Z ->
  nth_error (readlines content) (Z.to_nat (Issue.line issue - 1)) = Some line ->
  contains (L "VStack(spacing:") line = true ->
  let n := Z.to_nat (Issue.line issue - 1) in
  let indent := leading_space line in
  let spacing := spacing_of line in
  let r := L "VStack {" ++ [nl] ++ indent
           ++ L "    Spacer().frame(height: " ++ spacing ++ L ")" in
  let f := Fix.mk (Issue.file issue) (Issue.line issue) (strip line) (Some r)
             (L "Replace VStack(spacing: " ++ spacing
                ++ L ") with VStack and explicit Spacer") in
  let written := concat (overwrite (readlines content) n r) in
  fix_build_expression fs issue = Ok f /\
  apply_fix fs f
  = (Ok (L "Applied fix to " ++ Issue.file issue ++ L " line "
           ++ str_of_int (Issue.line issue)),
     FS.write fs (Issue.file issue) written) /\
  FS.read (FS.write fs (Issue.file issue) written) (Issue.file issue) = Ok written /\
  count nl r = 1.
Proof.
  intros Hc Hpos Hnth Hv n indent spacing r f written.
  assert (Hget : getitem (readlines content) (Issue.line issue - 1) = Ok line)
    by (apply getitem_inside; [lia|exact Hnth]).
  assert (Hline : (Issue.line issue - 1 + 1 = Issue.line issue)%Z) by lia.
  fold n in Hnth.
  assert (Hn : n < length (readlines content))
    by (apply nth_error_Some; congruence).
  destruct (leading_space_split line) as [Hsplit Hspaces]. fold indent in Hsplit, Hspaces.
  destruct (spacing_of_digits line) as [Hsnl Hscr]. fold spacing in Hsnl, Hscr.
  pose proof (read_no_cr _ _ Hc) as Hcr.
  assert (Hrcr : count cr r = 0).
  { pose proof (line_no_cr _ _ Hcr Hnth) as Hl.
    rewrite Hsplit, count_app in Hl.
    subst r. rewrite !count_app. rewrite Hscr.
    replace (count cr indent) with 0 by lia. reflexivity. }
  split.
  { read_line Hc Hget. rewrite bind_Ok, Hv, indent_of_leading_space, bind_Ok, Hline.
    fold indent. unfold spacing_of in spacing. fold spacing.
    rewrite (@strip_vstack indent spacing Hspaces). reflexivity. }
  split.
  { apply (@apply_fix_writes fs f content r n); [exact Hc|reflexivity|].
    simpl Fix.line. rewrite norm_index_inside; [reflexivity|].
    pose proof Hn. lia. }
  split.
  { apply read_write_no_cr. subst written. now apply overwrite_no_cr. }
  subst r. rewrite !count_app.
  rewrite (@indent_no_nl content line indent (lstrip line) n Hnth Hsplit Hspaces Hv).
  rewrite Hsnl. reflexivity.
Qed.

Lemma count_firstn_le (c : ascii) (i : nat) (s : text) :
  count c (firstn i s) <= count c s.
Proof.
  revert i. induction s as [|x s IH]; intros [|i]; simpl; try lia.
  specialize (IH i). lia.
Qed.

Lemma concat_fulls_end (front : list text) :
  Forall line_full front ->
  concat front = [] \/ exists body, concat front = body ++ [nl].
Proof.
  induction 1 as [|l front (b & -> & _) _ IH]; [now left|].
  right. simpl. destruct IH as [->|(body & ->)].
  - exists b. now rewrite app_nil_r.
  - exists ((b ++ [nl]) ++ body). now rewrite <- !app_assoc.
Qed.

(** A position strictly inside the full lines [front] lies on one of
    them. *)
Lemma count_before_front (front : list text) (i : nat) (rest : text) :
  Forall line_full front ->
  i < length (concat front) ->
  count nl (firstn i (concat front ++ rest)) < length front.
Proof.
  intros Hfull Hi. rewrite firstn_app.
  replace (i - length (concat front)) with 0 by lia.
  simpl firstn. rewrite app_nil_r.
  rewrite <- (count_fulls Hfull).
  destruct (concat_fulls_end Hfull) as [E|(body & E)].
  - rewrite E in Hi. simpl in Hi. lia.
  - rewrite E in *. rewrite length_app in Hi. simpl in Hi.
    rewrite firstn_app. replace (i - length body) with 0 by lia.
    simpl firstn. rewrite app_nil_r, count_app. simpl.
    pose proof (count_firstn_le nl i body). lia.
Qed.

Lemma vstack_pattern_absent : absent_from_vstack_line vstack_pattern.
Proof.
  intros j rest pos Hj. unfold vstack_line, L in *. simpl in Hj.
  do 9 (destruct j as [|j]; [reflexivity|]). lia.
Qed.

Lemma text_interp_pattern_absent : absent_from_vstack_line text_interp_pattern.
Proof.
  intros j rest pos Hj. unfold vstack_line, L in *. simpl in Hj.
  do 9 (destruct j as [|j]; [reflexivity|]). lia.
Qed.

(** No match of such a pattern is reported on the line where
    [vstack_line] stands. *)
Lemma no_match_on_vstack_line (pat : regex) (front : list text) (rest : text)
      (m : mobj) :
  absent_from_vstack_line pat ->
  Forall line_full front ->
  In m (finditer pat (concat front ++ vstack_line ++ rest)) ->
  line_of (concat front ++ vstack_line ++ rest) m <> (Z.of_nat (length front) + 1)%Z.
Proof.
  intros Habs Hfull Hin. unfold finditer in Hin.
  apply finditer_from_inv in Hin as (i & Hi & Hm).
  destruct (match_at_start _ _ _ Hm) as [Hstart _]. simpl in Hstart.
  unfold line_of. rewrite Hstart.
  set (A := concat front) in *.
  destruct (Nat.lt_ge_cases i (length A)) as [Hlt|Hge].
  - pose proof (@count_before_front front i (vstack_line ++ rest) Hfull Hlt).
    fold A in H. lia.
  - destruct (Nat.lt_ge_cases (i - length A) (length vstack_line)) as [Hin|Hout].
    + rewrite skipn_app in Hm.
      rewrite skipn_all2 in Hm by lia. rewrite app_nil_l in Hm.
      rewrite Habs in Hm by exact Hin. discriminate.
    + rewrite app_assoc. rewrite firstn_app.
      rewrite firstn_all2 by (rewrite length_app; lia).
      rewrite !count_app. unfold A at 1. rewrite (count_fulls Hfull).
      change (count nl vstack_line) with 1. lia.
Qed.

(** C2, as stated, fails: the fix of [.nominalFrameRate] writes
    [load(.nominalFrameRate)], which the detection pattern matches again;
    the same issue is reported at the same line after the fix. *)
Lemma deprecated_fix_detected_again :
  detect frame_rate_content frame_rate_file = [frame_rate_issue] /\
  generate_fix frame_rate_fs frame_rate_issue = Ok (FixDict frame_rate_fix) /\
  apply_fix frame_rate_fs frame_rate_fix
  = (Ok (L "Applied fix to Track.swift line 1"),
     FS.write frame_rate_fs frame_rate_file frame_rate_fixed) /\
  detect frame_rate_fixed frame_rate_file = [frame_rate_issue].
Proof. repeat split; vm_compute; reflexivity. Qed.

(** For a structural-idiom issue whose line lies in the file and holds
    [VStack(spacing:], the synthesized fix has a replacement, [apply_fix]
    writes it, the file is read back as written, and detection on that
    content reports no structural-idiom issue at the line of the issue. *)
Lemma vstack_line_not_redetected
        (fs : FS.t) (issue : Issue.t) (content line : text) :
  FS.read fs (Issue.file issue) = Ok content ->
  (1 <= Issue.line issue)%Z ->
  nth_error (readlines content) (Z.to_nat (Issue.line issue - 1)) = Some line ->
  contains (L "VStack(spacing:") line = true ->
  exists f r status content',
    fix_build_expression fs issue = Ok f /\
    Fix.replacement f = Some r /\
    apply_fix fs f = (Ok status, FS.write fs (Issue.file issue) content') /\
    FS.read (FS.write fs (Issue.file issue) content') (Issue.file issue)
    = Ok content' /\
    forall i,
      In i (check_build_expression content' (Issue.file issue)) ->
      Issue.line i <> Issue.line issue.
Proof.
  intros Hc Hpos Hnth Hv.
  destruct (vstack_fix_applied fs issue Hc Hpos Hnth Hv)
    as (Hfix & Happly & Hread & _).
  set (n := Z.to_nat (Issue.line issue - 1)) in *.
  assert (Hn : n < length (readlines content))
    by (apply nth_error_Some; congruence).
  set (tail := leading_space line ++ L "    Spacer().frame(height: "
               ++ spacing_of line ++ L ")") in *.
  set (r := L "VStack {" ++ [nl] ++ tail) in *.
  eexists. exists r. eexists.
  exists (concat (overwrite (readlines content) n r)).
  split; [exact Hfix|]. split; [reflexivity|].
  split; [exact Happly|]. split; [exact Hread|].
  intros i Hi.
  pose proof (@lines_ok_firstn n (readlines content) (readlines_ok content) Hn)
    as Hfull.
  assert (Hlen : length (firstn n (readlines content)) = n)
    by (rewrite length_firstn; lia).
  assert (Hcontent : concat (overwrite (readlines content) n r)
                     = concat (firstn n (readlines content))
                       ++ vstack_line
                       ++ (tail ++ [nl] ++ concat (skipn (S n) (readlines content)))).
  { unfold overwrite. rewrite concat_app. f_equal.
    remember (skipn (S n) (readlines content)) as back.
    simpl concat. subst r. unfold vstack_line.
    rewrite <- !app_assoc. reflexivity. }
  rewrite Hcontent in Hi. unfold check_build_expression in Hi.
  assert (Htarget : Issue.line issue = (Z.of_nat n + 1)%Z) by (subst n; lia).
  rewrite Htarget, <- Hlen.
  apply in_app_or in Hi as [Hi|Hi]; apply in_map_iff in Hi as (m & <- & Hm);
    simpl Issue.line.
  - exact (@no_match_on_vstack_line vstack_pattern _ _ m
             vstack_pattern_absent Hfull Hm).
  - exact (@no_match_on_vstack_line text_interp_pattern _ _ m
             text_interp_pattern_absent Hfull Hm).
Qed.

Lemma first_line_starts (w post : text) :
  w <> [] -> count nl w = 0 ->
  exists t ls, readlines (w ++ post) = (w ++ t) :: ls.
Proof.
  induction w as [|x w IH]; intros Hne Hc; [congruence|].
  apply count_zero_cons in Hc as [Hx Hw]. simpl. rewrite Hx.
  destruct w as [|y w].
  - simpl. destruct (readlines post) as [|l ls].
    + exists [], []. reflexivity.
    + exists l, ls. reflexivity.
  - destruct (IH ltac:(discriminate) Hw) as (t & ls & ->).
    exists t, ls. reflexivity.
Qed.

(** A text without line feed that stands in a content lies on the line
    numbered by the line feeds before it. *)
Lemma line_at (pre w post : text) :
  w <> [] -> count nl w = 0 ->
  exists line,
    nth_error (readlines (pre ++ w ++ post)) (count nl pre) = Some line /\
    contains w line = true.
Proof.
  intros Hne Hc. induction pre as [|x pre (line & Hnth & Hin)].
  - destruct (first_line_starts post Hne Hc) as (t & ls & E).
    exists (w ++ t). simpl. rewrite E. split; [reflexivity|].
    apply contains_iff. exists [], t. reflexivity.
  - simpl. destruct (Ascii.eqb x nl) eqn:Ex.
    + exists line. simpl. auto.
    + simpl. destruct (readlines (pre ++ w ++ post)) as [|l ls] eqn:E.
      * destruct (count nl pre); discriminate.
      * destruct (count nl pre) as [|k].
        -- injection Hnth as <-. exists (x :: l). split; [reflexivity|].
           simpl. rewrite Hin. apply orb_true_r.
        -- exists line. auto.
Qed.

(** A match of the container-with-spacing pattern begins with
    [VStack(spacing:]. *)
Lemma vstack_match_prefix (s : text) (pos : nat) (m : mobj) :
  match_at vstack_pattern s pos = Some m ->
  exists s', s = L "VStack(spacing:" ++ s'.
Proof.
  unfold match_at.
  match goal with
  | |- match ?e with _ => _ end = _ -> _ =>
      destruct e as [[e0 cs]|] eqn:E; [|discriminate]
  end.
  intros _. unfold vstack_pattern in E.
  repeat match type of E with
         | rmatch (Seq (Chr (CLit _)) _) _ _ _ _ = Some _ =>
             apply rmatch_lit in E as (? & -> & E)
         end.
  eexists. reflexivity.
Qed.

(** C2, amended: for every issue that the container-with-spacing rule
    [VStack(spacing:...)] reports in a file, the synthesized fix has a
    replacement, [apply_fix] writes it, and detection on the resulting
    content, which is what the file is then read as, reports no
    structural-idiom issue at the line of the issue. *)
Theorem vstack_fix_not_redetected
        (fs : FS.t) (file_path content : text) (m : mobj) :
  FS.read fs file_path = Ok content ->
  In m (finditer vstack_pattern content) ->
  let issue := vstack_issue content file_path m in
  In issue (detect content file_path) /\
  exists f r status content',
    fix_build_expression fs issue = Ok f /\
    Fix.replacement f = Some r /\
    apply_fix fs f = (Ok status, FS.write fs file_path content') /\
    FS.read (FS.write fs file_path content') file_path = Ok content' /\
    forall i,
      In i (check_build_expression content' file_path) ->
      Issue.line i <> Issue.line issue.
Proof.
  intros Hc Hm issue. split.
  { unfold detect, check_build_expression. apply in_or_app. left.
    apply in_or_app. left. now apply in_map. }
  pose proof Hm as Hm'. unfold finditer in Hm'.
  apply finditer_from_inv in Hm' as (i & Hi & Hat).
  destruct (match_at_start _ _ _ Hat) as [Hstart _]. simpl in Hstart.
  apply vstack_match_prefix in Hat as (s' & Hs).
  assert (Hsplit : content = firstn i content ++ L "VStack(spacing:" ++ s').
  { rewrite <- Hs. now rewrite firstn_skipn. }
  destruct (@line_at (firstn i content) (L "VStack(spacing:") s')
    as (line & Hnth & Hin); [discriminate|reflexivity|].
  rewrite <- Hsplit in Hnth.
  apply (@vstack_line_not_redetected fs issue content line).
  - exact Hc.
  - subst issue. unfold vstack_issue, line_of. simpl. lia.
  - subst issue. unfold vstack_issue, line_of. simpl Issue.line.
    rewrite Hstart.
    replace (Z.to_nat (Z.of_nat (count nl (firstn i content)) + 1 - 1))
      with (count nl (firstn i content)) by lia.
    exact Hnth.
  - exact Hin.
Qed.

(* ================================================================== *)
(** * The scenario of the specification *)
(* ================================================================== *)

(** C1: on the 10-line file with [    VStack(spacing: 12) {] at line 5,
    detection reports one structural-idiom issue, at line 5, and applying
    the fix yields an 11-line file; but the replacement
    is [VStack {] followed by [        Spacer().frame(height: 12)]: its
    first line has lost the four spaces of indentation of the original
    line, and line 5 of the file written is [VStack {], not
    [    VStack {]. *)
Theorem vstack_scenario :
  length (readlines scenario_content) = 10 /\
  nth_error (readlines scenario_content) 4
  = Some (L "    VStack(spacing: 12) {" ++ [nl]) /\
  detect scenario_content scenario_file = [scenario_issue] /\
  generate_fix scenario_fs scenario_issue = Ok (FixDict scenario_fix) /\
  Fix.replacement scenario_fix
  <> Some (L "    VStack {" ++ [nl] ++ L "        Spacer().frame(height: 12)") /\
  apply_fix scenario_fs scenario_fix
  = (Ok (L "Applied fix to ContentView.swift line 5"),
     FS.write scenario_fs scenario_file scenario_fixed) /\
  length (readlines scenario_fixed) = 11 /\
  nth_error (readlines scenario_fixed) 4 = Some (L "VStack {" ++ [nl]) /\
  nth_error (readlines scenario_fixed) 5
  = Some (L "        Spacer().frame(height: 12)" ++ [nl]).
Proof.
  repeat split; try (vm_compute; reflexivity).
  vm_compute. discriminate.
Qed.

Lemma vstack_fix_not_redetected_witness :
  let m := mkM 71 90 (L "VStack(spacing: 12)") [] in
  let issue := vstack_issue scenario_content scenario_file m in
  In issue (detect scenario_content scenario_file) /\
  exists f r status content',
    fix_build_expression scenario_fs issue = Ok f /\
    Fix.replacement f = Some r /\
    apply_fix scenario_fs f
    = (Ok status, FS.write scenario_fs scenario_file content') /\
    FS.read (FS.write scenario_fs scenario_file content') scenario_file
    = Ok content' /\
    forall i,
      In i (check_build_expression content' scenario_file) ->
      Issue.line i <> Issue.line issue.
Proof.
  intros m.
  apply (@vstack_fix_not_redetected scenario_fs scenario_file scenario_content m).
  - reflexivity.
  - vm_compute. left. reflexivity.
Defined.

Lemma synthesize_stale_line_witness :
  generate_fix stale_fs plain_issue
  = Ok (FixDict (Fix.mk stale_file 1 (strip (L "let x = 1" ++ [nl])) None
                   (manual_message (L "buildExpression")))).
Proof.
  apply (@synthesize_stale_line stale_fs plain_issue
           (L "let x = 1" ++ [nl]) (L "let x = 1" ++ [nl])).
  - reflexivity.
  - left. reflexivity.
  - simpl. lia.
  - reflexivity.
  - vm_compute. reflexivity.
Defined.

Lemma apply_fix_frame_witness :
  exists status written content',
    apply_fix scenario_fs scenario_fix
    = (Ok status, FS.write scenario_fs scenario_file written) /\
    FS.read (FS.write scenario_fs scenario_file written) scenario_file
    = Ok content' /\
    length (readlines content') = 10 + 2 - 1.
Proof.
  destruct (@apply_fix_frame scenario_fs scenario_fix scenario_content
              (L "VStack {" ++ [nl] ++ L "        Spacer().frame(height: 12)") 5)
    as (status & written & content' & Happly & Hread & _ & _ & _ & Hlen & _).
  - reflexivity.
  - reflexivity.
  - reflexivity.
  - vm_compute. split; repeat constructor.
  - exists status, written, content'.
    split; [exact Happly|]. split; [exact Hread|exact Hlen].
Defined.

Lemma apply_fix_out_of_range_witness :
  apply_fix stale_fs late_fix = (Raise IndexError, stale_fs).
Proof.
  apply (@apply_fix_out_of_range stale_fs late_fix (L "let x = 1" ++ [nl])
           (L "let z = 3")).
  - reflexivity.
  - reflexivity.
  - vm_compute. reflexivity.
Defined.

Lemma suggest_fixes_invalid_index_witness :
  suggest_fixes (XcodeAssistant.mk (L "project") [frame_rate_issue]) frame_rate_fs
                (Some 1%Z)
  = Ok (One (Str (L "Invalid issue index"))).
Proof.
  apply suggest_fixes_invalid_index. simpl. lia.
Defined.

Lemma fix_records_stripped_witness :
  stripped (Fix.original scenario_fix) /\
  forall r, Fix.replacement scenario_fix = Some r -> stripped r.
Proof.
  destruct (@fix_records_stripped scenario_fs scenario_issue scenario_fix)
    as [Ho Hr].
  - left. vm_compute. reflexivity.
  - split; [exact Ho|]. intros r Hrepl. exact (proj1 (Hr r Hrepl)).
Defined.


(* ================================================================== *)
(** * Dispatch, indices and missing files *)
(* ================================================================== *)

Lemma text_eqb_neq (a b : text) : a <> b -> text_eqb a b = false.
Proof.
  intros H. destruct (text_eqb a b) eqn:E; [|reflexivity].
  apply text_eqb_eq in E. contradiction.
Qed.

(** X1: for an issue whose type is none of the three categories,
    [generate_fix] returns the string "No automatic fix available for issue
    type: " followed by the type; it reads no file, so it neither raises
    nor depends on the file system. *)
Theorem generate_fix_unknown_type (fs : FS.t) (issue : Issue.t) :
  Issue.type issue <> L "buildExpression" ->
  Issue.type issue <> L "deprecated_api" ->
  Issue.type issue <> L "sendable_conformance" ->
  generate_fix fs issue
  = Ok (Str (L "No automatic fix available for issue type: " ++ Issue.type issue)).
Proof.
  intros H1 H2 H3. unfold generate_fix.
  now rewrite !text_eqb_neq by assumption.
Qed.

Lemma generate_fix_unknown_type_witness :
  generate_fix FS.empty unknown_issue
  = Ok (Str (L "No automatic fix available for issue type: style")).
Proof.
  apply (@generate_fix_unknown_type FS.empty unknown_issue); discriminate.
Defined.

(** X2: when the file of an issue of one of the three categories does not
    exist, [generate_fix] raises [FileNotFoundError]; when the file of a fix
    does not exist, [apply_fix] raises it too, also for a fix without
    replacement, and leaves the file system as it was. *)
Theorem missing_file_raises (fs : FS.t) (issue : Issue.t) (f : Fix.t) :
  fs (Issue.file issue) = None ->
  fs (Fix.file f) = None ->
  Issue.type issue = L "buildExpression" \/
  Issue.type issue = L "deprecated_api" \/
  Issue.type issue = L "sendable_conformance" ->
  generate_fix fs issue = Raise FileNotFoundError /\
  apply_fix fs f = (Raise FileNotFoundError, fs).
Proof.
  intros Hi Hf Hty. split.
  - destruct Hty as [Hty|[Hty|Hty]];
      [rewrite generate_fix_build by assumption
      |rewrite generate_fix_deprecated by assumption
      |rewrite generate_fix_sendable by assumption];
      unfold fix_build_expression, fix_deprecated_api, fix_sendable_conformance,
        FS.read; rewrite Hi; reflexivity.
  - unfold apply_fix, FS.read. now rewrite Hf.
Qed.

Lemma missing_file_raises_witness :
  generate_fix FS.empty missing_issue = Raise FileNotFoundError /\
  apply_fix FS.empty missing_fix = (Raise FileNotFoundError, FS.empty).
Proof.
  apply (@missing_file_raises FS.empty missing_issue missing_fix).
  - reflexivity.
  - reflexivity.
  - right. left. reflexivity.
Defined.

(** X3: a negative issue index is not taken from the end of the list, as
    Python indexing would: [suggest_fixes] returns "Invalid issue index". *)
Theorem suggest_fixes_negative_index (self : XcodeAssistant.t) (fs : FS.t) (i : Z) :
  (i < 0)%Z ->
  suggest_fixes self fs (Some i) = Ok (One (Str (L "Invalid issue index"))).
Proof.
  intros H. unfold suggest_fixes.
  destruct (Z.leb_spec 0 i); [lia|]. reflexivity.
Qed.

Lemma suggest_fixes_negative_index_witness :
  suggest_fixes two_issue_assistant frame_rate_fs (Some (-1)%Z)
  = Ok (One (Str (L "Invalid issue index"))).
Proof.
  apply suggest_fixes_negative_index. lia.
Defined.

Lemma generate_fixes_nth (fs : FS.t) (l : list Issue.t) :
  forall vs,
    generate_fixes fs l = Ok vs ->
    length vs = length l /\
    forall i issue,
      nth_error l i = Some issue ->
      exists v, nth_error vs i = Some v /\ generate_fix fs issue = Ok v.
Proof.
  induction l as [|x l IH]; intros vs H; simpl in H.
  - injection H as <-. split; [reflexivity|]. intros [|i] issue Hn; discriminate.
  - destruct (generate_fix fs x) as [v|e] eqn:Ev; simpl in H; [|discriminate].
    destruct (generate_fixes fs l) as [vs'|e] eqn:Evs; simpl in H; [|discriminate].
    injection H as <-. destruct (IH vs' eq_refl) as [Hlen Hnth].
    split; [simpl; now rewrite Hlen|].
    intros [|i] issue Hn; simpl in Hn.
    + injection Hn as <-. exists v. auto.
    + apply Hnth in Hn. exact Hn.
Qed.

(** X4: when [suggest_fixes] without an index returns its list, the list
    has one entry per issue, in the order of the issues, and asking for the
    issue at index [i] returns the entry at [i] of that list. *)
Theorem suggest_fixes_all_agrees
        (self : XcodeAssistant.t) (fs : FS.t) (vs : list value) :
  suggest_fixes self fs None = Ok (All vs) ->
  length vs = length (issues self) /\
  forall i, i < length (issues self) ->
    exists v, nth_error vs i = Some v /\
              suggest_fixes self fs (Some (Z.of_nat i)) = Ok (One v).
Proof.
  unfold suggest_fixes at 1.
  destruct (generate_fixes fs (issues self)) as [vs'|e] eqn:E; simpl;
    [|discriminate].
  intros H. injection H as ->.
  destruct (generate_fixes_nth _ _ E) as [Hlen Hnth].
  split; [exact Hlen|]. intros i Hi.
  destruct (nth_error (issues self) i) as [issue|] eqn:En.
  - destruct (Hnth i issue En) as (v & Hv & Hg). exists v. split; [exact Hv|].
    unfold suggest_fixes.
    destruct (Z.leb_spec 0 (Z.of_nat i)); [|lia].
    destruct (Z.ltb_spec (Z.of_nat i) (Z.of_nat (length (issues self)))); [|lia].
    simpl andb. cbv iota.
    rewrite (@getitem_inside _ (issues self) (Z.of_nat i) issue)
      by (try lia; now rewrite Nat2Z.id).
    rewrite bind_Ok, Hg. reflexivity.
  - apply nth_error_None in En. lia.
Qed.

Lemma suggest_fixes_all_agrees_witness :
  exists vs,
    suggest_fixes two_issue_assistant frame_rate_fs None = Ok (All vs) /\
    length vs = 2 /\
    forall i, i < 2 ->
      exists v, nth_error vs i = Some v /\
                suggest_fixes two_issue_assistant frame_rate_fs (Some (Z.of_nat i))
                = Ok (One v).
Proof.
  eexists. split; [vm_compute; reflexivity|].
  apply (@suggest_fixes_all_agrees two_issue_assistant frame_rate_fs).
  vm_compute. reflexivity.
Defined.

(* ================================================================== *)
(** * When detection finds nothing *)
(* ================================================================== *)

Example detection_anchors :
  map lit_prefix detection_patterns
  = [ L "VStack(spacing:"; L "Text(" ++ [dquote];
      L "AVAsset(url:"; L ".duration"; L ".tracks(withMediaType:";
      L ".nominalFrameRate"; L ".naturalSize"; L "copyCGImage(at:";
      L "init(url:)"; L "class" ].
Proof. reflexivity. Qed.

(** A match begins with the literal characters the pattern begins with. *)
Lemma rmatch_lit_prefix (r : regex) :
  forall s pos cs (k : cont) res,
    rmatch r s pos cs k = Some res -> exists s', s = lit_prefix r ++ s'.
Proof.
  induction r as [|cl| |a _ b IHb|cl min greedy|g a _];
    intros s pos cs k res H; try (exists s; reflexivity).
  - destruct cl; try (exists s; reflexivity).
    simpl in H. destruct s as [|x s]; [discriminate|].
    destruct (Ascii.eqb x c) eqn:E; [|discriminate].
    apply Ascii.eqb_eq in E. subst x. exists s. reflexivity.
  - destruct a as [|cl| | | |]; try (exists s; reflexivity).
    destruct cl; try (exists s; reflexivity).
    apply rmatch_lit in H as (s1 & -> & H).
    apply IHb in H as (s' & ->). exists s'. reflexivity.
Qed.

Lemma search_from_lit_prefix (r : regex) (s : text) :
  forall pos m, search_from r s pos = Some m -> contains (lit_prefix r) s = true.
Proof.
  intros pos m H. apply search_from_inv in H as (i & _ & H).
  unfold match_at in H.
  match type of H with
  | match ?e with _ => _ end = _ => destruct e as [[e0 cs]|] eqn:E; [|discriminate]
  end.
  apply rmatch_lit_prefix in E as (s' & E).
  apply contains_iff. exists (firstn i s), s'.
  rewrite <- E. now rewrite firstn_skipn.
Qed.

(** Where [search] finds nothing, [finditer] yields nothing. *)
Lemma finditer_from_none (r : regex) (s : text) :
  forall pos skip, search_from r s pos = None -> finditer_from r s pos skip = [].
Proof.
  induction s as [|c s IH]; intros pos skip H; simpl in H.
  - destruct skip; simpl; [|reflexivity].
    destruct (match_at r [] pos); [discriminate|reflexivity].
  - destruct (match_at r (c :: s) pos) eqn:E; [discriminate|].
    destruct skip; simpl; [rewrite E|]; now apply IH.
Qed.

Lemma finditer_no_anchor (r : regex) (s : text) :
  contains (lit_prefix r) s = false -> finditer r s = [].
Proof.
  intros H. apply finditer_from_none.
  destruct (search_from r s 0) eqn:E; [|reflexivity].
  apply search_from_lit_prefix in E. congruence.
Qed.

(** X7: a content that holds none of the literal texts the detection
    patterns begin with ([VStack(spacing:], [Text(] and a double quote,
    [AVAsset(url:],
    [.duration], [.tracks(withMediaType:], [.nominalFrameRate],
    [.naturalSize], [copyCGImage(at:], [init(url:)], [class]) yields the
    empty list of issues. *)
Theorem detect_no_anchor (content file_path : text) :
  Forall (fun r => contains (lit_prefix r) content = false) detection_patterns ->
  detect content file_path = [].
Proof.
  intros H. rewrite Forall_forall in H.
  assert (Hv : contains (lit_prefix vstack_pattern) content = false)
    by (apply H; left; reflexivity).
  assert (Ht : contains (lit_prefix text_interp_pattern) content = false)
    by (apply H; right; left; reflexivity).
  assert (Hcl : contains (lit_prefix class_pattern) content = false).
  { apply H. right. right. apply in_or_app. right. left. reflexivity. }
  assert (Hd : forall pr, In pr deprecated_apis ->
                          contains (lit_prefix (fst pr)) content = false).
  { intros pr Hin. apply H. right. right. apply in_or_app. left.
    now apply in_map. }
  unfold detect, check_build_expression, check_sendable_conformance.
  rewrite (finditer_no_anchor _ _ Hv), (finditer_no_anchor _ _ Ht),
    (finditer_no_anchor _ _ Hcl).
  simpl. rewrite app_nil_r.
  unfold check_deprecated_apis.
  induction deprecated_apis as [|pr rules IH]; [reflexivity|].
  simpl. rewrite (finditer_no_anchor _ _ (Hd pr (or_introl eq_refl))).
  apply IH. intros pr' Hin. apply Hd. now right.
Qed.

Lemma detect_no_anchor_witness : detect plain_content (L "Plain.swift") = [].
Proof.
  apply detect_no_anchor. repeat constructor.
Defined.

Lemma sendable_silent (content file_path : text) :
  (contains (L "Task") content = false /\ contains (L "async") content = false)
  \/ contains (L ": Sendable") content = true
  \/ contains (L "@unchecked Sendable") content = true ->
  check_sendable_conformance content file_path = [].
Proof.
  intros H. unfold check_sendable_conformance.
  induction (finditer class_pattern content) as [|m ms IH]; [reflexivity|].
  simpl. rewrite IH.
  destruct H as [[-> ->]|[->| ->]]; simpl.
  - reflexivity.
  - destruct (contains (L "Task") content || contains (L "async") content)%bool;
      reflexivity.
  - destruct (contains (L "Task") content || contains (L "async") content)%bool;
      [|reflexivity].
    destruct (negb (contains (L ": Sendable") content)); reflexivity.
Qed.

(** X8: [check_sendable_conformance] reports nothing for a content that
    holds neither [Task] nor [async], and nothing for a content that holds
    [: Sendable] or [@unchecked Sendable] anywhere, whatever classes it
    declares. *)
Theorem check_sendable_conformance_silent (content file_path : text) :
  (contains (L "Task") content = false /\ contains (L "async") content = false)
  \/ contains (L ": Sendable") content = true
  \/ contains (L "@unchecked Sendable") content = true ->
  check_sendable_conformance content file_path = [].
Proof.
  intros H. unfold check_sendable_conformance.
  induction (finditer class_pattern content) as [|m ms IH]; [reflexivity|].
  simpl. rewrite IH.
  destruct H as [[-> ->]|[->| ->]]; simpl.
  - reflexivity.
  - destruct (contains (L "Task") content || contains (L "async") content)%bool;
      reflexivity.
  - destruct (contains (L "Task") content || contains (L "async") content)%bool;
      [|reflexivity].
    destruct (negb (contains (L ": Sendable") content)); reflexivity.
Qed.

Lemma check_sendable_conformance_silent_witness :
  check_sendable_conformance annotated_content (L "Cache.swift") = [].
Proof.
  apply check_sendable_conformance_silent. right. right. reflexivity.
Defined.

(* ================================================================== *)
(** * Discovery and the project scan *)
(* ================================================================== *)

Lemma startswith_app_r (p x y : text) :
  startswith p x = true -> startswith p (x ++ y) = true.
Proof.
  revert x. induction p as [|c p IH]; intros x H; [reflexivity|].
  destruct x as [|d x]; simpl in *; [discriminate|].
  apply andb_true_iff in H as [H1 H2]. rewrite H1. simpl. now apply IH.
Qed.

Lemma endswith_app (suffix a s : text) :
  endswith suffix s = true -> endswith suffix (a ++ s) = true.
Proof.
  unfold endswith. intros H. rewrite rev_app_distr. now apply startswith_app_r.
Qed.

Lemma path_join_suffix (root name : text) :
  exists a, path_join root name = a ++ name.
Proof.
  unfold path_join. destruct (startswith (L "/") name).
  - exists []. reflexivity.
  - destruct (text_eqb root [] || endswith (L "/") root)%bool.
    + exists root. reflexivity.
    + exists (root ++ L "/"). now rewrite <- app_assoc.
Qed.

(** X9: [find_swift_files] returns exactly the files of the walk whose
    name ends with [.swift], each joined to the path of its directory, and
    every path it returns ends with [.swift]. *)
Theorem find_swift_files_spec (tree : walk) (p : text) :
  (In p (find_swift_files tree) <->
   exists root dirs files name,
     In (root, dirs, files) tree /\ In name files /\
     endswith (L ".swift") name = true /\ p = path_join root name) /\
  (In p (find_swift_files tree) -> endswith (L ".swift") p = true).
Proof.
  assert (Hiff : In p (find_swift_files tree) <->
                 exists root dirs files name,
                   In (root, dirs, files) tree /\ In name files /\
                   endswith (L ".swift") name = true /\ p = path_join root name).
  { unfold find_swift_files. split.
    - intros H. apply in_flat_map in H as ([[root dirs] files] & Hin & Hp).
      apply in_map_iff in Hp as (name & <- & Hname).
      apply filter_In in Hname as [Hname Hend].
      exists root, dirs, files, name. auto.
    - intros (root & dirs & files & name & Hin & Hname & Hend & ->).
      apply in_flat_map. exists (root, dirs, files). split; [exact Hin|].
      apply in_map. apply filter_In. auto. }
  split; [exact Hiff|].
  intros H. apply Hiff in H as (root & dirs & files & name & _ & _ & Hend & ->).
  destruct (path_join_suffix root name) as [a ->]. now apply endswith_app.
Qed.

Example find_swift_files_example :
  find_swift_files sample_tree
  = [L "App/main.swift"; L "App/Views/ContentView.swift"].
Proof. reflexivity. Qed.

Lemma analyze_files_ok (fs : FS.t) (files : list text) :
  forall self,
    Forall (fun p => fs p <> None) files ->
    analyze_files fs files self
    = (Ok (issues self ++ flat_map (found_in fs) files),
       XcodeAssistant.mk (project_path self)
                         (issues self ++ flat_map (found_in fs) files)).
Proof.
  induction files as [|p files IH]; intros self H.
  - simpl. rewrite app_nil_r. destruct self. reflexivity.
  - inversion H as [|? ? Hp Hrest]; subst. simpl.
    unfold analyze_file. unfold found_in at 1 3. unfold FS.read.
    destruct (fs p) as [c|] eqn:E; [|congruence].
    rewrite bind_Ok. rewrite IH by assumption. simpl.
    now rewrite <- !app_assoc.
Qed.

(** X10: when every file found can be read, [analyze_project] returns
    the issues the assistant already held followed by the issues of the
    files, in the order of the files, and keeps that list; a second scan of
    the same files therefore appends the same issues once more. *)
Theorem analyze_project_accumulates
        (self : XcodeAssistant.t) (fs : FS.t) (tree : walk) :
  Forall (fun p => fs p <> None) (find_swift_files tree) ->
  let found := flat_map (found_in fs) (find_swift_files tree) in
  let self1 := XcodeAssistant.mk (project_path self) (issues self ++ found) in
  analyze_project self fs tree = (Ok (issues self ++ found), self1) /\
  fst (analyze_project self1 fs tree) = Ok (issues self ++ found ++ found).
Proof.
  intros H found self1. unfold analyze_project.
  rewrite !analyze_files_ok by assumption. split; [reflexivity|].
  simpl. now rewrite <- app_assoc.
Qed.

Lemma analyze_project_accumulates_witness :
  let found := flat_map (found_in tree_fs) (find_swift_files sample_tree) in
  let self1 := XcodeAssistant.mk (L "App") ([] ++ found) in
  analyze_project fresh_assistant tree_fs sample_tree = (Ok ([] ++ found), self1) /\
  fst (analyze_project self1 tree_fs sample_tree) = Ok ([] ++ found ++ found).
Proof.
  apply (@analyze_project_accumulates fresh_assistant tree_fs sample_tree).
  repeat constructor; discriminate.
Defined.

(** X11: when a file found by the walk is no longer there when the scan
    comes to it, [analyze_project] raises [FileNotFoundError], and the
    assistant keeps the issues of the files scanned before it: the scan is
    not undone. *)
Theorem analyze_project_missing_file
        (self : XcodeAssistant.t) (fs : FS.t) (tree : walk)
        (before after : list text) (p : text) :
  find_swift_files tree = before ++ p :: after ->
  Forall (fun q => fs q <> None) before ->
  fs p = None ->
  analyze_project self fs tree
  = (Raise FileNotFoundError,
     XcodeAssistant.mk (project_path self)
                       (issues self ++ flat_map (found_in fs) before)).
Proof.
  intros Hfiles Hbefore Hp. unfold analyze_project. rewrite Hfiles. clear Hfiles.
  revert self. induction Hbefore as [|q before Hq _ IH]; intros self.
  - simpl. unfold analyze_file, FS.read. rewrite Hp. simpl.
    rewrite app_nil_r. destruct self. reflexivity.
  - simpl. unfold analyze_file. unfold found_in at 1. unfold FS.read.
    destruct (fs q) as [c|] eqn:E; [|congruence].
    rewrite bind_Ok, IH. simpl. now rewrite <- app_assoc.
Qed.

Lemma analyze_project_missing_file_witness :
  analyze_project fresh_assistant half_tree_fs sample_tree
  = (Raise FileNotFoundError,
     XcodeAssistant.mk (L "App")
       ([] ++ flat_map (found_in half_tree_fs) [L "App/main.swift"])).
Proof.
  apply (@analyze_project_missing_file fresh_assistant half_tree_fs sample_tree
           [L "App/main.swift"] [] (L "App/Views/ContentView.swift")).
  - reflexivity.
  - repeat constructor. discriminate.
  - reflexivity.
Defined.

(* ================================================================== *)
(** * Synthesis on a freshly detected issue *)
(* ================================================================== *)

Lemma fix_build_expression_copies (fs : FS.t) (issue : Issue.t) (f : Fix.t) :
  fix_build_expression fs issue = Ok f ->
  Fix.file f = Issue.file issue /\ Fix.line f = Issue.line issue.
Proof.
  unfold fix_build_expression. intros H. synth_cases H;
    injection H as <-; simpl; split; try reflexivity; lia.
Qed.

Lemma fix_deprecated_api_copies (fs : FS.t) (issue : Issue.t) (f : Fix.t) :
  fix_deprecated_api fs issue = Ok f ->
  Fix.file f = Issue.file issue /\ Fix.line f = Issue.line issue.
Proof.
  unfold fix_deprecated_api. intros H. synth_cases H;
    injection H as <-; simpl; split; try reflexivity; lia.
Qed.

Lemma fix_sendable_conformance_copies (fs : FS.t) (issue : Issue.t) (f : Fix.t) :
  fix_sendable_conformance fs issue = Ok f ->
  Fix.file f = Issue.file issue /\ Fix.line f = Issue.line issue.
Proof.
  unfold fix_sendable_conformance. intros H. synth_cases H;
    injection H as <-; simpl; split; try reflexivity; lia.
Qed.

Lemma generate_fix_copies_lemma (fs : FS.t) (issue : Issue.t) (f : Fix.t) :
  generate_fix fs issue = Ok (FixDict f) ->
  Fix.file f = Issue.file issue /\ Fix.line f = Issue.line issue.
Proof.
  unfold generate_fix.
  destruct (text_eqb (Issue.type issue) (L "buildExpression")).
  { destruct (fix_build_expression fs issue) as [f0|] eqn:E; simpl; [|discriminate].
    intros H. injection H as <-. now apply fix_build_expression_copies in E. }
  destruct (text_eqb (Issue.type issue) (L "deprecated_api")).
  { destruct (fix_deprecated_api fs issue) as [f0|] eqn:E; simpl; [|discriminate].
    intros H. injection H as <-. now apply fix_deprecated_api_copies in E. }
  destruct (text_eqb (Issue.type issue) (L "sendable_conformance")).
  { destruct (fix_sendable_conformance fs issue) as [f0|] eqn:E; simpl;
      [|discriminate].
    intros H. injection H as <-. now apply fix_sendable_conformance_copies in E. }
  discriminate.
Qed.

(** X12: whenever [generate_fix] returns a fix record, stale issue or
    not, the record names the file and the line of the issue. *)
Theorem generate_fix_copies (fs : FS.t) (issue : Issue.t) (f : Fix.t) :
  generate_fix fs issue = Ok (FixDict f) ->
  Fix.file f = Issue.file issue /\ Fix.line f = Issue.line issue.
Proof.
  unfold generate_fix.
  destruct (text_eqb (Issue.type issue) (L "buildExpression")).
  { destruct (fix_build_expression fs issue) as [f0|] eqn:E; simpl; [|discriminate].
    intros H. injection H as <-. now apply fix_build_expression_copies in E. }
  destruct (text_eqb (Issue.type issue) (L "deprecated_api")).
  { destruct (fix_deprecated_api fs issue) as [f0|] eqn:E; simpl; [|discriminate].
    intros H. injection H as <-. now apply fix_deprecated_api_copies in E. }
  destruct (text_eqb (Issue.type issue) (L "sendable_conformance")).
  { destruct (fix_sendable_conformance fs issue) as [f0|] eqn:E; simpl;
      [|discriminate].
    intros H. injection H as <-. now apply fix_sendable_conformance_copies in E. }
  discriminate.
Qed.

Lemma generate_fix_copies_witness :
  Fix.file frame_rate_fix = Issue.file frame_rate_issue /\
  Fix.line frame_rate_fix = Issue.line frame_rate_issue.
Proof.
  apply (@generate_fix_copies frame_rate_fs frame_rate_issue frame_rate_fix).
  vm_compute. reflexivity.
Defined.

Lemma readlines_nonempty (s : text) : s <> [] -> readlines s <> [].
Proof.
  destruct s as [|c s]; [congruence|]. intros _. simpl.
  destruct (Ascii.eqb c nl); [discriminate|].
  destruct (readlines s); discriminate.
Qed.

(** A position of the content lies on one of its lines. *)
Lemma count_lt_readlines (pre rest : text) :
  rest <> [] -> count nl pre < length (readlines (pre ++ rest)).
Proof.
  intros Hrest. induction pre as [|x pre IH].
  - simpl. apply readlines_nonempty in Hrest.
    destruct (readlines rest); [congruence|simpl; lia].
  - simpl. destruct (Ascii.eqb x nl); simpl; [lia|].
    destruct (readlines (pre ++ rest)); simpl in *; lia.
Qed.

Lemma splitlines_nonempty (s : text) : s <> [] -> splitlines s <> [].
Proof.
  destruct s as [|c s]; [congruence|]. intros _. simpl.
  destruct (is_linebreak c).
  - destruct s; [discriminate|].
    destruct (Ascii.eqb c cr && Ascii.eqb a nl)%bool; discriminate.
  - destruct (splitlines s); discriminate.
Qed.

Lemma linebreak_nl (x : ascii) : is_linebreak x = false -> Ascii.eqb x nl = false.
Proof.
  intros H. destruct (Ascii.eqb x nl) eqn:E; [|reflexivity].
  apply Ascii.eqb_eq in E. subst x. discriminate.
Qed.

(** The same for the lines of [splitlines], which has at least one line
    per line feed. *)
Lemma count_lt_splitlines (n : nat) :
  forall pre rest,
    length pre <= n -> rest <> [] ->
    count nl pre < length (splitlines (pre ++ rest)).
Proof.
  induction n as [|n IH]; intros pre rest Hlen Hrest.
  - destruct pre; [|simpl in Hlen; lia]. simpl.
    apply splitlines_nonempty in Hrest.
    destruct (splitlines rest); [congruence|simpl; lia].
  - destruct pre as [|x pre].
    + simpl. apply splitlines_nonempty in Hrest.
      destruct (splitlines rest); [congruence|simpl; lia].
    + simpl in Hlen. cbn [app splitlines count].
      destruct (is_linebreak x) eqn:Ex.
      * destruct (pre ++ rest) as [|d s''] eqn:Es.
        { destruct pre; [|discriminate]. simpl in Es. congruence. }
        destruct (Ascii.eqb x cr && Ascii.eqb d nl)%bool eqn:Ecr.
        -- apply andb_true_iff in Ecr as [Ex' Ed].
           apply Ascii.eqb_eq in Ex', Ed. subst x d.
           change (Ascii.eqb cr nl) with false. cbv iota.
           destruct pre as [|y pre].
           ++ simpl. lia.
           ++ simpl in Es. injection Es as -> <-.
              assert (count nl pre < length (splitlines (pre ++ rest)))
                by (apply IH; [simpl in Hlen; lia|exact Hrest]).
              change (count nl (nl :: pre)) with (1 + count nl pre).
              simpl length. lia.
        -- rewrite <- Es.
           assert (count nl pre < length (splitlines (pre ++ rest)))
             by (apply IH; [lia|exact Hrest]).
           simpl length. destruct (Ascii.eqb x nl); lia.
      * rewrite (linebreak_nl _ Ex).
        assert (count nl pre < length (splitlines (pre ++ rest)))
          by (apply IH; [lia|exact Hrest]).
        destruct (splitlines (pre ++ rest)); simpl in *; lia.
Qed.

(** A match of a pattern that begins with a literal character starts
    strictly inside the content. *)
Lemma finditer_start_inside (r : regex) (content : text) (m : mobj) :
  lit_prefix r <> [] ->
  In m (finditer r content) ->
  m_start m < length content.
Proof.
  intros Hlit Hin. unfold finditer in Hin.
  apply finditer_from_inv in Hin as (i & Hi & Hat).
  destruct (match_at_start _ _ _ Hat) as [Hstart _]. simpl in Hstart.
  unfold match_at in Hat.
  match type of Hat with
  | match ?e with _ => _ end = _ => destruct e as [[e0 cs]|] eqn:E; [|discriminate]
  end.
  apply rmatch_lit_prefix in E as (s' & E).
  assert (skipn i content <> []).
  { rewrite E. destruct (lit_prefix r); [congruence|discriminate]. }
  destruct (Nat.lt_ge_cases i (length content)) as [Hlt|Hge]; [lia|].
  rewrite skipn_all2 in H by lia. congruence.
Qed.

Lemma line_of_in_range (content : text) (m : mobj) :
  m_start m < length content ->
  (1 <= line_of content m)%Z /\
  Z.to_nat (line_of content m - 1) < length (readlines content) /\
  Z.to_nat (line_of content m - 1) < length (splitlines content).
Proof.
  intros H. unfold line_of.
  replace (Z.to_nat (Z.of_nat (count nl (firstn (m_start m) content)) + 1 - 1))
    with (count nl (firstn (m_start m) content)) by lia.
  assert (Hrest : skipn (m_start m) content <> []).
  { intros E. apply (f_equal (@length ascii)) in E.
    rewrite length_skipn in E. simpl in E. lia. }
  split; [lia|].
  rewrite <- (firstn_skipn (m_start m) content) at 2 4. split.
  - now apply count_lt_readlines.
  - apply (@count_lt_splitlines (length (firstn (m_start m) content)));
      [lia|exact Hrest].
Qed.

Lemma getitem_in_range {A : Type} (l : list A) (i : Z) :
  (0 <= i)%Z -> Z.to_nat i < length l -> exists a, getitem l i = Ok a.
Proof.
  intros H0 Hlt. destruct (nth_error l (Z.to_nat i)) as [a|] eqn:E.
  - exists a. now apply getitem_inside.
  - apply nth_error_None in E. lia.
Qed.

Lemma fix_build_expression_total (fs : FS.t) (issue : Issue.t) (content line : text) :
  FS.read fs (Issue.file issue) = Ok content ->
  getitem (readlines content) (Issue.line issue - 1) = Ok line ->
  exists f, fix_build_expression fs issue = Ok f.
Proof.
  intros Hc Hget. read_line Hc Hget. rewrite bind_Ok.
  destruct (indent_of_spaces line) as (indent & Hindent & _). rewrite Hindent.
  destruct (contains (L "VStack(spacing:") line); [eexists; reflexivity|].
  destruct (contains (L "Text(") line && contains (L "\(") line
            && contains (L "?") line)%bool; [|eexists; reflexivity].
  destruct (search conditional_pattern line); eexists; reflexivity.
Qed.

Lemma fix_deprecated_api_total (fs : FS.t) (issue : Issue.t) (content line : text) :
  FS.read fs (Issue.file issue) = Ok content ->
  getitem (splitlines content) (Issue.line issue - 1) = Ok line ->
  exists f, fix_deprecated_api fs issue = Ok f.
Proof.
  intros Hc Hget. read_line Hc Hget. rewrite bind_Ok.
  destruct (first_replacement api_replacements line); eexists; reflexivity.
Qed.

Lemma fix_sendable_conformance_total
      (fs : FS.t) (issue : Issue.t) (content line : text) :
  FS.read fs (Issue.file issue) = Ok content ->
  getitem (readlines content) (Issue.line issue - 1) = Ok line ->
  exists f, fix_sendable_conformance fs issue = Ok f.
Proof.
  intros Hc Hget. read_line Hc Hget. rewrite bind_Ok.
  destruct (search class_pattern line); eexists; reflexivity.
Qed.

Lemma detection_patterns_literal :
  Forall (fun r => lit_prefix r <> []) detection_patterns.
Proof. repeat constructor; discriminate. Qed.

(** Every detected issue carries the file, one of the three types, and the
    line of a match that starts inside the content. *)
Lemma detect_inv (content file_path : text) (issue : Issue.t) :
  In issue (detect content file_path) ->
  Issue.file issue = file_path /\
  (Issue.type issue = L "buildExpression" \/
   Issue.type issue = L "deprecated_api" \/
   Issue.type issue = L "sendable_conformance") /\
  exists m, Issue.line issue = line_of content m /\ m_start m < length content.
Proof.
  pose proof detection_patterns_literal as Hlit. rewrite Forall_forall in Hlit.
  unfold detect, check_build_expression, check_deprecated_apis,
    check_sendable_conformance.
  intros H. apply in_app_or in H as [H|H];
    [apply in_app_or in H as [H|H]|apply in_app_or in H as [H|H]].
  - apply in_map_iff in H as (m & <- & Hm). split; [reflexivity|].
    split; [now left|]. exists m. split; [reflexivity|].
    apply (@finditer_start_inside vstack_pattern); [|exact Hm].
    apply Hlit. left. reflexivity.
  - apply in_map_iff in H as (m & <- & Hm). split; [reflexivity|].
    split; [now left|]. exists m. split; [reflexivity|].
    apply (@finditer_start_inside text_interp_pattern); [|exact Hm].
    apply Hlit. right. left. reflexivity.
  - apply in_flat_map in H as (pr & Hpr & H).
    apply in_map_iff in H as (m & <- & Hm). split; [reflexivity|].
    split; [right; now left|]. exists m. split; [reflexivity|].
    apply (@finditer_start_inside (fst pr)); [|exact Hm].
    apply Hlit. right. right. apply in_or_app. left. now apply in_map.
  - apply in_flat_map in H as (m & Hm & H).
    destruct (contains (L "Task") content || contains (L "async") content)%bool;
      [|contradiction].
    destruct (negb (contains (L ": Sendable") content)
              && negb (contains (L "@unchecked Sendable") content))%bool;
      [|contradiction].
    destruct H as [<-|[]]. split; [reflexivity|].
    split; [right; now right|]. exists m. split; [reflexivity|].
    apply (@finditer_start_inside class_pattern); [|exact Hm].
    apply Hlit. right. right. apply in_or_app. right. left. reflexivity.
Qed.

(** X13: for every issue [detect] reports on the current content of a
    file, the line number is a line of the file, and [generate_fix] raises
    no exception and returns no string: it returns a fix record, for the
    same file and line. *)
Theorem generate_fix_fresh (fs : FS.t) (file_path content : text) (issue : Issue.t) :
  FS.read fs file_path = Ok content ->
  In issue (detect content file_path) ->
  (1 <= Issue.line issue <= Z.of_nat (length (readlines content)))%Z /\
  exists f,
    generate_fix fs issue = Ok (FixDict f) /\
    Fix.file f = file_path /\ Fix.line f = Issue.line issue.
Proof.
  intros Hc Hin.
  destruct (detect_inv _ _ _ Hin) as (Hfile & Hty & m & Hline & Hstart).
  destruct (line_of_in_range content m Hstart) as (H1 & Hr & Hs).
  rewrite <- Hline in H1, Hr, Hs. rewrite <- Hfile in Hc.
  split; [lia|].
  assert (Hf : exists f, generate_fix fs issue = Ok (FixDict f)).
  { destruct Hty as [Hty|[Hty|Hty]].
    - rewrite generate_fix_build by assumption.
      destruct (@getitem_in_range _ (readlines content) (Issue.line issue - 1))
        as (line & Hget); [lia|exact Hr|].
      destruct (fix_build_expression_total _ _ Hc Hget) as (f & ->).
      exists f. reflexivity.
    - rewrite generate_fix_deprecated by assumption.
      destruct (@getitem_in_range _ (splitlines content) (Issue.line issue - 1))
        as (line & Hget); [lia|exact Hs|].
      destruct (fix_deprecated_api_total _ _ Hc Hget) as (f & ->).
      exists f. reflexivity.
    - rewrite generate_fix_sendable by assumption.
      destruct (@getitem_in_range _ (readlines content) (Issue.line issue - 1))
        as (line & Hget); [lia|exact Hr|].
      destruct (fix_sendable_conformance_total _ _ Hc Hget) as (f & ->).
      exists f. reflexivity. }
  destruct Hf as (f & Hf). exists f. split; [exact Hf|].
  apply generate_fix_copies_lemma in Hf as [Hff Hfl]. split; congruence.
Qed.

Lemma generate_fix_fresh_witness :
  (1 <= Issue.line scenario_issue
   <= Z.of_nat (length (readlines scenario_content)))%Z /\
  exists f,
    generate_fix scenario_fs scenario_issue = Ok (FixDict f) /\
    Fix.file f = scenario_file /\ Fix.line f = Issue.line scenario_issue.
Proof.
  apply (@generate_fix_fresh scenario_fs scenario_file scenario_content
           scenario_issue).
  - reflexivity.
  - vm_compute. left. reflexivity.
Defined.

(* ================================================================== *)
(** * The two structural-idiom fixes *)
(* ================================================================== *)

(** A greedy repetition before a continuation that cannot fail takes
    every character it can. *)
Lemma rep_greedy_never_fails (cl : cclass) (k : cont) (cs : caps) (s : text) :
  (forall s' p', k s' p' cs <> None) ->
  forall pos, rep_greedy cl 0 s pos cs k <> None.
Proof.
  intros Hk. induction s as [|c s IH]; intros pos; simpl; [apply Hk|].
  destruct (cmatch cl c); [|apply Hk].
  destruct (rep_greedy cl 0 s (S pos) cs k); [discriminate|apply Hk].
Qed.

Lemma rep_greedy_longest (cl : cclass) (k : cont) (cs : caps) (s : text) :
  (forall s' p', k s' p' cs <> None) ->
  forall min pos res,
    min <= 1 ->
    rep_greedy cl min s pos cs k = Some res ->
    exists n, min <= n /\ n <= length s /\
              Forall (fun c => cmatch cl c = true) (firstn n s) /\
              (forall c, hd_error (skipn n s) = Some c -> cmatch cl c = false) /\
              k (skipn n s) (pos + n) cs = Some res.
Proof.
  intros Hk. induction s as [|c s IH]; intros min pos res Hmin H; simpl in H.
  - destruct (Nat.eqb_spec min 0); [|discriminate].
    exists 0. rewrite Nat.add_0_r.
    repeat split; try lia; [constructor|discriminate|exact H].
  - destruct (cmatch cl c) eqn:Ec.
    + destruct (rep_greedy cl (pred min) s (S pos) cs k) as [r0|] eqn:Er.
      * injection H as ->.
        apply IH in Er as (n & Hn & Hlen & Hall & Hmax & Hres); [|lia].
        exists (S n). simpl. repeat split; try lia.
        -- now constructor.
        -- exact Hmax.
        -- now replace (pos + S n) with (S pos + n) by lia.
      * exfalso. replace (pred min) with 0 in Er by lia.
        exact (@rep_greedy_never_fails cl k cs s Hk (S pos) Er).
    + destruct (Nat.eqb_spec min 0); [|discriminate].
      exists 0. rewrite Nat.add_0_r. repeat split; try lia.
      * constructor.
      * simpl. intros x Hx. injection Hx as <-. exact Ec.
      * exact H.
Qed.

(** A greedy repetition succeeds as soon as one of its splits does. *)
Lemma rep_greedy_complete (cl : cclass) (k : cont) (cs : caps) (s : text) :
  forall min pos n,
    min <= n -> n <= length s ->
    Forall (fun c => cmatch cl c = true) (firstn n s) ->
    k (skipn n s) (pos + n) cs <> None ->
    rep_greedy cl min s pos cs k <> None.
Proof.
  induction s as [|c s IH]; intros min pos n Hmin Hlen Hall Hk.
  - simpl in Hlen. assert (n = 0) by lia. subst n.
    assert (min = 0) by lia. subst min.
    simpl in *. now rewrite Nat.add_0_r in Hk.
  - destruct n as [|n].
    + assert (min = 0) by lia. subst min. simpl in *.
      rewrite Nat.add_0_r in Hk.
      destruct (cmatch cl c); [|exact Hk].
      destruct (rep_greedy cl 0 s (S pos) cs k); [discriminate|exact Hk].
    + simpl in Hall, Hk, Hlen. inversion Hall as [|? ? Hc Hrest]; subst.
      simpl. rewrite Hc.
      assert (Hrec : rep_greedy cl (pred min) s (S pos) cs k <> None).
      { apply (IH (pred min) (S pos) n); try lia; [exact Hrest|].
        now replace (S pos + n) with (pos + S n) by lia. }
      destruct (rep_greedy cl (pred min) s (S pos) cs k);
        [discriminate|contradiction].
Qed.

(** [search] reports the leftmost match. *)
Lemma search_from_leftmost (r : regex) (s : text) :
  forall pos m,
    search_from r s pos = Some m ->
    exists i, i <= length s /\
              match_at r (skipn i s) (pos + i) = Some m /\
              forall j, j < i -> match_at r (skipn j s) (pos + j) = None.
Proof.
  induction s as [|c s IH]; intros pos m H; simpl in H.
  - destruct (match_at r [] pos) eqn:E; [|discriminate].
    exists 0. rewrite Nat.add_0_r. repeat split; [lia|simpl; congruence|lia].
  - destruct (match_at r (c :: s) pos) eqn:E.
    + exists 0. rewrite Nat.add_0_r. repeat split; [lia|simpl; congruence|lia].
    + apply IH in H as (i & Hi & Hm & Hnone). exists (S i).
      repeat split; [simpl; lia| |].
      * simpl. now replace (pos + S i) with (S pos + i) by lia.
      * intros [|j] Hj; [now rewrite Nat.add_0_r|].
        simpl. replace (pos + S j) with (S pos + j) by lia.
        apply Hnone. lia.
Qed.

(** Without a match [search] has tried every position. *)
Lemma search_from_none (r : regex) (s : text) :
  forall pos,
    search_from r s pos = None ->
    forall i, i <= length s -> match_at r (skipn i s) (pos + i) = None.
Proof.
  induction s as [|c s IH]; intros pos H i Hi; simpl in H.
  - simpl in Hi. assert (i = 0) by lia. subst i. rewrite Nat.add_0_r. simpl.
    destruct (match_at r [] pos); [discriminate|reflexivity].
  - destruct (match_at r (c :: s) pos) eqn:E; [discriminate|].
    destruct i as [|i]; [now rewrite Nat.add_0_r|].
    simpl. replace (pos + S i) with (S pos + i) by lia.
    apply IH; [exact H|simpl in Hi; lia].
Qed.

(** A match of [spacing:\s*(\d+)] is [spacing:], white space and the
    longest run of digits there, which is group 1. *)
Lemma spacing_match_shape (s : text) (pos : nat) (m : mobj) :
  match_at spacing_pattern s pos = Some m ->
  exists ws b,
    s = L "spacing:" ++ ws ++ group1 m ++ b /\
    Forall (fun c => is_space c = true) ws /\
    group1 m <> [] /\
    Forall (fun c => is_digit c = true) (group1 m) /\
    (forall c, hd_error b = Some c -> is_digit c = false).
Proof.
  intros H. unfold match_at in H.
  match type of H with
  | match ?e with _ => _ end = _ => destruct e as [[e0 cs]|] eqn:E; [|discriminate]
  end.
  injection H as <-. unfold group1, group. simpl groups.
  unfold spacing_pattern in E.
  repeat match type of E with
         | rmatch (Seq (Chr (CLit _)) _) _ _ _ _ = Some _ =>
             apply rmatch_lit in E as (? & -> & E)
         end.
  cbn [rmatch] in E.
  apply rep_greedy_inv in E as (n1 & _ & Hn1 & Hsp & E).
  apply rep_greedy_longest in E as (n2 & Hn2 & Hlen & Hdigit & Hmax & E);
    [|intros; discriminate|lia].
  injection E as _ <-. cbn [lookup Nat.eqb].
  match goal with
  | |- context [firstn (?p + n2 - ?p) _] => replace (p + n2 - p) with n2 by lia
  end.
  match goal with
  | _ : n1 <= length ?x |- _ =>
      exists (firstn n1 x), (skipn n2 (skipn n1 x))
  end.
  split; [|split; [exact Hsp|split; [|split; [exact Hdigit|exact Hmax]]]].
  - rewrite (firstn_skipn n2), (firstn_skipn n1). reflexivity.
  - intros E. apply (f_equal (@length ascii)) in E.
    rewrite length_firstn in E. simpl in E. lia.
Qed.

(** The pattern matches wherever [spacing:], white space and a digit
    stand. *)
Lemma spacing_match_complete (ws b : text) (d : ascii) (pos : nat) :
  Forall (fun c => is_space c = true) ws ->
  is_digit d = true ->
  match_at spacing_pattern (L "spacing:" ++ ws ++ d :: b) pos <> None.
Proof.
  intros Hws Hd. unfold match_at.
  assert (H : rmatch spacing_pattern (L "spacing:" ++ ws ++ d :: b) pos []
                (fun _ p' cs' => Some (p', cs')) <> None).
  { unfold spacing_pattern, L. simpl String.list_ascii_of_string.
    cbn [app rmatch cmatch Ascii.eqb Bool.eqb andb].
    apply (@rep_greedy_complete CSpace _ [] (ws ++ d :: b) 0 _ (length ws)).
    - lia.
    - rewrite length_app. lia.
    - now rewrite firstn_front.
    - rewrite skipn_app, skipn_all, Nat.sub_diag. cbn [skipn app].
      apply (@rep_greedy_complete CDigit _ [] (d :: b) 1 _ 1).
      + lia.
      + simpl. lia.
      + simpl. constructor; [exact Hd|constructor].
      + discriminate. }
  destruct (rmatch spacing_pattern _ pos [] _) as [[e cs]|];
    [discriminate|contradiction].
Qed.

(** X14: for every line that holds [VStack(spacing:], whatever else it
    holds, the fix is exactly [VStack {], a line feed, the leading white
    space of the line (its longest white-space prefix, which is what
    [^\s*] matches), four spaces and [Spacer().frame(height: S)].  [S] is
    the longest run of digits that follows the leftmost [spacing:], white
    space and digit of the line, or [20] when no [spacing:] of the line is
    followed by white space and a digit.  The replacement spans two
    physical lines: the file that [apply_fix] leaves is read back as it was
    written, one line longer. *)
Theorem vstack_fix_shape (fs : FS.t) (issue : Issue.t) (content line : text) :
  FS.read fs (Issue.file issue) = Ok content ->
  (1 <= Issue.line issue)%Z ->
  nth_error (readlines content) (Z.to_nat (Issue.line issue - 1)) = Some line ->
  contains (L "VStack(spacing:") line = true ->
  let indent := leading_space line in
  let spacing := spacing_of line in
  let f := Fix.mk (Issue.file issue) (Issue.line issue) (strip line)
             (Some (L "VStack {" ++ [nl] ++ indent
                      ++ L "    Spacer().frame(height: " ++ spacing ++ L ")"))
             (L "Replace VStack(spacing: " ++ spacing
                ++ L ") with VStack and explicit Spacer") in
  fix_build_expression fs issue = Ok f /\
  indent_of line = Ok indent /\
  line = indent ++ lstrip line /\
  Forall (fun c => is_space c = true) indent /\
  (forall c, hd_error (lstrip line) = Some c -> is_space c = false) /\
  ((exists a ws b,
       line = a ++ L "spacing:" ++ ws ++ spacing ++ b /\
       Forall (fun c => is_space c = true) ws /\
       spacing <> [] /\
       Forall (fun c => is_digit c = true) spacing /\
       (forall c, hd_error b = Some c -> is_digit c = false) /\
       (forall a' ws' d b',
           line = a' ++ L "spacing:" ++ ws' ++ d :: b' ->
           Forall (fun c => is_space c = true) ws' ->
           is_digit d = true ->
           length a <= length a'))
   \/
   (spacing = L "20" /\
    forall a ws d b,
      line = a ++ L "spacing:" ++ ws ++ d :: b ->
      Forall (fun c => is_space c = true) ws ->
      is_digit d = false)) /\
  exists status written,
    apply_fix fs f = (Ok status, FS.write fs (Issue.file issue) written) /\
    FS.read (FS.write fs (Issue.file issue) written) (Issue.file issue)
    = Ok written /\
    length (readlines written) = S (length (readlines content)).
Proof.
  intros Hc Hpos Hnth Hv indent spacing f.
  destruct (vstack_fix_applied fs issue Hc Hpos Hnth Hv)
    as (Hfix & Happly & Hread & Hcount).
  destruct (leading_space_split line) as [Hsplit Hspaces].
  split; [exact Hfix|].
  split; [apply indent_of_leading_space|].
  split; [exact Hsplit|]. split; [exact Hspaces|].
  split; [apply lstrip_head|].
  split.
  { subst spacing. unfold spacing_of.
    destruct (search spacing_pattern line) as [m|] eqn:Es.
    - left. apply search_from_leftmost in Es as (i & Hi & Hm & Hleft).
      simpl in Hm.
      destruct (spacing_match_shape _ _ Hm) as (ws & b & Hs & Hws & Hne & Hd & Hmax).
      exists (firstn i line), ws, b.
      split; [rewrite <- Hs; now rewrite firstn_skipn|].
      split; [exact Hws|]. split; [exact Hne|]. split; [exact Hd|].
      split; [exact Hmax|].
      intros a' ws' d b' Hline Hws' Hd'.
      rewrite length_firstn.
      destruct (Nat.le_gt_cases i (length a')) as [Hle|Hgt]; [lia|].
      specialize (Hleft (length a') Hgt). simpl in Hleft.
      rewrite Hline in Hleft at 1.
      rewrite skipn_app, skipn_all, Nat.sub_diag in Hleft. cbn [skipn app] in Hleft.
      exfalso. exact (@spacing_match_complete ws' b' d (length a') Hws' Hd' Hleft).
    - right. split; [reflexivity|].
      intros a ws d b Hline Hws.
      destruct (is_digit d) eqn:Hd; [|reflexivity]. exfalso.
      assert (Hlen : length a <= length line)
        by (rewrite Hline, length_app; lia).
      pose proof (@search_from_none spacing_pattern line 0 Es (length a) Hlen) as Hnone.
      simpl in Hnone. rewrite Hline in Hnone at 1.
      rewrite skipn_app, skipn_all, Nat.sub_diag in Hnone.
      cbn [skipn app] in Hnone.
      exact (@spacing_match_complete ws b d (length a) Hws Hd Hnone). }
  eexists. eexists. split; [exact Happly|]. split; [exact Hread|].
  assert (Hn : Z.to_nat (Issue.line issue - 1) < length (readlines content))
    by (apply nth_error_Some; congruence).
  rewrite readlines_overwrite by exact Hn.
  rewrite !length_app, length_readlines_nl, length_firstn, length_skipn.
  rewrite Hcount. lia.
Qed.

Lemma vstack_fix_shape_witness :
  let line := L "    VStack(spacing: 12) {" ++ [nl] in
  let indent := leading_space line in
  let spacing := spacing_of line in
  let f := Fix.mk (Issue.file scenario_issue) (Issue.line scenario_issue)
             (strip line)
             (Some (L "VStack {" ++ [nl] ++ indent
                      ++ L "    Spacer().frame(height: " ++ spacing ++ L ")"))
             (L "Replace VStack(spacing: " ++ spacing
                ++ L ") with VStack and explicit Spacer") in
  fix_build_expression scenario_fs scenario_issue = Ok f /\
  indent_of line = Ok indent /\
  line = indent ++ lstrip line /\
  Forall (fun c => is_space c = true) indent /\
  (forall c, hd_error (lstrip line) = Some c -> is_space c = false) /\
  ((exists a ws b,
       line = a ++ L "spacing:" ++ ws ++ spacing ++ b /\
       Forall (fun c => is_space c = true) ws /\
       spacing <> [] /\
       Forall (fun c => is_digit c = true) spacing /\
       (forall c, hd_error b = Some c -> is_digit c = false) /\
       (forall a' ws' d b',
           line = a' ++ L "spacing:" ++ ws' ++ d :: b' ->
           Forall (fun c => is_space c = true) ws' ->
           is_digit d = true ->
           length a <= length a'))
   \/
   (spacing = L "20" /\
    forall a ws d b,
      line = a ++ L "spacing:" ++ ws ++ d :: b ->
      Forall (fun c => is_space c = true) ws ->
      is_digit d = false)) /\
  exists status written,
    apply_fix scenario_fs f
    = (Ok status, FS.write scenario_fs (Issue.file scenario_issue) written) /\
    FS.read (FS.write scenario_fs (Issue.file scenario_issue) written)
            (Issue.file scenario_issue)
    = Ok written /\
    length (readlines written) = S (length (readlines scenario_content)).
Proof.
  intros line.
  apply (@vstack_fix_shape scenario_fs scenario_issue scenario_content line).
  - reflexivity.
  - simpl. lia.
  - reflexivity.
  - vm_compute. reflexivity.
Defined.

Example vstack_fix_shape_example :
  leading_space (L "    VStack(spacing: 12) {" ++ [nl]) = L "    " /\
  spacing_of (L "    VStack(spacing: 12) {" ++ [nl]) = L "12" /\
  spacing_of (L "VStack(spacing: gap) {" ++ [nl]) = L "20" /\
  spacing_of (L "VStack(spacing: gap) { spacing:  7px") = L "7".
Proof. repeat split; vm_compute; reflexivity. Qed.

Lemma rmatch_group_seq_lit (g : nat) (a : regex) (c : ascii) (s : text)
      (pos : nat) (cs : caps) (k : cont) (res : nat * caps) :
  rmatch (Group g (Seq a (Chr (CLit c)))) s pos cs k = Some res ->
  exists n s2, n <= length s /\ skipn n s = c :: s2.
Proof.
  intros H. cbn [rmatch] in H.
  apply rmatch_inv in H as (n & new & Hn & Hk & _).
  destruct (skipn n s) as [|x s2] eqn:E; [discriminate|].
  cbn [cmatch] in Hk. destruct (Ascii.eqb x c) eqn:Ex; [|discriminate].
  apply Ascii.eqb_eq in Ex. subst x. exists n, s2. auto.
Qed.

(** The extraction pattern of the source needs a backslash before the
    conditional and another one after it. *)
Lemma conditional_pattern_backslashes (line : text) (m : mobj) :
  search conditional_pattern line = Some m -> 2 <= count backslash line.
Proof.
  intros H. apply search_from_inv in H as (i & _ & H).
  unfold match_at in H.
  match type of H with
  | match ?e with _ => _ end = _ => destruct e as [[e0 cs]|] eqn:E; [|discriminate]
  end.
  clear H. unfold conditional_pattern in E.
  apply rmatch_lit in E as (s1 & E1 & E).
  apply rmatch_group_seq_lit in E as (n & s2 & _ & E2).
  rewrite <- (firstn_skipn i line), E1.
  rewrite <- (firstn_skipn n s1), E2.
  rewrite !count_app. simpl. rewrite !count_app. simpl. lia.
Qed.

(** X15: on a line without [VStack(spacing:] that holds fewer than two
    backslashes, as a line with one interpolation does, the structural fix
    finds no conditional to extract and returns a fix record without
    replacement, whether or not the line is a Text interpolation. *)
Theorem text_fix_needs_two_backslashes
        (fs : FS.t) (issue : Issue.t) (content line : text) :
  FS.read fs (Issue.file issue) = Ok content ->
  (1 <= Issue.line issue)%Z ->
  nth_error (readlines content) (Z.to_nat (Issue.line issue - 1)) = Some line ->
  contains (L "VStack(spacing:") line = false ->
  count backslash line < 2 ->
  fix_build_expression fs issue
  = Ok (Fix.mk (Issue.file issue) (Issue.line issue) (strip line) None
          (L "Manual fix required for this buildExpression issue")).
Proof.
  intros Hc Hpos Hnth Hv Hcount.
  assert (Hget : getitem (readlines content) (Issue.line issue - 1) = Ok line)
    by (apply getitem_inside; [lia|exact Hnth]).
  assert (Hline : (Issue.line issue - 1 + 1 = Issue.line issue)%Z) by lia.
  read_line Hc Hget. rewrite bind_Ok, Hv, Hline.
  destruct (contains (L "Text(") line && contains (L "\(") line
            && contains (L "?") line)%bool; [|reflexivity].
  destruct (search conditional_pattern line) as [m|] eqn:E; [|reflexivity].
  apply conditional_pattern_backslashes in E. lia.
Qed.

Lemma text_fix_needs_two_backslashes_witness :
  In text_interp_example_issue (detect text_interp_content (L "Label.swift")) /\
  fix_build_expression text_interp_fs text_interp_example_issue
  = Ok (Fix.mk (L "Label.swift") 1 (strip text_interp_content) None
          (L "Manual fix required for this buildExpression issue")).
Proof.
  split; [vm_compute; left; reflexivity|].
  apply (@text_fix_needs_two_backslashes text_interp_fs text_interp_example_issue
           text_interp_content text_interp_content).
  - reflexivity.
  - vm_compute. discriminate.
  - reflexivity.
  - vm_compute. reflexivity.
  - vm_compute. repeat constructor.
Defined.

(* ================================================================== *)
(** * The Sendable fix and the whole-file test *)
(* ================================================================== *)

(** The line [fix_sendable_conformance] builds holds the annotation. *)
Lemma sendable_replacement_annotated (line : text) (m : mobj) :
  search class_pattern line = Some m ->
  contains annotation
    (strip (if contains (L ":") line
            then replace (L ":") (L ": @unchecked Sendable,") line
            else replace (group1 m) (group1 m ++ L ": @unchecked Sendable") line))
  = true.
Proof.
  intros Hm.
  destruct (class_pattern_inv _ Hm) as (a & b & x & w' & Hsplit & Hname & Hword).
  apply (@contains_strip annotation _ "@" "e" (L "unchecked Sendable"));
    try reflexivity.
  destruct (contains (L ":") line) eqn:Hcolon.
  - apply contains_iff in Hcolon as (a0 & b0 & ->).
    unfold L at 1 3. simpl String.list_ascii_of_string.
    rewrite !replace_char_app, replace_char_hit.
    apply contains_iff.
    exists (replace [":"%char] (L ": @unchecked Sendable,") a0 ++ L ": ").
    exists (L "," ++ replace [":"%char] (L ": @unchecked Sendable,") b0).
    rewrite <- !app_assoc. reflexivity.
  - assert (Hne : group1 m <> []) by (rewrite Hname; discriminate).
    assert (Hin : contains (group1 m) line = true)
      by (apply contains_iff; eauto).
    destruct (@replace_first (group1 m) (group1 m ++ L ": @unchecked Sendable")
                line Hne Hin) as (a0 & b0 & ->).
    apply contains_iff. exists (a0 ++ group1 m ++ L ": "), b0.
    rewrite <- !app_assoc. reflexivity.
Qed.

(** X16: once the Sendable fix of one class declaration is applied, the
    file holds [@unchecked Sendable], and [check_sendable_conformance]
    reports no issue on it any more, for this class or for any other class
    the file declares.  The content is what the file is then read as. *)
Theorem sendable_fix_silences_file
        (fs : FS.t) (issue : Issue.t) (content line : text) (m : mobj) :
  FS.read fs (Issue.file issue) = Ok content ->
  (1 <= Issue.line issue)%Z ->
  nth_error (readlines content) (Z.to_nat (Issue.line issue - 1)) = Some line ->
  search class_pattern line = Some m ->
  exists f status content',
    fix_sendable_conformance fs issue = Ok f /\
    apply_fix fs f = (Ok status, FS.write fs (Issue.file issue) content') /\
    FS.read (FS.write fs (Issue.file issue) content') (Issue.file issue)
    = Ok content' /\
    contains annotation content' = true /\
    forall file_path, check_sendable_conformance content' file_path = [].
Proof.
  intros Hc Hpos Hnth Hm.
  assert (Hget : getitem (readlines content) (Issue.line issue - 1) = Ok line)
    by (apply getitem_inside; [lia|exact Hnth]).
  assert (Hline : (Issue.line issue - 1 + 1 = Issue.line issue)%Z) by lia.
  set (n := Z.to_nat (Issue.line issue - 1)) in *.
  assert (Hn : n < length (readlines content))
    by (apply nth_error_Some; congruence).
  set (r := strip (if contains (L ":") line
                   then replace (L ":") (L ": @unchecked Sendable,") line
                   else replace (group1 m)
                          (group1 m ++ L ": @unchecked Sendable") line)).
  set (f := Fix.mk (Issue.file issue) (Issue.line issue) (strip line) (Some r)
              (L "Add @unchecked Sendable conformance to " ++ group1 m)).
  exists f. eexists. exists (concat (overwrite (readlines content) n r)).
  split.
  { read_line Hc Hget. rewrite bind_Ok, Hm, Hline. reflexivity. }
  split.
  { apply (@apply_fix_writes fs f content r n); [exact Hc|reflexivity|].
    simpl Fix.line. rewrite norm_index_inside; [reflexivity|].
    pose proof Hn. lia. }
  split.
  { pose proof (read_no_cr _ _ Hc) as Hcr.
    pose proof (line_no_cr _ _ Hcr Hnth) as Hl.
    apply read_write_no_cr. apply overwrite_no_cr; [exact Hcr|].
    subst r. apply count_strip_zero.
    destruct (contains (L ":") line).
    - apply count_replace_zero; [exact Hl|reflexivity].
    - apply count_replace_zero; [exact Hl|].
      destruct (class_pattern_inv _ Hm) as (a & b & _ & _ & Hsplit & _).
      rewrite Hsplit, !count_app in Hl. rewrite count_app.
      replace (count cr (group1 m)) with 0 by lia. reflexivity. }
  assert (Hann : contains annotation (concat (overwrite (readlines content) n r))
                 = true).
  { apply contains_trans with (q := r).
    - subst r. now apply sendable_replacement_annotated.
    - unfold overwrite. rewrite concat_app.
      remember (skipn (S n) (readlines content)) as back.
      simpl concat. apply contains_iff.
      exists (concat (firstn n (readlines content))), ([nl] ++ concat back).
      now rewrite <- !app_assoc. }
  split; [exact Hann|].
  intros file_path. apply sendable_silent. right. right. exact Hann.
Qed.

Lemma sendable_fix_silences_file_witness :
  length (check_sendable_conformance two_class_content (L "Model.swift")) = 2 /\
  exists f status content',
    fix_sendable_conformance two_class_fs two_class_issue = Ok f /\
    apply_fix two_class_fs f
    = (Ok status, FS.write two_class_fs (Issue.file two_class_issue) content') /\
    FS.read (FS.write two_class_fs (Issue.file two_class_issue) content')
            (Issue.file two_class_issue)
    = Ok content' /\
    contains annotation content' = true /\
    forall file_path, check_sendable_conformance content' file_path = [].
Proof.
  split; [reflexivity|].
  apply (@sendable_fix_silences_file two_class_fs two_class_issue two_class_content
           (L "class Cache {" ++ [nl])
           (mkM 0 11 (L "class Cache") [(1, L "Cache")])).
  - reflexivity.
  - vm_compute. discriminate.
  - reflexivity.
  - vm_compute. reflexivity.
Defined.

(* ================================================================== *)
(** * The order of the issues of a rule *)
(* ================================================================== *)






(* ================================================================== *)
(** * Applying a fix twice *)
(* ================================================================== *)

(** X18: [apply_fix] with the same fix a second time writes the
    replacement again over line [N].  For a replacement without carriage
    return that spans [K] physical lines: each application leaves a file
    that is read back as it was written; after two applications the file
    has [M + 2 (K - 1)] lines, and when [K = 1] the second application
    leaves the file as the first one wrote it. *)
Theorem apply_fix_twice (fs : FS.t) (f : Fix.t) (content r : text) (N : nat) :
  FS.read fs (Fix.file f) = Ok content ->
  Fix.replacement f = Some r ->
  count cr r = 0 ->
  Fix.line f = Z.of_nat N ->
  1 <= N <= length (readlines content) ->
  let K := S (count nl r) in
  exists status content1 status2 content2,
    let fs1 := FS.write fs (Fix.file f) content1 in
    let fs2 := FS.write fs1 (Fix.file f) content2 in
    apply_fix fs f = (Ok status, fs1) /\
    FS.read fs1 (Fix.file f) = Ok content1 /\
    apply_fix fs1 f = (Ok status2, fs2) /\
    FS.read fs2 (Fix.file f) = Ok content2 /\
    length (readlines content2) = length (readlines content) + 2 * (K - 1) /\
    (K = 1 -> content2 = content1).
Proof.
  intros Hc Hr Hrcr HN Hrange K.
  pose proof (read_no_cr _ _ Hc) as Hcr.
  set (lines := readlines content).
  assert (Hidx : norm_index (length lines) (Fix.line f - 1) = Some (N - 1)).
  { rewrite norm_index_inside by (subst lines; lia). f_equal. lia. }
  set (content1 := concat (overwrite lines (N - 1) r)).
  assert (Hcr1 : count cr content1 = 0)
    by (subst content1 lines; now apply overwrite_no_cr).
  assert (Hlines1 : readlines content1
                    = firstn (N - 1) lines ++ readlines (r ++ [nl])
                      ++ skipn (S (N - 1)) lines).
  { subst content1 lines. apply readlines_overwrite. lia. }
  assert (Hfront : length (firstn (N - 1) lines) = N - 1).
  { rewrite length_firstn. subst lines. lia. }
  assert (Hlen1 : length (readlines content1) = length lines + K - 1).
  { rewrite Hlines1, !length_app, Hfront, length_readlines_nl, length_skipn.
    subst K lines. lia. }
  assert (Hidx1 : norm_index (length (readlines content1)) (Fix.line f - 1)
                  = Some (N - 1)).
  { rewrite norm_index_inside by (rewrite Hlen1; subst lines; lia). f_equal. lia. }
  set (content2 := concat (overwrite (readlines content1) (N - 1) r)).
  assert (Hread1 : FS.read (FS.write fs (Fix.file f) content1) (Fix.file f)
                   = Ok content1)
    by (now apply read_write_no_cr).
  eexists. exists content1. eexists. exists content2. cbv zeta.
  split; [now apply apply_fix_writes|].
  split; [exact Hread1|].
  split.
  { apply (@apply_fix_writes _ f content1 r (N - 1));
      [exact Hread1|exact Hr|exact Hidx1]. }
  split.
  { apply read_write_no_cr. subst content2. now apply overwrite_no_cr. }
  split.
  { subst content2. rewrite readlines_overwrite by (rewrite Hlen1; subst lines; lia).
    rewrite !length_app, length_readlines_nl, length_firstn, length_skipn.
    rewrite Hlen1. subst K lines. lia. }
  intros HK1.
  assert (Hsingle : readlines (r ++ [nl]) = [r ++ [nl]])
    by (apply readlines_single; subst K; lia).
  assert (Hskip : skipn (S (N - 1))
                    (firstn (N - 1) lines ++ [r ++ [nl]] ++ skipn (S (N - 1)) lines)
                  = skipn (S (N - 1)) lines).
  { pose proof (@skipn_middle text (firstn (N - 1) lines) (r ++ [nl])
                  (skipn (S (N - 1)) lines)) as E.
    rewrite Hfront in E. exact E. }
  assert (Hfirst : firstn (N - 1)
                     (firstn (N - 1) lines ++ [r ++ [nl]] ++ skipn (S (N - 1)) lines)
                   = firstn (N - 1) lines).
  { pose proof (@firstn_front text (firstn (N - 1) lines)
                  ([r ++ [nl]] ++ skipn (S (N - 1)) lines)) as E.
    rewrite Hfront in E. exact E. }
  subst content2 content1. rewrite Hlines1, Hsingle.
  unfold overwrite. f_equal. f_equal; [exact Hfirst|].
  f_equal. exact Hskip.
Qed.

Lemma apply_fix_twice_witness :
  exists status content1 status2 content2,
    let fs1 := FS.write scenario_fs (Fix.file single_line_fix) content1 in
    let fs2 := FS.write fs1 (Fix.file single_line_fix) content2 in
    apply_fix scenario_fs single_line_fix = (Ok status, fs1) /\
    FS.read fs1 (Fix.file single_line_fix) = Ok content1 /\
    apply_fix fs1 single_line_fix = (Ok status2, fs2) /\
    FS.read fs2 (Fix.file single_line_fix) = Ok content2 /\
    length (readlines content2) = length (readlines scenario_content) + 2 * (1 - 1) /\
    (1 = 1 -> content2 = content1).
Proof.
  apply (@apply_fix_twice scenario_fs single_line_fix scenario_content
           (L "    VStack {") 5).
  - reflexivity.
  - reflexivity.
  - reflexivity.
  - reflexivity.
  - vm_compute. split; repeat constructor.
Defined.

(* ================================================================== *)
(** * One failure fails the whole list *)
(* ================================================================== *)

Lemma generate_fixes_raise (fs : FS.t) (l : list Issue.t) (issue : Issue.t)
      (e : exn) :
  In issue l -> generate_fix fs issue = Raise e ->
  exists e', generate_fixes fs l = Raise e'.
Proof.
  induction l as [|x l IH]; intros Hin He; [contradiction|].
  simpl. destruct (generate_fix fs x) as [v|e0] eqn:Ex; simpl; [|eauto].
  destruct Hin as [->|Hin]; [congruence|].
  destruct (IH Hin He) as (e' & ->). simpl. eauto.
Qed.

(** X19: [suggest_fixes] without an index builds no partial list: when
    the synthesis for one of the issues raises, the whole call raises and
    no fix of the other issues is returned. *)
Theorem suggest_fixes_all_or_nothing
        (self : XcodeAssistant.t) (fs : FS.t) (issue : Issue.t) (e : exn) :
  In issue (issues self) ->
  generate_fix fs issue = Raise e ->
  exists e', suggest_fixes self fs None = Raise e'.
Proof.
  intros Hin He. unfold suggest_fixes.
  destruct (@generate_fixes_raise fs (issues self) issue e Hin He) as (e' & ->).
  simpl. eauto.
Qed.

Lemma suggest_fixes_all_or_nothing_witness :
  exists e', suggest_fixes stale_assistant stale_fs None = Raise e'.
Proof.
  apply (@suggest_fixes_all_or_nothing stale_assistant stale_fs
           (stale_issue (L "deprecated_api")) IndexError).
  - right. left. reflexivity.
  - vm_compute. reflexivity.
Defined.

(* ================================================================== *)
(** * The line the deprecated-API fix reads *)
(* ================================================================== *)

Lemma chomp_cons (c : ascii) (l : text) :
  Ascii.eqb c nl = false -> chomp (c :: l) = c :: chomp l.
Proof. intros H. destruct l; simpl; [now rewrite H|reflexivity]. Qed.

(** With the line feed as only boundary, [splitlines] gives the lines of
    [readlines] without their line feeds. *)
Lemma splitlines_readlines (s : text) :
  only_line_feeds s = true -> splitlines s = map chomp (readlines s).
Proof.
  unfold only_line_feeds. induction s as [|c s IH]; intros H; [reflexivity|].
  cbn [forallb] in H. apply andb_true_iff in H as [Hc Hs].
  specialize (IH Hs). cbn [splitlines readlines].
  destruct (is_linebreak c) eqn:Eb.
  - simpl in Hc. rewrite Hc. apply Ascii.eqb_eq in Hc. subst c.
    change (Ascii.eqb nl cr) with false. cbn [andb].
    destruct s as [|d s]; [reflexivity|].
    rewrite IH. reflexivity.
  - rewrite (linebreak_nl _ Eb). rewrite IH.
    destruct (readlines s) as [|l ls].
    + simpl. now rewrite (@linebreak_nl c Eb).
    + cbn [map]. now rewrite (@chomp_cons c l (@linebreak_nl c Eb)).
Qed.

Lemma chomp_shape (l : text) : chomp l = l \/ l = chomp l ++ [nl].
Proof.
  induction l as [|c l IH]; [now left|].
  destruct l as [|d l].
  - simpl. destruct (Ascii.eqb c nl) eqn:E; [|now left].
    apply Ascii.eqb_eq in E. subst c. now right.
  - change (chomp (c :: d :: l)) with (c :: chomp (d :: l)).
    destruct IH as [->|E]; [now left|]. right.
    change ((c :: chomp (d :: l)) ++ [nl]) with (c :: (chomp (d :: l) ++ [nl])).
    now rewrite <- E.
Qed.

Lemma strip_line_feed (l : text) : strip (l ++ [nl]) = strip l.
Proof.
  unfold strip. destruct (lstrip_suffix l) as (a & Ea & Ha).
  rewrite Ea at 1. rewrite <- app_assoc, lstrip_spaces by assumption.
  destruct (lstrip l) as [|x t] eqn:El.
  - reflexivity.
  - assert (Hx : is_space x = false)
      by (apply (lstrip_head l); now rewrite El).
    change ((x :: t) ++ [nl]) with (x :: t ++ [nl]).
    rewrite lstrip_nonspace by assumption.
    change (x :: t ++ [nl]) with ((x :: t) ++ [nl]).
    apply rstrip_spaces. repeat constructor.
Qed.

Lemma strip_chomp (l : text) : strip (chomp l) = strip l.
Proof.
  destruct (chomp_shape l) as [->|E]; [reflexivity|].
  rewrite E at 2. now rewrite strip_line_feed.
Qed.

(** X20: in a file whose only line boundary is the line feed, the line
    [fix_deprecated_api] reads through [splitlines] is the line that
    [readlines] numbers the same, the one [apply_fix] overwrites: the
    original of the fix is that line, stripped. *)
Theorem fix_deprecated_api_reads_target_line
        (fs : FS.t) (issue : Issue.t) (content : text) (f : Fix.t) :
  FS.read fs (Issue.file issue) = Ok content ->
  only_line_feeds content = true ->
  fix_deprecated_api fs issue = Ok f ->
  exists line,
    getitem (readlines content) (Fix.line f - 1) = Ok line /\
    Fix.original f = strip line.
Proof.
  intros Hc Honly Hf.
  destruct (@fix_deprecated_api_copies fs issue f Hf) as [_ Hline]. rewrite Hline.
  unfold fix_deprecated_api in Hf. rewrite Hc, bind_Ok in Hf.
  cbv zeta in Hf.
  rewrite (@splitlines_readlines content Honly) in Hf.
  unfold getitem in Hf |- *. rewrite length_map in Hf.
  destruct (norm_index (length (readlines content)) (Issue.line issue - 1))
    as [n|]; [|discriminate].
  rewrite nth_error_map in Hf.
  destruct (nth_error (readlines content) n) as [line|]; [|discriminate].
  exists line. split; [reflexivity|].
  cbn [option_map] in Hf. rewrite bind_Ok in Hf. rewrite <- strip_chomp.
  destruct (first_replacement api_replacements (chomp line));
    injection Hf as <-; reflexivity.
Qed.

Lemma fix_deprecated_api_reads_target_line_witness :
  exists line,
    getitem (readlines frame_rate_content) (Fix.line frame_rate_fix - 1) = Ok line /\
    Fix.original frame_rate_fix = strip line.
Proof.
  apply (@fix_deprecated_api_reads_target_line frame_rate_fs frame_rate_issue
           frame_rate_content frame_rate_fix).
  - reflexivity.
  - vm_compute. reflexivity.
  - vm_compute. reflexivity.
Defined.
